(** * Detecting spots of colour: the frame queue, the worker threads and the
      per-frame analysis of [Module4/Exercise 2/FindFaceAndColor.ipynb]

    The notebook has three parts that matter here:

    - the shared [frames = queue.Queue(maxsize = 10)], filled by the main
      thread under [lock] and drained by the [ImageProcessor] threads;
    - [ImageProcessor.run], the worker loop, and the main script that starts
      the workers, captures frames, sets [thread_stopper] and joins;
    - [ImageProcessor.dowork], the analysis of one frame.

    Part I holds the definitions, Part II the theorems. *)

From Stdlib Require Import ZArith Lia Bool QArith.
From Stdlib Require Import Floats.SpecFloat.
From stdpp Require Import base option list gmap.

Open Scope Z_scope.

(* ===================================================================== *)
(** * Part I: definitions                                                  *)
(* ===================================================================== *)

(** Exceptions the modelled statements can raise. *)
Inductive exn :=
  | Empty             (* queue.Empty *)
  | ValueError
  | IndexError
  | RuntimeError      (* release of an unlocked lock *)
  | PiCameraError.    (* the camera cannot deliver a frame *)

Definition exn_eqb (a b : exn) : bool :=
  match a, b with
  | Empty, Empty | ValueError, ValueError | IndexError, IndexError
  | RuntimeError, RuntimeError | PiCameraError, PiCameraError => true
  | _, _ => false
  end.

(** ** [queue.Queue]

    The standard-library queue as the notebook uses it: [full], [put],
    [get], [get_nowait] and [task_done].  A call either returns, would block
    the caller for ever ([Blocks]: nobody else can change the queue while the
    caller holds [lock]), or raises. *)
Module Queue.
Section Queue.
Context {A : Type}.

Record t := mk {
  maxsize : nat;
  queue : list A;              (* oldest entry first *)
  unfinished_tasks : nat
}.

Inductive outcome (R : Type) :=
  | Done (r : R) (q : t)
  | Blocks
  | Raises (e : exn).
Global Arguments Done {R} _ _.
Global Arguments Blocks {R}.
Global Arguments Raises {R} _.

(** [queue.Queue(maxsize = n)] *)
Definition new (n : nat) : t := mk n [] 0.

Definition qsize (q : t) : nat := length (queue q).

(** [0 < self.maxsize <= self._qsize()] *)
Definition full (q : t) : bool :=
  (0 <? maxsize q)%nat && (maxsize q <=? qsize q)%nat.

(** [put(item)], blocking: waits while the queue is full. *)
Definition put (item : A) (q : t) : outcome unit :=
  if full q then Blocks
  else Done tt (mk (maxsize q) (queue q ++ [item]) (S (unfinished_tasks q))).

(** [get()], blocking: waits while the queue is empty. *)
Definition get (q : t) : outcome A :=
  match queue q with
  | [] => Blocks
  | x :: rest => Done x (mk (maxsize q) rest (unfinished_tasks q))
  end.

(** [get_nowait()]: raises [queue.Empty] instead of waiting. *)
Definition get_nowait (q : t) : outcome A :=
  match queue q with
  | [] => Raises Empty
  | x :: rest => Done x (mk (maxsize q) rest (unfinished_tasks q))
  end.

(** [task_done()]: one call too many raises [ValueError]. *)
Definition task_done (q : t) : outcome unit :=
  match unfinished_tasks q with
  | O => Raises ValueError
  | S n => Done tt (mk (maxsize q) (queue q) n)
  end.
End Queue.
Global Arguments t : clear implicits.
End Queue.

(** ** The locked block of the acquisition loop

    [[
        lock.acquire()
        if frames.full():
            frames.get()
            frames.task_done()
        else:
            frames.put(freshest_frame)
        lock.release()
    ]]
    run by the main thread alone, as a function of the queue. *)
Definition acquisition_push {A} (freshest_frame : A) (frames : Queue.t A)
  : Queue.outcome unit :=
  if Queue.full frames then
    match Queue.get frames with
    | Queue.Done _ frames' => Queue.task_done frames'
    | Queue.Blocks => Queue.Blocks
    | Queue.Raises e => Queue.Raises e
    end
  else Queue.put freshest_frame frames.

(** The queue after a whole sequence of captured frames went through the
    block, oldest capture first; [None] when a call blocked or raised. *)
Fixpoint acquisition_pushes {A} (captured : list A) (frames : Queue.t A)
  : option (Queue.t A) :=
  match captured with
  | [] => Some frames
  | f :: rest =>
      match acquisition_push f frames with
      | Queue.Done _ frames' => acquisition_pushes rest frames'
      | _ => None
      end
  end.

(** What the drop-oldest contract asks of a push: the oldest entry leaves
    only when the queue is full, and the new frame is always appended. *)
Definition drop_oldest_push {A} (K : nat) (f : A) (l : list A) : list A :=
  (if (K <=? length l)%nat then tail l else l) ++ [f].

(** The last [K] entries of a list. *)
Definition last_n {A} (K : nat) (l : list A) : list A :=
  drop (length l - K)%nat l.

(** ** The threads

    One main thread and the [ImageProcessor] workers, interleaved one
    statement at a time.  Frames are abstract here; [dowork] and
    [detectFacesAndEyes] are the notebook's functions, applied as a whole. *)
Inductive tid :=
  | Main
  | Worker (i : nat).

Global Instance tid_eq_dec : EqDecision tid.
Proof. solve_decision. Defined.

Section Threads.
Context {F P : Type}.
Variable detectFacesAndEyes : F -> F.
Variable dowork : F -> exn + (option P * F).
Variable zeros : F.              (* [np.zeros((240, 320, 3))] *)

(** Where the main script stands: the statement it runs next. *)
Inductive main_pc :=
  | M_while                      (* while time.time() - start < time_to_run *)
  | M_capture                    (* camera.capture_sequence([freshest_frame], ...) *)
  | M_detect (f : F)             (* detectFacesAndEyes(freshest_frame) *)
  | M_acquire (f : F)            (* lock.acquire() *)
  | M_full (f : F)               (* if frames.full() *)
  | M_get                        (* frames.get() *)
  | M_task_done                  (* frames.task_done() *)
  | M_put (f : F)                (* frames.put(freshest_frame) *)
  | M_release                    (* lock.release() *)
  | M_set                        (* thread_stopper.set() *)
  | M_join (i : nat)             (* imageThread<i>.join() *)
  | M_end                        (* the cell ran to its end *)
  | M_raised (e : exn) (locked : bool).
                                 (* an exception ended the cell; [locked]:
                                    raised between acquire and release *)

(** What follows the [finally: self.lock.release()] of a worker. *)
Inductive after_finally :=
  | Continue                     (* except queue.Empty: continue *)
  | Fallthrough                  (* the try body completed *)
  | Reraise (e : exn).           (* any other exception *)

Inductive worker_pc :=
  | W_while                      (* while not thread_stopper.is_set() *)
  | W_acquire                    (* self.lock.acquire() *)
  | W_get_nowait                 (* self.incoming = self.frames.get_nowait() *)
  | W_dowork (f : F)             (* ... = self.dowork(self.incoming) *)
  | W_task_done                  (* self.frames.task_done() *)
  | W_release (k : after_finally)(* finally: self.lock.release() *)
  | W_showarray                  (* showarray(self.processed) *)
  | W_clear_output               (* IPython.display.clear_output(wait = True) *)
  | W_returned                   (* run returned: the thread can be joined *)
  | W_died (e : exn).            (* an exception ended the thread *)

Record worker := mk_worker {
  pc : worker_pc;
  position : option P;           (* self.position *)
  processed : F                  (* self.processed *)
}.

Record state := mk_state {
  frames : Queue.t F;
  lock : option tid;             (* who acquired [lock], if it is held *)
  thread_stopper : bool;
  main : main_pc;
  workers : list worker;
  shown : list F                 (* what went to the display, in order *)
}.

(** What the environment answers, or which thread runs its next statement. *)
Inductive event :=
  | TimeCheck (running : bool)   (* main evaluates the loop condition *)
  | Capture (r : exn + F)        (* main captures a frame, or fails to *)
  | Tick (t : tid).              (* thread [t] runs one statement *)

Definition set_main (m : main_pc) (s : state) : state :=
  mk_state (frames s) (lock s) (thread_stopper s) m (workers s) (shown s).
Definition set_frames (q : Queue.t F) (s : state) : state :=
  mk_state q (lock s) (thread_stopper s) (main s) (workers s) (shown s).
Definition set_lock (l : option tid) (s : state) : state :=
  mk_state (frames s) l (thread_stopper s) (main s) (workers s) (shown s).
Definition set_worker (i : nat) (w : worker) (s : state) : state :=
  mk_state (frames s) (lock s) (thread_stopper s) (main s)
           (<[i := w]> (workers s)) (shown s).
Definition set_pc (c : worker_pc) (w : worker) : worker :=
  mk_worker c (position w) (processed w).

(** A thread whose [run] is over, normally or not, can be joined. *)
Definition finished (w : worker) : bool :=
  match pc w with
  | W_returned | W_died _ => true
  | _ => false
  end.

(** [except queue.Empty: continue]; anything else propagates. *)
Definition handler (e : exn) : after_finally :=
  if exn_eqb e Empty then Continue else Reraise e.

(** One statement of the main script.  A statement that cannot run yet
    (the lock is taken, the joined thread still runs) leaves the state as
    it is, and so does an event that is not the main thread's turn. *)
Definition step_main (ev : event) (s : state) : state :=
  match main s, ev with
  | M_while, TimeCheck true => set_main M_capture s
  | M_while, TimeCheck false => set_main M_set s
  | M_capture, Capture (inr f) => set_main (M_detect f) s
  | M_capture, Capture (inl e) => set_main (M_raised e false) s
  | M_detect f, Tick Main => set_main (M_acquire (detectFacesAndEyes f)) s
  | M_acquire f, Tick Main =>
      match lock s with
      | None => set_main (M_full f) (set_lock (Some Main) s)
      | Some _ => s
      end
  | M_full f, Tick Main =>
      if Queue.full (frames s) then set_main M_get s else set_main (M_put f) s
  | M_get, Tick Main =>
      match Queue.get (frames s) with
      | Queue.Done _ q => set_main M_task_done (set_frames q s)
      | Queue.Blocks => s
      | Queue.Raises e => set_main (M_raised e true) s
      end
  | M_task_done, Tick Main =>
      match Queue.task_done (frames s) with
      | Queue.Done _ q => set_main M_release (set_frames q s)
      | Queue.Blocks => s
      | Queue.Raises e => set_main (M_raised e true) s
      end
  | M_put f, Tick Main =>
      match Queue.put f (frames s) with
      | Queue.Done _ q => set_main M_release (set_frames q s)
      | Queue.Blocks => s
      | Queue.Raises e => set_main (M_raised e true) s
      end
  | M_release, Tick Main =>
      match lock s with
      | Some _ => set_main M_while (set_lock None s)
      | None => set_main (M_raised RuntimeError false) s
      end
  | M_set, Tick Main =>
      set_main (M_join 0)
        (mk_state (frames s) (lock s) true (main s) (workers s) (shown s))
  | M_join i, Tick Main =>
      match workers s !! i with
      | Some w => if finished w then set_main (M_join (S i)) s else s
      | None => set_main M_end s
      end
  | _, _ => s
  end.

(** One statement of worker [i]. *)
Definition step_worker (i : nat) (w : worker) (s : state) : state :=
  match pc w with
  | W_while =>
      if thread_stopper s then set_worker i (set_pc W_returned w) s
      else set_worker i (set_pc W_acquire w) s
  | W_acquire =>
      match lock s with
      | None => set_worker i (set_pc W_get_nowait w) (set_lock (Some (Worker i)) s)
      | Some _ => s
      end
  | W_get_nowait =>
      match Queue.get_nowait (frames s) with
      | Queue.Done f q => set_worker i (set_pc (W_dowork f) w) (set_frames q s)
      | Queue.Blocks => s
      | Queue.Raises e => set_worker i (set_pc (W_release (handler e)) w) s
      end
  | W_dowork f =>
      match dowork f with
      | inr (pos, out) => set_worker i (mk_worker W_task_done pos out) s
      | inl e => set_worker i (set_pc (W_release (handler e)) w) s
      end
  | W_task_done =>
      match Queue.task_done (frames s) with
      | Queue.Done _ q => set_worker i (set_pc (W_release Fallthrough) w) (set_frames q s)
      | Queue.Blocks => s
      | Queue.Raises e => set_worker i (set_pc (W_release (handler e)) w) s
      end
  | W_release k =>
      match lock s with
      | Some _ =>
          set_worker i
            (set_pc match k with
                    | Continue => W_while
                    | Fallthrough => W_showarray
                    | Reraise e => W_died e
                    end w)
            (set_lock None s)
      | None => set_worker i (set_pc (W_died RuntimeError) w) s
      end
  | W_showarray =>
      set_worker i (set_pc W_clear_output w)
        (mk_state (frames s) (lock s) (thread_stopper s) (main s) (workers s)
                  (shown s ++ [processed w]))
  | W_clear_output => set_worker i (set_pc W_while w) s
  | W_returned | W_died _ => s
  end.

Definition step (ev : event) (s : state) : state :=
  match ev with
  | Tick (Worker i) =>
      match workers s !! i with
      | Some w => step_worker i w s
      | None => s
      end
  | _ => step_main ev s
  end.

(** A run: the events in the order they happen. *)
Definition exec (tr : list event) (s : state) : state :=
  fold_left (fun s ev => step ev s) tr s.

(** The notebook at the point the camera is opened: [n] workers started,
    the queue empty, the lock free, the stop event clear. *)
Definition init (n : nat) : state :=
  mk_state (Queue.new 10) None false M_while
           (replicate n (mk_worker W_while None zeros)) [].

(** Between [acquire] and [release]. *)
Definition main_locked (m : main_pc) : bool :=
  match m with
  | M_full _ | M_get | M_task_done | M_put _ | M_release => true
  | M_raised _ locked => locked
  | _ => false
  end.

Definition worker_locked (c : worker_pc) : bool :=
  match c with
  | W_get_nowait | W_dowork _ | W_task_done | W_release _ => true
  | _ => false
  end.

Definition in_critical (t : tid) (s : state) : bool :=
  match t with
  | Main => main_locked (main s)
  | Worker i =>
      match workers s !! i with
      | Some w => worker_locked (pc w)
      | None => false
      end
  end.

(** The next statement of thread [t] calls a method of [frames]. *)
Definition accesses_queue (t : tid) (s : state) : bool :=
  match t with
  | Main =>
      match main s with
      | M_full _ | M_get | M_task_done | M_put _ => true
      | _ => false
      end
  | Worker i =>
      match workers s !! i with
      | Some w =>
          match pc w with
          | W_get_nowait | W_task_done => true
          | _ => false
          end
      | None => false
      end
  end.

(** Worker [i] is about to analyse a frame / about to display one. *)
Definition analysing (i : nat) (s : state) : bool :=
  match workers s !! i with
  | Some w => match pc w with W_dowork _ => true | _ => false end
  | None => false
  end.

Definition displaying (i : nat) (s : state) : bool :=
  match workers s !! i with
  | Some w =>
      match pc w with
      | W_showarray | W_clear_output => true
      | _ => false
      end
  | None => false
  end.

Definition worker_returned (i : nat) (s : state) : bool :=
  match workers s !! i with
  | Some w => match pc w with W_returned => true | _ => false end
  | None => false
  end.

Definition main_raised (s : state) : bool :=
  match main s with M_raised _ _ => true | _ => false end.
(** The script is past [thread_stopper.set()]. *)
Definition stopping (m : main_pc) : bool :=
  match m with
  | M_join _ | M_end => true
  | _ => false
  end.

(** The script has waited for worker [j]. *)
Definition joined (m : main_pc) (j : nat) : bool :=
  match m with
  | M_join i => (j <? i)%nat
  | M_end => true
  | _ => false
  end.

(** What holds in every state the notebook can reach. *)
Record inv (s : state) : Prop := mk_inv {
  inv_lock : forall t, in_critical t s = true <-> lock s = Some t;
  inv_maxsize : Queue.maxsize (frames s) = 10%nat;
  inv_qsize : (Queue.qsize (frames s) <= 10)%nat;
  inv_put : forall f, main s = M_put f -> Queue.full (frames s) = false;
  inv_get : main s = M_get -> Queue.full (frames s) = true;
  inv_stop : thread_stopper s = stopping (main s);
  inv_returned : forall i, worker_returned i s = true -> thread_stopper s = true;
  inv_joined : forall j w, joined (main s) j = true ->
                 workers s !! j = Some w -> finished w = true
}.
End Threads.

(** A small instance to run: frames are numbers, the overlay leaves them as
    they are and the analysis detects nothing.  Three workers, as in the
    notebook. *)
Definition demo_dowork (f : Z) : exn + (option Z * Z) := inr (None, f).
Definition demo_exec : list (@event Z) -> @state Z Z -> @state Z Z :=
  exec (fun f : Z => f) demo_dowork.
Definition demo_init : @state Z Z := init 0 3.

(** One frame is captured and queued, then worker 0 takes it out and stands
    before [dowork]. *)
Definition trace_to_dowork : list (@event Z) :=
  [TimeCheck true; Capture (inr 42);
   Tick Main; Tick Main; Tick Main; Tick Main; Tick Main;
   Tick (Worker 0); Tick (Worker 0); Tick (Worker 0)].

(** The camera fails on the first capture. *)
Definition trace_capture_fails : list (@event Z) :=
  [TimeCheck true; Capture (inl PiCameraError)].

(** A full queue of ten numbered frames. *)
Definition ten_frames : Queue.t Z :=
  Queue.mk 10 [1; 2; 3; 4; 5; 6; 7; 8; 9; 10] 10.

(** ** Numbers

    numpy's [float64] and Python's [float] are IEEE 754 binary64: the
    standard library's [spec_float] at precision 53, rounding to nearest
    even.  Integers ([int64], [uint8], Python [int]) are [Z]. *)
Module Float64.
Definition prec : Z := 53.
Definition emax : Z := 1024.

(** int to float, as in [float(n)] or the promotion of a mixed operation *)
Definition of_int (n : Z) : spec_float := binary_normalize prec emax n 0 false.
Definition add : spec_float -> spec_float -> spec_float := SFadd prec emax.
Definition sub : spec_float -> spec_float -> spec_float := SFsub prec emax.
Definition mul : spec_float -> spec_float -> spec_float := SFmul prec emax.
Definition div : spec_float -> spec_float -> spec_float := SFdiv prec emax.
Definition sqrt : spec_float -> spec_float := SFsqrt prec emax.
Definition ltb : spec_float -> spec_float -> bool := SFltb.
Definition leb : spec_float -> spec_float -> bool := SFleb.
Definition eqb : spec_float -> spec_float -> bool := SFeqb.
Definition is_nan (x : spec_float) : bool :=
  match x with S754_nan => true | _ => false end.
Definition zero : spec_float := S754_zero false.
(** neither a NaN nor an infinity *)
Definition is_finite (x : spec_float) : bool :=
  match x with
  | S754_zero _ | S754_finite _ _ _ => true
  | _ => false
  end.
(** zero, a finite number or an infinity, with sign bit [s] *)
Definition signed (s : bool) (x : spec_float) : Prop :=
  match x with
  | S754_zero s' | S754_infinity s' | S754_finite s' _ _ => s' = s
  | S754_nan => False
  end.
End Float64.

(** [color_threshold = 0.07]: the binary64 number nearest to 7/100. *)
Definition color_threshold : spec_float :=
  S754_finite false 5044031582654956 (-56).

(** ** Arrays

    A frame is a [(height, width, 3)] array of [uint8]: rows of pixels. *)
Definition pixel : Type := Z * Z * Z.
Abbreviation frame := (list (list pixel)).

Definition height (a : frame) : nat := length a.
Definition width (a : frame) : nat :=
  match a with
  | [] => O
  | row :: _ => length row
  end.

(** Every row of [a] has [w] entries and there are [h] rows. *)
Definition has_shape {A} (h w : nat) (a : list (list A)) : bool :=
  (length a =? h)%nat && forallb (fun row => (length row =? w)%nat) a.

Definition channels (p : pixel) : list Z :=
  let '(r, g, b) := p in [r; g; b].

(** Storing an integer into a [uint8] array keeps its low 8 bits. *)
Definition cast_uint8 (p : pixel) : pixel :=
  let '(r, g, b) := p in (r mod 256, g mod 256, b mod 256).

(** [np.arange(a, b)] *)
Definition arange (a b : Z) : list Z :=
  map (fun i => a + Z.of_nat i) (seq 0 (Z.to_nat (b - a))).

(** [np.array(rows).T] of a rectangular list of rows *)
Definition transpose (rows : list (list Z)) : list (list Z) :=
  match rows with
  | [] => []
  | first :: _ =>
      map (fun j => map (fun row => nth j row 0) rows) (seq 0 (length first))
  end.

(** [x[:, :, np.newaxis]] *)
Definition newaxis (x : list (list Z)) : list (list (list Z)) :=
  map (map (fun v => [v])) x.

(** [self.verticals] and [self.horizontals]: the row and the column index of
    every pixel of the 60 x 80 grid. *)
Definition verticals : list (list (list Z)) :=
  newaxis (transpose (replicate 80 (arange 0 60))).
Definition horizontals : list (list (list Z)) :=
  newaxis (replicate 60 (arange 0 80)).

(** [np.concatenate((a, b, c), axis = 2)]: the leading two dimensions must
    agree. *)
Definition concatenate_axis2 (a b c : list (list (list Z)))
  : exn + list (list (list Z)) :=
  let h := length a in
  let w := match a with [] => O | row :: _ => length row end in
  if has_shape h w a && has_shape h w b && has_shape h w c then
    inr (zip_with (fun ra rbc => zip_with (fun x yz => x ++ yz) ra rbc) a
           (zip_with (zip_with (fun y z => y ++ z)) b c))
  else inl ValueError.

(** Cut a flat list into rows of [cols] entries. *)
Fixpoint chunks {A} (rows cols : nat) (flat : list A) : list (list A) :=
  match rows with
  | O => []
  | S rows' => take cols flat :: chunks rows' cols (drop cols flat)
  end.

(** [x.reshape((rows, cols))] of the entries of [x] in row-major order *)
Definition reshape {A} (rows cols : nat) (flat : list A) : exn + list (list A) :=
  if (length flat =? rows * cols)%nat then inr (chunks rows cols flat)
  else inl ValueError.

(** [x.sum()] of integers *)
Definition np_sum (l : list Z) : Z := foldr Z.add 0 l.

(** [mask.sum(axis = 1)]: how many entries of each row are true *)
Definition sum_axis1 (mask : list (list bool)) : list Z :=
  map (fun row => np_sum (map Z.b2z row)) mask.

(** [mask.sum(axis = 0)]: how many entries of each column are true *)
Definition sum_axis0 (mask : list (list bool)) : list Z :=
  foldr (fun row acc => zip_with Z.add (map Z.b2z row) acc)
        (replicate (match mask with [] => O | row :: _ => length row end) 0)
        mask.

(** [np.nonzero(x)] of a vector: the indices of its nonzero entries, in
    increasing order. *)
Fixpoint nonzero_from (i : Z) (x : list Z) : list Z :=
  match x with
  | [] => []
  | v :: rest =>
      if v =? 0 then nonzero_from (i + 1) rest
      else i :: nonzero_from (i + 1) rest
  end.
Definition nonzero (x : list Z) : list Z := nonzero_from 0 x.

(** [np.min] and [np.max]: an empty argument raises [ValueError]. *)
Definition np_min (x : list Z) : exn + Z :=
  match x with
  | [] => inl ValueError
  | v :: rest => inr (foldr Z.min v rest)
  end.
Definition np_max (x : list Z) : exn + Z :=
  match x with
  | [] => inl ValueError
  | v :: rest => inr (foldr Z.max v rest)
  end.

(** [x.sum()] of floats, accumulated from 0.0 in index order *)
Definition np_fsum (x : list spec_float) : spec_float :=
  fold_left Float64.add x Float64.zero.

(** [x.argmin()] of floats: the running minimum is replaced only by an entry
    that is not [>=] it, so the first of several equal minima stays; a NaN
    counts as minimal and ends the scan.  An empty argument raises. *)
Fixpoint argmin_from (mp : spec_float) (idx i : Z) (x : list spec_float) : Z :=
  match x with
  | [] => idx
  | v :: rest =>
      if Float64.leb mp v then argmin_from mp idx (i + 1) rest
      else if Float64.is_nan v then i
      else argmin_from v i (i + 1) rest
  end.
Definition argmin (x : list spec_float) : exn + Z :=
  match x with
  | [] => inl ValueError
  | v :: rest => inr (if Float64.is_nan v then 0 else argmin_from v 0 1 rest)
  end.

(** [a[r0:r1, c, :] = v]: the slice is clipped to the array, the column index
    is not. *)
Definition setitem_column (r0 r1 c : nat) (v : pixel) (a : frame) : exn + frame :=
  if (c <? width a)%nat then
    inr (imap (fun r row =>
                 if (r0 <=? r)%nat && (r <? r1)%nat
                 then <[c := cast_uint8 v]> row else row) a)
  else inl IndexError.

(** [a[r, c0:c1, :] = v]: the row index is checked, the slice is clipped. *)
Definition setitem_row (r c0 c1 : nat) (v : pixel) (a : frame) : exn + frame :=
  if (r <? height a)%nat then
    inr (imap (fun i row =>
                 if (i =? r)%nat
                 then imap (fun c p =>
                              if (c0 <=? c)%nat && (c <? c1)%nat
                              then cast_uint8 v else p) row
                 else row) a)
  else inl IndexError.

(** ** The heap

    Arrays live in a heap and are handed around by reference, so that
    [array.copy()] and the in-place slice assignments of [dowork] are what
    they are in Python.  A computation reads and writes the heap and may
    raise. *)
Definition heap_exn (A : Type) : Type :=
  gmap nat frame -> exn + (A * gmap nat frame).

Global Instance heap_exn_ret : MRet heap_exn :=
  fun A x h => inr (x, h).
Global Instance heap_exn_bind : MBind heap_exn :=
  fun A B f m h =>
    match m h with
    | inl e => inl e
    | inr (x, h') => f x h'
    end.

(** Turn the result of a pure operation into a computation. *)
Definition lift {A} (r : exn + A) : heap_exn A :=
  fun h =>
    match r with
    | inl e => inl e
    | inr x => inr (x, h)
    end.

(** The array a reference points to (references handed to the functions
    below are allocated; an unallocated one reads as the empty array). *)
Definition deref (a : nat) : heap_exn frame :=
  fun h => inr (h !!! a, h).

(** [a.copy()]: a new array with the same contents. *)
Definition np_copy (a : nat) : heap_exn nat :=
  fun h =>
    let l := fresh (dom h) in
    inr (l, <[l := h !!! a]> h).

(** An in-place update of the array at [a]. *)
Definition assign (a : nat) (f : frame -> exn + frame) : heap_exn unit :=
  fun h =>
    match f (h !!! a) with
    | inl e => inl e
    | inr v => inr (tt, <[a := v]> h)
    end.

(** ** [sklearn.cluster.KMeans]

    What [KMeans(...).fit(X)] leaves in the fitted object: one centre per
    cluster, in cluster order, and the cluster index of every sample. *)
Record KMeans := mk_KMeans {
  cluster_centers_ : list (list spec_float);
  labels_ : list Z
}.

(** [rgb_centers = kmeans.cluster_centers_[:, 0:3]] *)
Definition rgb_centers (kmeans : KMeans) : list (list spec_float) :=
  map (take 3) (cluster_centers_ kmeans).

(** [diff = rgb_centers - self.target_color]: the colour is broadcast over
    the rows, which must have its length. *)
Definition diff (kmeans : KMeans) (target_color : pixel)
  : exn + list (list spec_float) :=
  if forallb (fun row => (length row =? 3)%nat) (rgb_centers kmeans) then
    inr (map (fun row =>
                zip_with Float64.sub row (map Float64.of_int (channels target_color)))
             (rgb_centers kmeans))
  else inl ValueError.

(** [closest = np.sqrt(np.power(diff, 2).sum(axis = 1))] *)
Definition closest (kmeans : KMeans) (target_color : pixel)
  : exn + list spec_float :=
  match diff kmeans target_color with
  | inl e => inl e
  | inr d =>
      inr (map (fun row => Float64.sqrt (np_fsum (map (fun x => Float64.mul x x) row))) d)
  end.

(** [closest_label = closest.argmin()] *)
Definition closest_label (kmeans : KMeans) (target_color : pixel) : exn + Z :=
  match closest kmeans target_color with
  | inl e => inl e
  | inr c => argmin c
  end.

(** [labels = kmeans.labels_.reshape((60, 80)); labels = labels == closest_label] *)
Definition labels (kmeans : KMeans) (label : Z) : exn + list (list bool) :=
  match reshape 60 80 (labels_ kmeans) with
  | inl e => inl e
  | inr grid => inr (map (map (fun l => l =? label)) grid)
  end.

(** [not sum_labels_vertical.sum() > color_threshold * 4800] *)
Definition below_threshold (sum_labels_vertical : list Z) : bool :=
  negb (Float64.ltb (Float64.mul color_threshold (Float64.of_int 4800))
                    (Float64.of_int (np_sum sum_labels_vertical))).

(** The contour of the spot:
    [[
        non_zero_elements = np.nonzero(sum_labels_vertical)
        min_vertical = np.min(non_zero_elements) * 4
        max_vertical = np.max(non_zero_elements) * 4
        non_zero_elements = np.nonzero(sum_labels_horizontal)
        min_horizontal = np.min(non_zero_elements) * 4
        max_horizontal = np.max(non_zero_elements) * 4
    ]] *)
Record contour := mk_contour {
  min_vertical : Z;
  max_vertical : Z;
  min_horizontal : Z;
  max_horizontal : Z
}.

Definition find_contour (sum_labels_vertical sum_labels_horizontal : list Z)
  : exn + contour :=
  let non_zero_elements := nonzero sum_labels_vertical in
  match np_min non_zero_elements, np_max non_zero_elements with
  | inr lo_v, inr hi_v =>
      let non_zero_elements := nonzero sum_labels_horizontal in
      match np_min non_zero_elements, np_max non_zero_elements with
      | inr lo_h, inr hi_h => inr (mk_contour (lo_v * 4) (hi_v * 4) (lo_h * 4) (hi_h * 4))
      | inl e, _ | _, inl e => inl e
      end
  | inl e, _ | _, inl e => inl e
  end.

(** The four slice assignments that draw the rectangle into [output]. *)
Definition draw_rectangle (output : nat) (c : contour) (border_color : pixel)
  : heap_exn unit :=
  let top := Z.to_nat (min_vertical c) in
  let bottom := Z.to_nat (max_vertical c) in
  let left := Z.to_nat (min_horizontal c) in
  let right := Z.to_nat (max_horizontal c) in
  assign output (setitem_column top (bottom + 1) left border_color);;
  assign output (setitem_column top (bottom + 1) right border_color);;
  assign output (setitem_row top left (right + 1) border_color);;
  assign output (setitem_row bottom left (right + 1) border_color).

(** Sequencing of operations that may raise. *)
Definition and_then {A B} (r : exn + A) (f : A -> exn + B) : exn + B :=
  match r with
  | inl e => inl e
  | inr x => f x
  end.

(** The same four assignments, as a function of the array they update. *)
Definition rectangle (c : contour) (border_color : pixel) (a : frame) : exn + frame :=
  let top := Z.to_nat (min_vertical c) in
  let bottom := Z.to_nat (max_vertical c) in
  let left := Z.to_nat (min_horizontal c) in
  let right := Z.to_nat (max_horizontal c) in
  and_then (setitem_column top (bottom + 1) left border_color a) (fun a =>
  and_then (setitem_column top (bottom + 1) right border_color a) (fun a =>
  and_then (setitem_row top left (right + 1) border_color a) (fun a =>
  setitem_row bottom left (right + 1) border_color a))).

(** [center_position = (min_vertical + max_vertical) / 2], a true division *)
Definition center_position (c : contour) : spec_float :=
  Float64.div (Float64.of_int (min_vertical c + max_vertical c)) (Float64.of_int 2).

Definition to_array (a : frame) : list (list (list Z)) := map (map channels) a.

Section Detector.
(** PIL's [Image.resize((width, height), Image.ANTIALIAS)] and sklearn's
    [KMeans(n_clusters = 6, n_init = 1, max_iter = 300, ...).fit]: what
    they compute is theirs, [dowork] only uses the results. *)
Variable Image_resize : frame -> nat -> nat -> frame.
Variable KMeans_fit : list (list Z) -> KMeans.

Definition resizeNPArray (array : nat) (width height : nat) : heap_exn frame :=
  img ← deref array;
  mret (Image_resize img width height).

(** The samples handed to KMeans: one row [R, G, B, row, column] per pixel
    of the downsized image. *)
Definition reshaped (small : frame) : exn + list (list Z) :=
  match concatenate_axis2 (to_array small) verticals horizontals with
  | inl e => inl e
  | inr image_and_positions => reshape (60 * 80)%nat 5 (concat (concat image_and_positions))
  end.

(** [ImageProcessor.dowork]: [self] is the pair of colours; the result is
    [(center_position or None, output)].  The block that fills
    [labels_rgb] is left out: nothing reads that array, and on a fit of
    six centres and 4800 labels it does not raise. *)
Definition dowork (target_color border_color : pixel) (array : nat)
  : heap_exn (option spec_float * nat) :=
  output ← np_copy array;
  small ← resizeNPArray array 80 60;
  samples ← lift (reshaped small);
  let kmeans := KMeans_fit samples in
  label ← lift (closest_label kmeans target_color);
  mask ← lift (labels kmeans label);
  let sum_labels_vertical := sum_axis1 mask in
  let sum_labels_horizontal := sum_axis0 mask in
  if below_threshold sum_labels_vertical then mret (None, output)
  else
    c ← lift (find_contour sum_labels_vertical sum_labels_horizontal);
    draw_rectangle output c border_color;;
    mret (Some (center_position c), output).
End Detector.

(** ** Vocabulary of the statements *)

(** Two floats are the same datum (the sign of a zero counts). *)
Definition same_float (x y : spec_float) : bool :=
  match x, y with
  | S754_zero a, S754_zero b => Bool.eqb a b
  | S754_infinity a, S754_infinity b => Bool.eqb a b
  | S754_nan, S754_nan => true
  | S754_finite s m e, S754_finite s' m' e' =>
      Bool.eqb s s' && Pos.eqb m m' && Z.eqb e e'
  | _, _ => false
  end.

(** The shape sklearn documents for a fit with [n_clusters = 6] on 4800
    samples of 5 features: six centres of five coordinates, and one label in
    [0, 6) per sample. *)
Definition well_formed_fit (kmeans : KMeans) : bool :=
  (length (cluster_centers_ kmeans) =? 6)%nat
  && forallb (fun row => (length row =? 5)%nat) (cluster_centers_ kmeans)
  && (length (labels_ kmeans) =? 4800)%nat
  && forallb (fun l => (0 <=? l) && (l <? 6)) (labels_ kmeans).

(** How many samples carry [label]. *)
Definition count_label (kmeans : KMeans) (label : Z) : Z :=
  np_sum (map (fun l => Z.b2z (l =? label)) (labels_ kmeans)).

(** [sum_labels_vertical] and [sum_labels_horizontal] for the cluster
    [label]: per row and per column of the 60 x 80 grid, how many pixels
    carry that label (empty when the labels do not fill the grid). *)
Definition row_counts (kmeans : KMeans) (label : Z) : list Z :=
  match labels kmeans label with
  | inr mask => sum_axis1 mask
  | inl _ => []
  end.
Definition column_counts (kmeans : KMeans) (label : Z) : list Z :=
  match labels kmeans label with
  | inr mask => sum_axis0 mask
  | inl _ => []
  end.

(** [k] is the first (last) index at which [x] is not zero. *)
Definition first_nonzero (x : list Z) (k : Z) : Prop :=
  0 <= k /\
  (exists v, x !! Z.to_nat k = Some v /\ v <> 0) /\
  forall j v, (j < Z.to_nat k)%nat -> x !! j = Some v -> v = 0.
Definition last_nonzero (x : list Z) (k : Z) : Prop :=
  0 <= k /\
  (exists v, x !! Z.to_nat k = Some v /\ v <> 0) /\
  forall j v, (Z.to_nat k < j)%nat -> x !! j = Some v -> v = 0.

(** The Euclidean distance, in binary64, from the colour part [r, g, b] of a
    centre to the target colour. *)
Definition color_distance (r g b : spec_float) (target_color : pixel) : spec_float :=
  let '(tr, tg, tb) := target_color in
  let dr := Float64.sub r (Float64.of_int tr) in
  let dg := Float64.sub g (Float64.of_int tg) in
  let db := Float64.sub b (Float64.of_int tb) in
  Float64.sqrt
    (Float64.add
       (Float64.add (Float64.add Float64.zero (Float64.mul dr dr)) (Float64.mul dg dg))
       (Float64.mul db db)).

Definition pixel_at (a : frame) (r c : nat) : option pixel :=
  a !! r ≫= fun row => row !! c.

(** The distance [closest] holds for one row of [rgb_centers]. *)
Definition row_distance (target_color : pixel) (row : list spec_float) : spec_float :=
  Float64.sqrt
    (np_fsum (map (fun x => Float64.mul x x)
                  (zip_with Float64.sub row (map Float64.of_int (channels target_color))))).

(** Pixel [(r, c)] lies on one of the four edges of the box. *)
Definition on_contour (box : contour) (r c : nat) : bool :=
  let top := Z.to_nat (min_vertical box) in
  let bottom := Z.to_nat (max_vertical box) in
  let left := Z.to_nat (min_horizontal box) in
  let right := Z.to_nat (max_horizontal box) in
  ((top <=? r)%nat && (r <=? bottom)%nat && ((c =? left)%nat || (c =? right)%nat))
  || (((r =? top)%nat || (r =? bottom)%nat) && (left <=? c)%nat && (c <=? right)%nat).

(** The box in full-resolution coordinates that spans the whole frame, up to
    the rounding of the 4:1 reduction. *)
Definition whole_frame : contour := mk_contour 0 236 0 316.

Section Fit.
Variable Image_resize : frame -> nat -> nat -> frame.
Variable KMeans_fit : list (list Z) -> KMeans.

(** The fitted object [dowork] works with for the image [img]. *)
Definition fit_of (img : frame) : exn + KMeans :=
  match reshaped (Image_resize img 80 60) with
  | inl e => inl e
  | inr samples => inr (KMeans_fit samples)
  end.
End Fit.

(** The channels of a colour are [uint8] values. *)
Definition is_uint8 (c : pixel) : bool :=
  let '(r, g, b) := c in
  (0 <=? r) && (r <? 256) && (0 <=? g) && (g <? 256) && (0 <=? b) && (b <? 256).

(** Every coordinate of every centre is a finite number. *)
Definition finite_centers (kmeans : KMeans) : bool :=
  forallb (forallb Float64.is_finite) (cluster_centers_ kmeans).

(** Every coordinate of every centre is a binary64 number: mantissa and
    exponent are those of the format, as for every [float64] numpy holds. *)
Definition valid_centers (kmeans : KMeans) : bool :=
  forallb (forallb (valid_binary Float64.prec Float64.emax)) (cluster_centers_ kmeans).

(** The colour part of every centre equals the colour [c], as [==] on floats
    has it. *)
Definition centers_have_color (kmeans : KMeans) (c : pixel) : bool :=
  forallb (fun row =>
             match row with
             | r :: g :: b :: _ =>
                 let '(cr, cg, cb) := c in
                 Float64.eqb r (Float64.of_int cr)
                 && Float64.eqb g (Float64.of_int cg)
                 && Float64.eqb b (Float64.of_int cb)
             | _ => false
             end)
          (cluster_centers_ kmeans).

(** The cluster [label] has pixels in the first and the last row and in the
    first and the last column of the 60 x 80 grid. *)
Definition reaches_borders (kmeans : KMeans) (label : Z) : Prop :=
  (exists v, row_counts kmeans label !! 0%nat = Some v /\ v <> 0) /\
  (exists v, row_counts kmeans label !! 59%nat = Some v /\ v <> 0) /\
  (exists v, column_counts kmeans label !! 0%nat = Some v /\ v <> 0) /\
  (exists v, column_counts kmeans label !! 79%nat = Some v /\ v <> 0).

(** *** Fixed points of Lloyd's iteration

    k-means stops where the iteration no longer moves: every sample carries
    the label of a nearest centre and every centre is the mean of the
    samples that carry its label.  Distances and means are exact here. *)

(** The exact value of a finite float, in lowest terms. *)
Definition exact (x : spec_float) : Q :=
  match x with
  | S754_finite s m e =>
      let n := if s then Z.neg m else Z.pos m in
      match e with
      | Z0 => inject_Z n
      | Z.pos p => inject_Z (n * 2 ^ Z.pos p)
      | Z.neg p => Qred (Qmake n (2 ^ p))
      end
  | _ => 0%Q
  end.

Definition distance2 (x : list Z) (c : list spec_float) : Q :=
  foldr Qplus 0%Q
        (zip_with (fun xi ci => let d := (inject_Z xi - exact ci)%Q in (d * d)%Q) x c).

Definition lloyd_fixed_point (samples : list (list Z)) (kmeans : KMeans) : bool :=
  forallb (fun '(x, l) =>
             match cluster_centers_ kmeans !! Z.to_nat l with
             | Some c =>
                 forallb (fun c' => Qle_bool (distance2 x c) (distance2 x c'))
                         (cluster_centers_ kmeans)
             | None => false
             end)
          (zip samples (labels_ kmeans))
  && forallb (fun '(k, c) =>
                let members :=
                  map fst (filter (fun '(x, l) => l = Z.of_nat k)
                                  (zip samples (labels_ kmeans))) in
                negb (Nat.eqb (length members) 0)
                && forallb (fun '(d, cd) =>
                              Qeq_bool (cd * inject_Z (Z.of_nat (length members)))
                                       (inject_Z (np_sum (map (fun x => nth d x 0) members))))
                           (imap (fun d cd => (d, exact cd)) c))
             (imap (fun k c => (k, c)) (cluster_centers_ kmeans)).

(** What the update step of k-means leaves in the colour part of the
    centres: every cluster has a sample, and each of the first three
    coordinates of its centre is the mean of that coordinate over the samples
    of the cluster. *)
Definition centers_are_color_means (samples : list (list Z)) (kmeans : KMeans) : bool :=
  forallb (fun '(k, c) =>
             let members :=
               map fst (filter (fun '(x, l) => l = Z.of_nat k)
                               (zip samples (labels_ kmeans))) in
             negb (Nat.eqb (length members) 0)
             && forallb (fun '(d, cd) =>
                           Qeq_bool (cd * inject_Z (Z.of_nat (length members)))
                                    (inject_Z (np_sum (map (fun x => nth d x 0) members))))
                        (imap (fun d cd => (d, exact cd)) (take 3 c)))
          (imap (fun k c => (k, c)) (cluster_centers_ kmeans)).

(** ** A concrete run

    A frame of one colour, a stand-in for the resize that keeps every n-th
    pixel, and a fit that cuts the 60 x 80 grid into six horizontal bands of
    ten rows, each with the frame's colour and its own mean position. *)
Definition solid (c : pixel) : frame := replicate 240 (replicate 320 c).

Definition every_nth (img : frame) (w h : nat) : frame :=
  map (fun r =>
         map (fun c => nth (c * (width img / w))%nat
                           (nth (r * (height img / h))%nat img []) (0, 0, 0))
             (seq 0 w))
      (seq 0 h).

Definition red : pixel := (255, 0, 0).

Definition band_center (c : pixel) (k : Z) : list spec_float :=
  map Float64.of_int (channels c)
  ++ [Float64.div (Float64.of_int (20 * k + 9)) (Float64.of_int 2);
      Float64.div (Float64.of_int 79) (Float64.of_int 2)].

Definition bands (c : pixel) : KMeans :=
  mk_KMeans (map (band_center c) [0; 1; 2; 3; 4; 5])
            (concat (map (fun k => replicate 800 k) [0; 1; 2; 3; 4; 5])).

(** A fit whose cluster 0 holds the first [n] pixels in row-major order, with
    all the rest in cluster 1; the centres put cluster 0 nearest to red. *)
Definition first_pixels (n : nat) : KMeans :=
  mk_KMeans (map (fun k => map Float64.of_int [255 - k; k; k; 30; 40]) [0; 1; 2; 3; 4; 5])
            (replicate n 0 ++ replicate (4800 - n) 1).

Definition demo_heap : gmap nat frame := {[ 7%nat := solid red ]}.

(** The samples [dowork] builds from a downsized image. *)
Definition samples_of (small : frame) : list (list Z) :=
  match reshaped small with
  | inr samples => samples
  | inl _ => []
  end.


(* ===================================================================== *)
(** * Part I, continued: what the further theorems speak of               *)
(* ===================================================================== *)

Section ThreadHistory.
Context {F P : Type}.
Variable detectFacesAndEyes : F -> F.
Variable dowork : F -> exn + (option P * F).

(** The holder of the lock has taken a frame out of the queue and has not
    called [task_done] for it yet. *)
Definition pending (s : @state F P) : nat :=
  match lock s with
  | Some Main =>
      match main s with
      | M_task_done => 1
      | _ => 0
      end
  | Some (Worker i) =>
      match workers s !! i with
      | Some w =>
          match pc w with
          | W_dowork _ | W_task_done => 1
          | _ => 0
          end
      | None => 0
      end
  | None => 0
  end.

(** The frame a step captures, puts into the queue, takes out of it. *)
Definition captured_by (ev : @event F) (s : @state F P) : list F :=
  match ev, main s with
  | Capture (inr f), M_capture => [f]
  | _, _ => []
  end.

Definition put_by (ev : @event F) (s : @state F P) : list F :=
  match ev, main s with
  | Tick Main, M_put f =>
      match Queue.put f (frames s) with
      | Queue.Done _ _ => [f]
      | _ => []
      end
  | _, _ => []
  end.

Definition taken_by (ev : @event F) (s : @state F P) : list F :=
  match ev with
  | Tick Main =>
      match main s with
      | M_get =>
          match Queue.get (frames s) with
          | Queue.Done x _ => [x]
          | _ => []
          end
      | _ => []
      end
  | Tick (Worker i) =>
      match workers s !! i with
      | Some w =>
          match pc w with
          | W_get_nowait =>
              match Queue.get_nowait (frames s) with
              | Queue.Done x _ => [x]
              | _ => []
              end
          | _ => []
          end
      | None => []
      end
  | _ => []
  end.

(** What a run observes, in order. *)
Fixpoint history (observe : @event F -> @state F P -> list F)
    (tr : list (@event F)) (s : @state F P) : list F :=
  match tr with
  | [] => []
  | ev :: rest =>
      observe ev s ++ history observe rest (step detectFacesAndEyes dowork ev s)
  end.

(** The frame the main thread holds between capture and [put], as it will
    be put. *)
Definition held (s : @state F P) : list F :=
  match main s with
  | M_detect f => [detectFacesAndEyes f]
  | M_acquire f | M_full f | M_put f => [f]
  | _ => []
  end.

(** How many statements a worker is away from the end of [run] once the
    stop event is set, at most. *)
Definition rank (c : @worker_pc F) : nat :=
  match c with
  | W_acquire => 8
  | W_get_nowait => 7
  | W_dowork _ => 6
  | W_task_done => 5
  | W_release _ => 4
  | W_showarray => 3
  | W_clear_output => 2
  | W_while => 1
  | W_returned | W_died _ => 0
  end.

Definition effort (s : @state F P) : nat :=
  foldr (fun w acc => (rank (pc w) + acc)%nat) O (workers s).

(** Every worker runs one statement, in turn; and that many times over. *)
Definition round (n : nat) : list (@event F) :=
  map (fun i => Tick (Worker i)) (seq 0 n).

Fixpoint rounds (k n : nat) : list (@event F) :=
  match k with
  | O => []
  | S k' => round n ++ rounds k' n
  end.

(** From [thread_stopper.set()] to the end of the cell: the script sets
    the event, the workers run, the script joins them. *)
Definition shutdown (n : nat) : list (@event F) :=
  Tick Main :: rounds (8 * n) n ++ replicate (S n) (Tick Main).

(** Past [thread_stopper.set()], before the first [join] returns. *)
Definition stopped (s : @state F P) : Prop :=
  inv s /\ thread_stopper s = true /\ main s = M_join 0.
End ThreadHistory.

Section ThreadExceptions.
Context {F P : Type}.
Variable dowork : F -> exn + (option P * F).

(** Where exceptions can come from, in every state the notebook reaches. *)
Record inv_exn (s : @state F P) : Prop := mk_inv_exn {
  exn_unfinished :
    (Queue.qsize (frames s) + pending s <= Queue.unfinished_tasks (frames s))%nat;
  exn_worker :
    forall i w e,
      workers s !! i = Some w ->
      pc w = W_died e \/ pc w = W_release (Reraise e) ->
      e <> Empty /\ exists f, dowork f = inl e;
  exn_main : forall e locked, main s = M_raised e locked -> locked = false
}.
End ThreadExceptions.

(* ===================================================================== *)
(** * Part II: theorems                                                    *)
(* ===================================================================== *)


(** ** The frame queue *)
Section QueueFacts.
Context {A : Type}.
Implicit Types (q : Queue.t A) (f : A).

Lemma full_spec q :
  Queue.full q = true <-> (0 < Queue.maxsize q /\ Queue.maxsize q <= Queue.qsize q)%nat.
Proof.
  unfold Queue.full. rewrite andb_true_iff, Nat.ltb_lt, Nat.leb_le. tauto.
Qed.

(** On a full queue the block takes the oldest entry out and stops there:
    the fresh frame is not in the queue afterwards. *)
Lemma acquisition_push_full q f :
  Queue.full q = true -> (0 < Queue.unfinished_tasks q)%nat ->
  exists q',
    acquisition_push f q = Queue.Done tt q' /\
    Queue.queue q' = tail (Queue.queue q) /\
    Queue.maxsize q' = Queue.maxsize q.
Proof.
  intros Hfull Hun. unfold acquisition_push. rewrite Hfull.
  apply full_spec in Hfull as [Hpos Hle]. unfold Queue.qsize in Hle.
  unfold Queue.get. destruct (Queue.queue q) as [|x rest] eqn:Hq.
  - simpl in Hle. lia.
  - unfold Queue.task_done. simpl.
    destruct (Queue.unfinished_tasks q) as [|u]; [lia|].
    eexists. split; [reflexivity|]. simpl. auto.
Qed.

Lemma acquisition_push_not_full q f :
  Queue.full q = false ->
  exists q',
    acquisition_push f q = Queue.Done tt q' /\
    Queue.queue q' = Queue.queue q ++ [f] /\
    Queue.maxsize q' = Queue.maxsize q.
Proof.
  intros Hfull. unfold acquisition_push, Queue.put. rewrite Hfull.
  eexists. split; [reflexivity|]. simpl. auto.
Qed.
End QueueFacts.

(** C1, where the code departs from it.  A new frame that meets a full queue
    (ten entries) goes through the locked block: the oldest entry is taken
    out and the new frame is not appended, so nine frames are left.  The
    drop-oldest push would leave the last ten pushed; after eleven pushes
    the queue does not hold the ten most recent frames. *)
Theorem C1_full_queue_loses_the_new_frame :
  Queue.full ten_frames = true /\
  acquisition_push 11 ten_frames
    = Queue.Done tt (Queue.mk 10 [2; 3; 4; 5; 6; 7; 8; 9; 10] 9) /\
  drop_oldest_push 10 11 (Queue.queue ten_frames) = [2; 3; 4; 5; 6; 7; 8; 9; 10; 11] /\
  acquisition_pushes [1; 2; 3; 4; 5; 6; 7; 8; 9; 10; 11] (Queue.new 10)
    = Some (Queue.mk 10 [2; 3; 4; 5; 6; 7; 8; 9; 10] 9) /\
  last_n 10 [1; 2; 3; 4; 5; 6; 7; 8; 9; 10; 11] = [2; 3; 4; 5; 6; 7; 8; 9; 10; 11].
Proof. repeat split; vm_compute; reflexivity. Qed.

Section ThreadFacts.
Context {F P : Type}.
Variable detectFacesAndEyes : F -> F.
Variable dowork : F -> exn + (option P * F).

Local Abbreviation state := (@state F P).
Local Abbreviation step := (step detectFacesAndEyes dowork).
Local Abbreviation exec := (exec detectFacesAndEyes dowork).
Local Abbreviation step_main := (step_main detectFacesAndEyes).
Local Abbreviation step_worker := (step_worker dowork).

Lemma lookup_set_worker (s : state) i w w' j :
  workers s !! i = Some w ->
  workers (set_worker i w' s) !! j
    = if decide (j = i) then Some w' else workers s !! j.
Proof.
  intros Hi. simpl. case_decide as Hj.
  - subst. apply list_lookup_insert_eq. eapply lookup_lt_Some; eauto.
  - apply list_lookup_insert_ne. congruence.
Qed.

Lemma inv_init (zeros : F) n : inv (init zeros n : state).
Proof.
  split; simpl; try done.
  - intros [|i]; simpl; [done|].
    destruct (replicate n _ !! i) as [w|] eqn:Hw; [|done].
    apply lookup_replicate in Hw as [-> _]. done.
  - unfold Queue.qsize. simpl. lia.
  - intros i. unfold worker_returned. simpl.
    destruct (replicate n _ !! i) as [w|] eqn:Hw; [|done].
    apply lookup_replicate in Hw as [-> _]. done.
Qed.

Lemma in_critical_main (s s' : state) t :
  workers s' = workers s ->
  in_critical t s' = if decide (t = Main) then main_locked (main s') else in_critical t s.
Proof. intros Hw. destruct t; simpl; [done|]. by rewrite Hw. Qed.

Lemma worker_not_critical (s : state) i :
  inv s -> main_locked (main s) = true -> in_critical (Worker i) s = false.
Proof.
  intros Hinv Hm. destruct (in_critical (Worker i) s) eqn:Hc; [|done].
  apply (inv_lock _ Hinv) in Hc. apply (inv_lock _ Hinv Main) in Hm. congruence.
Qed.

Lemma get_Done (q q' : Queue.t F) x :
  Queue.get q = Queue.Done x q' ->
  Queue.queue q = x :: Queue.queue q' /\ Queue.maxsize q' = Queue.maxsize q.
Proof.
  unfold Queue.get. destruct (Queue.queue q); [done|].
  intros H; inversion H; subst; done.
Qed.

Lemma get_nowait_Done (q q' : Queue.t F) x :
  Queue.get_nowait q = Queue.Done x q' ->
  Queue.queue q = x :: Queue.queue q' /\ Queue.maxsize q' = Queue.maxsize q.
Proof.
  unfold Queue.get_nowait. destruct (Queue.queue q); [done|].
  intros H; inversion H; subst; done.
Qed.

Lemma task_done_Done (q q' : Queue.t F) u :
  Queue.task_done q = Queue.Done u q' ->
  Queue.queue q' = Queue.queue q /\ Queue.maxsize q' = Queue.maxsize q.
Proof.
  unfold Queue.task_done. destruct (Queue.unfinished_tasks q); [done|].
  intros H; inversion H; subst; done.
Qed.

Lemma put_Done (q q' : Queue.t F) f u :
  Queue.put f q = Queue.Done u q' ->
  Queue.full q = false /\ Queue.queue q' = Queue.queue q ++ [f] /\
  Queue.maxsize q' = Queue.maxsize q.
Proof.
  unfold Queue.put. destruct (Queue.full q); [done|].
  intros H; inversion H; subst; done.
Qed.

Lemma not_full_qsize (q : Queue.t F) :
  Queue.maxsize q = 10%nat -> Queue.full q = false -> (Queue.qsize q < 10)%nat.
Proof.
  unfold Queue.full. intros ->. rewrite andb_false_iff, Nat.ltb_ge, Nat.leb_gt. lia.
Qed.

Ltac queue_facts :=
  repeat match goal with
  | H : Queue.get _ = Queue.Done _ _ |- _ => apply get_Done in H as [? ?]
  | H : Queue.get_nowait _ = Queue.Done _ _ |- _ => apply get_nowait_Done in H as [? ?]
  | H : Queue.task_done _ = Queue.Done _ _ |- _ => apply task_done_Done in H as [? ?]
  | H : Queue.put _ _ = Queue.Done _ _ |- _ => apply put_Done in H as (? & ? & ?)
  end.

Ltac queue_size :=
  queue_facts;
  try match goal with
  | H : Queue.full ?q = false, M : Queue.maxsize ?q = 10%nat |- _ =>
      pose proof (not_full_qsize q M H)
  end;
  unfold Queue.qsize in *;
  repeat match goal with
  | H : Queue.queue _ = _ |- _ => rewrite H in *
  end;
  simpl in *; rewrite ?length_app in *; simpl in *; (congruence || lia).

Lemma inv_step_main ev (s : state) : inv s -> inv (step_main ev s).
Proof.
  intros Hinv. pose proof Hinv as [Hlock Hmax Hsize Hput Hget Hstop Hret Hjoin].
  unfold step_main.
  destruct (main s) eqn:Hm; destruct ev as [[|]|[e0|f0]|[|i0]]; try exact Hinv.
  all: repeat case_match; try exact Hinv.
  all: split; simpl; try done.
  all: try (intros thr; rewrite (in_critical_main s) by done; simpl;
            pose proof (Hlock Main) as HM; pose proof (Hlock thr) as Hthr;
            simpl in HM; rewrite Hm in HM; simpl in HM;
            case_decide; subst;
            first [exact HM | exact Hthr | intuition congruence]).
  all: try queue_size.
  - intros j w0 Hj%Nat.ltb_lt Hw0.
    destruct (decide (j = i)) as [->|Hne]; [congruence|].
    apply (Hjoin j w0); [apply Nat.ltb_lt; lia | done].
  - intros j w0 _ Hw0. apply (Hjoin j w0); [|done].
    apply Nat.ltb_lt. apply lookup_lt_Some in Hw0.
    match goal with H : workers s !! i = None |- _ => apply lookup_ge_None in H end.
    lia.
Qed.

Lemma in_critical_worker (s s' : state) i w w' t :
  workers s !! i = Some w ->
  workers s' = <[i := w']> (workers s) ->
  main s' = main s ->
  in_critical t s'
    = if decide (t = Worker i) then worker_locked (pc w') else in_critical t s.
Proof.
  intros Hi Hw Hm. destruct t as [|j]; simpl; [by rewrite Hm|].
  rewrite Hw. case_decide as Hj.
  - injection Hj as ->. rewrite list_lookup_insert_eq; [done|].
    by eapply lookup_lt_Some.
  - rewrite list_lookup_insert_ne; [done|congruence].
Qed.

Lemma main_excludes_worker (s : state) i w :
  inv s -> workers s !! i = Some w -> worker_locked (pc w) = true ->
  main_locked (main s) = false.
Proof.
  intros Hinv Hi Hw. destruct (main_locked (main s)) eqn:Hm; [|done].
  pose proof (proj1 (inv_lock _ Hinv Main) Hm) as H1.
  pose proof (proj1 (inv_lock _ Hinv (Worker i))) as H2.
  simpl in H2. rewrite Hi in H2. specialize (H2 Hw). congruence.
Qed.

Lemma inv_step_worker i w s :
  workers s !! i = Some w -> inv s -> inv (step_worker i w s).
Proof.
  intros Hi Hinv. pose proof Hinv as [Hlock Hmax Hsize Hput Hget Hstop Hret Hjoin].
  pose proof (lookup_lt_Some _ _ _ Hi) as Hlt.
  pose proof (main_excludes_worker s i w Hinv Hi) as Hexcl.
  unfold step_worker.
  destruct (pc w) eqn:Hpc; repeat case_match; try exact Hinv.
  all: split; simpl; try done.
  all: try (intros thr;
            erewrite (in_critical_worker s _ i w); [|exact Hi|reflexivity|reflexivity];
            simpl;
            pose proof (Hlock (Worker i)) as HW; pose proof (Hlock thr) as Hthr;
            simpl in HW; rewrite Hi, Hpc in HW; simpl in HW;
            case_decide; subst;
            first [exact HW | exact Hthr | intuition congruence]).
  all: try queue_size.
  all: try (intros i0; unfold worker_returned; simpl;
            destruct (decide (i0 = i)) as [->|Hne];
            [ rewrite list_lookup_insert_eq by done; simpl; done
            | rewrite list_lookup_insert_ne by congruence; intros Hr;
              pose proof (Hret i0 Hr); congruence ]).
  all: try (intros j w0 Hj; destruct (decide (j = i)) as [->|Hne];
            [ rewrite list_lookup_insert_eq by done; intros [= <-];
              pose proof (Hjoin i w Hj Hi) as Hf; unfold finished in Hf;
              rewrite Hpc in Hf; done
            | rewrite list_lookup_insert_ne by congruence; apply Hjoin; done ]).
  all: try (intros; specialize (Hexcl eq_refl);
            match goal with H : main _ = _ |- _ => rewrite H in Hexcl end;
            done).
Qed.

Lemma inv_step ev s : inv s -> inv (step ev s).
Proof.
  intros Hinv. destruct ev as [b|r|[|i]]; simpl; try by apply inv_step_main.
  destruct (workers s !! i) as [w|] eqn:Hi; [|done].
  by apply inv_step_worker.
Qed.

Lemma inv_exec tr s : inv s -> inv (exec tr s).
Proof.
  revert s. induction tr as [|ev tr IH]; intros s Hinv; simpl; [done|].
  apply IH. by apply inv_step.
Qed.

Lemma inv_reachable (zeros : F) n tr : inv (exec tr (init zeros n)).
Proof. apply inv_exec, inv_init. Qed.

Lemma accesses_queue_critical t (s : state) :
  accesses_queue t s = true -> in_critical t s = true.
Proof.
  destruct t as [|i]; simpl.
  - by destruct (main s).
  - destruct (workers s !! i) as [w|]; [|done]. by destruct (pc w).
Qed.

(** X3.  The queue calls of the main thread never block: the test of
    [frames.full()] still holds when [get] or [put] runs. *)
Lemma main_queue_calls_return (zeros : F) n tr :
  let s := exec tr (init zeros n) in
  (forall f, main s = M_put f -> exists q, Queue.put f (frames s) = Queue.Done tt q) /\
  (main s = M_get -> exists x q, Queue.get (frames s) = Queue.Done x q).
Proof.
  intros s. pose proof (inv_reachable zeros n tr) as Hinv. fold s in Hinv. split.
  - intros f Hm. unfold Queue.put. rewrite (inv_put _ Hinv f Hm). eauto.
  - intros Hm. pose proof (inv_get _ Hinv Hm) as Hfull.
    apply andb_true_iff in Hfull as [_ Hle%Nat.leb_le].
    rewrite (inv_maxsize _ Hinv) in Hle. unfold Queue.qsize in Hle.
    unfold Queue.get. destruct (Queue.queue (frames s)); simpl in Hle; [lia|eauto].
Qed.

(** X4.  Run without interruption, the statements of the main thread from
    [lock.acquire()] to [lock.release()] do to the queue what
    [acquisition_push] does. *)
Lemma main_block_is_acquisition_push (s : state) f q' :
  main s = M_acquire f -> lock s = None ->
  acquisition_push f (frames s) = Queue.Done tt q' ->
  let s' := exec [Tick Main; Tick Main; Tick Main; Tick Main; Tick Main] s in
  frames s' = q' /\ main s' = M_while /\ lock s' = None /\ workers s' = workers s.
Proof.
  intros Hm Hl Hpush. unfold acquisition_push in Hpush.
  set (s1 := set_main (M_full f) (set_lock (Some Main) s)).
  assert (H1 : step (Tick Main) s = s1).
  { unfold step, step_main. by rewrite Hm, Hl. }
  assert (Hidle : forall q, step (Tick Main) (set_main M_while (set_lock None (set_frames q s1)))
                            = set_main M_while (set_lock None (set_frames q s1))) by done.
  unfold exec. cbn [fold_left]. rewrite H1. clear H1.
  destruct (Queue.full (frames s)) eqn:Hfull.
  - destruct (Queue.get (frames s)) as [x q1| |e] eqn:Hget; try done.
    assert (H2 : step (Tick Main) s1 = set_main M_get s1).
    { unfold step, step_main. cbn [main s1 set_main set_lock frames]. by rewrite Hfull. }
    assert (H3 : step (Tick Main) (set_main M_get s1)
                 = set_main M_task_done (set_frames q1 s1)).
    { unfold step, step_main. cbn [main s1 set_main set_lock frames]. by rewrite Hget. }
    assert (H4 : step (Tick Main) (set_main M_task_done (set_frames q1 s1))
                 = set_main M_release (set_frames q' s1)).
    { unfold step, step_main. cbn [main s1 set_main set_lock set_frames frames].
      by rewrite Hpush. }
    assert (H5 : step (Tick Main) (set_main M_release (set_frames q' s1))
                 = set_main M_while (set_lock None (set_frames q' s1))) by done.
    rewrite H2, H3, H4, H5. done.
  - assert (H2 : step (Tick Main) s1 = set_main (M_put f) s1).
    { unfold step, step_main. cbn [main s1 set_main set_lock frames]. by rewrite Hfull. }
    assert (H3 : step (Tick Main) (set_main (M_put f) s1)
                 = set_main M_release (set_frames q' s1)).
    { unfold step, step_main. cbn [main s1 set_main set_lock frames]. by rewrite Hpush. }
    assert (H4 : step (Tick Main) (set_main M_release (set_frames q' s1))
                 = set_main M_while (set_lock None (set_frames q' s1))) by done.
    rewrite H2, H3, H4, Hidle. done.
Qed.

(** C5.  In every state that any interleaving of the main thread and the
    workers reaches, the length of the queue lies in [0, 10]; a thread
    whose next statement calls a method of the queue holds the lock, and
    no two threads are at such a statement together. *)
Theorem C5_queue_length_bounded_and_serialized (zeros : F) n tr :
  let s := exec tr (init zeros n) in
  0 <= Z.of_nat (Queue.qsize (frames s)) <= 10 /\
  (forall t, accesses_queue t s = true -> lock s = Some t) /\
  (forall t1 t2, accesses_queue t1 s = true -> accesses_queue t2 s = true -> t1 = t2).
Proof.
  intros s. pose proof (inv_reachable zeros n tr) as Hinv. fold s in Hinv.
  assert (Hacc : forall t, accesses_queue t s = true -> lock s = Some t).
  { intros t Ht. apply (inv_lock _ Hinv), accesses_queue_critical, Ht. }
  split; [|split].
  - pose proof (inv_qsize _ Hinv). lia.
  - exact Hacc.
  - intros t1 t2 H1%Hacc H2%Hacc. congruence.
Qed.

(** C6, as amended.  In every reachable state a worker that stands at
    [showarray] or [clear_output] does not hold the lock, and a worker
    that stands at [dowork] does hold it: the display is outside the
    critical section, the analysis of the frame is inside. *)
Theorem C6_display_unlocked_analysis_locked (zeros : F) n tr i :
  let s := exec tr (init zeros n) in
  (displaying i s = true -> lock s <> Some (Worker i)) /\
  (analysing i s = true -> lock s = Some (Worker i)).
Proof.
  intros s. pose proof (inv_reachable zeros n tr) as Hinv. fold s in Hinv.
  pose proof (inv_lock _ Hinv (Worker i)) as Hl. simpl in Hl.
  unfold displaying, analysing.
  destruct (workers s !! i) as [w|]; [|done].
  destruct (pc w); simpl in *; split; try done; try (intros _; by apply Hl).
  all: intros _ Hc; apply Hl in Hc; done.
Qed.

Lemma raised_step ev (s : state) :
  main_raised s = true -> main (step ev s) = main s.
Proof.
  unfold main_raised. destruct (main s) eqn:Hm; try done. intros _.
  destruct ev as [b|r|[|i]]; simpl.
  1-3: unfold step_main; rewrite Hm; by repeat case_match.
  destruct (workers s !! i) as [w|]; [|done].
  unfold step_worker. by repeat case_match.
Qed.

Lemma raised_exec tr (s : state) :
  main_raised s = true -> main (exec tr s) = main s.
Proof.
  revert s. induction tr as [|ev tr IH]; intros s Hr; simpl; [done|].
  pose proof (raised_step ev s Hr) as Hs.
  rewrite IH; [done|]. unfold main_raised. rewrite Hs. exact Hr.
Qed.

Lemma raised_forever tr (s : state) :
  inv s -> main_raised s = true ->
  let s' := exec tr s in
  main s' = main s /\ thread_stopper s' = false /\
  forall i, worker_returned i s' = false.
Proof.
  intros Hinv Hr s'. pose proof (inv_exec tr s Hinv) as Hinv'. fold s' in Hinv'.
  pose proof (raised_exec tr s Hr) as Hm. fold s' in Hm.
  assert (Hstop : thread_stopper s' = false).
  { rewrite (inv_stop _ Hinv'), Hm. unfold main_raised in Hr. by destruct (main s). }
  repeat split; [done..|].
  intros i. destruct (worker_returned i s') eqn:Hret; [|done].
  apply (inv_returned _ Hinv') in Hret. congruence.
Qed.

(** C7, as amended.  A capture that fails ends the main script with the
    exception.  From then on, whatever the threads do, the script stays
    there, [thread_stopper] stays clear and no worker returns from its
    loop.  Only a script that ran to its end has set [thread_stopper] and
    found every worker finished. *)
Theorem C7_failure_propagates_workers_keep_running (zeros : F) n tr :
  let s := exec tr (init zeros n) in
  (forall e, main s = M_capture ->
             main (step (Capture (inl e)) s) = M_raised e false) /\
  (main_raised s = true ->
     forall tr', main (exec tr' s) = main s /\
                 thread_stopper (exec tr' s) = false /\
                 forall i, worker_returned i (exec tr' s) = false) /\
  (main s = M_end ->
     thread_stopper s = true /\
     forall i w, workers s !! i = Some w -> finished w = true).
Proof.
  intros s. pose proof (inv_reachable zeros n tr) as Hinv. fold s in Hinv.
  split; [|split].
  - intros e Hm. simpl. unfold step_main. by rewrite Hm.
  - intros Hr tr'. by apply raised_forever.
  - intros Hm. split.
    + by rewrite (inv_stop _ Hinv), Hm.
    + intros i w Hw. apply (inv_joined _ Hinv i w); [|done]. by rewrite Hm.
Qed.
End ThreadFacts.

(** C6 as stated fails: after one captured frame, worker 0 stands at
    [dowork] with the lock in its hands. *)
Lemma C6_analysis_runs_inside_critical_section :
  ~ (forall tr i, analysing i (demo_exec tr demo_init) = true ->
                  lock (demo_exec tr demo_init) <> Some (Worker i)).
Proof.
  intros H. apply (H trace_to_dowork 0%nat); reflexivity.
Qed.

(** C7 as stated fails: the first capture raises, the script ends with the
    exception, and no continuation of that run sets [thread_stopper]. *)
Lemma C7_capture_failure_never_sets_stop :
  ~ (forall tr,
       main_raised (demo_exec tr demo_init) = true ->
       exists tr', thread_stopper (demo_exec tr' (demo_exec tr demo_init)) = true).
Proof.
  intros H. destruct (H trace_capture_fails eq_refl) as [tr' Hset].
  pose proof (raised_forever (fun f : Z => f) demo_dowork tr'
                (demo_exec trace_capture_fails demo_init)) as Hnever.
  destruct Hnever as (_ & Hclear & _).
  - apply (inv_reachable (fun f : Z => f) demo_dowork 0 3 trace_capture_fails).
  - reflexivity.
  - apply not_true_iff_false in Hclear. apply Hclear. exact Hset.
Qed.

Lemma same_float_eq x y : same_float x y = true -> x = y.
Proof.
  destruct x, y; simpl; try discriminate.
  - intros ->%eqb_prop. reflexivity.
  - intros ->%eqb_prop. reflexivity.
  - reflexivity.
  - rewrite !andb_true_iff. intros [[->%eqb_prop ->%Pos.eqb_eq] ->%Z.eqb_eq]. reflexivity.
Qed.

(** ** binary64 facts *)
Section FloatFacts.
Import Float64.

Lemma In_arange a b n : a <= n < b -> In n (arange a b).
Proof.
  intros H. unfold arange. apply in_map_iff. exists (Z.to_nat (n - a)).
  split; [lia|]. apply in_seq. lia.
Qed.

Lemma forallb_arange (p : Z -> bool) a b :
  forallb p (arange a b) = true -> forall n, a <= n < b -> p n = true.
Proof.
  intros H n Hn. rewrite forallb_forall in H. by apply H, In_arange.
Qed.

(** [count > color_threshold * 4800] is [count > 336] for every count a
    60 x 80 mask can have: all 4801 cases, evaluated. *)
Lemma threshold_table :
  forallb (fun n => Bool.eqb (ltb (mul color_threshold (of_int 4800)) (of_int n)) (336 <? n))
          (arange 0 4801) = true.
Proof. vm_compute. reflexivity. Qed.

Lemma threshold_336 n :
  0 <= n <= 4800 ->
  ltb (mul color_threshold (of_int 4800)) (of_int n) = (336 <? n).
Proof.
  intros Hn. apply eqb_prop.
  apply (forallb_arange _ 0 4801 threshold_table n). lia.
Qed.

(** Halving an even integer below 2000 is exact. *)
Lemma halving_table :
  forallb (fun k => same_float (div (of_int (2 * k)) (of_int 2)) (of_int k))
          (arange 0 1000) = true.
Proof. vm_compute. reflexivity. Qed.

Lemma div_2_exact k :
  0 <= k < 1000 -> div (of_int (2 * k)) (of_int 2) = of_int k.
Proof.
  intros Hk. apply same_float_eq.
  apply (forallb_arange _ 0 1000 halving_table k Hk).
Qed.

(** The comparison of two numbers that are not NaN. *)
Lemma compare_not_nan a b :
  is_nan a = false -> is_nan b = false -> exists c, SFcompare a b = Some c.
Proof. destruct a, b; simpl; try done; eauto. Qed.

Lemma pos_compare_cont_Eq m1 m2 : Pos.compare_cont Eq m1 m2 = (m1 ?= m2)%positive.
Proof. reflexivity. Qed.

Ltac order_cases :=
  repeat match goal with
  | H : context [Pos.compare_cont Eq ?a ?b] |- _ =>
      rewrite (pos_compare_cont_Eq a b) in H
  | |- context [Pos.compare_cont Eq ?a ?b] =>
      rewrite (pos_compare_cont_Eq a b)
  end;
  repeat match goal with
  | H : context [(?a ?= ?b)%positive] |- _ =>
      destruct (Pos.compare_spec a b); simpl in H; try discriminate H
  | H : context [(?a ?= ?b)%Z] |- _ =>
      destruct (Z.compare_spec a b); simpl in H; try discriminate H
  end;
  subst;
  repeat match goal with
  | |- context [(?a ?= ?b)%positive] => destruct (Pos.compare_spec a b); simpl
  | |- context [(?a ?= ?b)%Z] => destruct (Z.compare_spec a b); simpl
  end;
  try reflexivity; try lia.

Lemma ltb_leb_trans a b c :
  ltb a b = true -> leb b c = true -> ltb a c = true.
Proof.
  unfold ltb, leb, SFltb, SFleb.
  destruct a as [sa|sa| |sa ma ea], b as [sb|sb| |sb mb eb], c as [sc|sc| |sc mc ec];
    simpl; try discriminate;
    try destruct sa; try destruct sb; try destruct sc; simpl; try discriminate; try reflexivity.
  all: intros H1 H2; order_cases.
Qed.

Lemma leb_trans a b c :
  leb a b = true -> leb b c = true -> leb a c = true.
Proof.
  unfold ltb, leb, SFltb, SFleb.
  destruct a as [sa|sa| |sa ma ea], b as [sb|sb| |sb mb eb], c as [sc|sc| |sc mc ec];
    simpl; try discriminate;
    try destruct sa; try destruct sb; try destruct sc; simpl; try discriminate; try reflexivity.
  all: intros H1 H2; order_cases.
Qed.

Lemma ltb_leb a b : ltb a b = true -> leb a b = true.
Proof.
  unfold ltb, leb, SFltb, SFleb. by destruct (SFcompare a b) as [[]|].
Qed.

Lemma not_leb_ltb a b :
  is_nan a = false -> is_nan b = false -> leb a b = false -> ltb b a = true.
Proof.
  unfold ltb, leb, SFltb, SFleb.
  destruct a as [sa|sa| |sa ma ea], b as [sb|sb| |sb mb eb];
    simpl; try discriminate;
    try destruct sa; try destruct sb; simpl; try discriminate; try reflexivity.
  all: intros _ _ H1; order_cases.
Qed.

Lemma leb_refl a : is_nan a = false -> leb a a = true.
Proof.
  unfold leb, SFleb. destruct a as [sa|sa| |sa ma ea]; simpl; try discriminate;
    try destruct sa; simpl; try reflexivity.
  all: intros _; rewrite Z.compare_refl, pos_compare_cont_Eq, Pos.compare_refl; reflexivity.
Qed.

Lemma leb_not_nan a b : leb a b = true -> is_nan a = false /\ is_nan b = false.
Proof. unfold leb, SFleb. destruct a, b; simpl; try discriminate; done. Qed.

End FloatFacts.

(** ** Rounding never invents a NaN *)
Section RoundingFacts.
Import Float64.

Lemma shr_1_nonneg mrs : 0 <= shr_m mrs -> 0 <= shr_m (shr_1 mrs).
Proof.
  destruct mrs as [m r s]. simpl. destruct m as [|[p|p|]|[p|p|]]; simpl; lia.
Qed.

Lemma iter_shr_1_nonneg p mrs :
  0 <= shr_m mrs -> 0 <= shr_m (SpecFloat.iter_pos shr_1 p mrs).
Proof.
  revert mrs. induction p as [p IH|p IH|]; intros mrs H; simpl.
  - apply IH, IH, shr_1_nonneg, H.
  - apply IH, IH, H.
  - apply shr_1_nonneg, H.
Qed.

Lemma shr_fexp_nonneg m e l :
  0 <= m -> 0 <= shr_m (fst (shr_fexp prec emax m e l)).
Proof.
  intros Hm. unfold shr_fexp, shr.
  assert (H0 : 0 <= shr_m (shr_record_of_loc m l)) by (by destruct l as [|[]]).
  destruct (fexp prec emax (Zdigits2 m + e) - e); simpl; try done.
  by apply iter_shr_1_nonneg.
Qed.

Lemma binary_round_aux_signed s m e l :
  0 <= m -> signed s (binary_round_aux prec emax s m e l).
Proof.
  intros Hm. unfold binary_round_aux.
  pose proof (shr_fexp_nonneg m e l Hm) as H1.
  destruct (shr_fexp prec emax m e l) as [mrs' e'] eqn:E1. simpl in H1.
  set (m1 := round_nearest_even (shr_m mrs') (loc_of_shr_record mrs')).
  assert (Hm1 : 0 <= m1).
  { unfold m1, round_nearest_even. destruct (loc_of_shr_record mrs') as [|[]]; try lia.
    destruct (Z.even (shr_m mrs')); lia. }
  pose proof (shr_fexp_nonneg m1 e' loc_Exact Hm1) as H2.
  destruct (shr_fexp prec emax m1 e' loc_Exact) as [mrs'' e''] eqn:E2. simpl in H2.
  destruct (shr_m mrs'') as [|p|p]; simpl; [done| |lia].
  by destruct (e'' <=? emax - prec).
Qed.

Lemma binary_round_signed s m e : signed s (binary_round prec emax s m e).
Proof.
  unfold binary_round. destruct (shl_align m e _) as [mz ez].
  by apply binary_round_aux_signed.
Qed.

Lemma signed_not_nan s x : signed s x -> is_nan x = false.
Proof. by destruct x. Qed.

Lemma not_nan_signed x : is_nan x = false -> exists s, signed s x.
Proof. destruct x; simpl; try done; eauto. Qed.

Lemma binary_normalize_not_nan m e : is_nan (binary_normalize prec emax m e false) = false.
Proof.
  destruct m; simpl; [done|..]; eapply signed_not_nan, binary_round_signed.
Qed.

(** The square of a number is a number, and not negative. *)
Lemma mul_self_signed x : is_nan x = false -> signed false (mul x x).
Proof.
  destruct x as [s|s| |s m e]; simpl; try done; intros _.
  - by destruct s.
  - by destruct s.
  - replace (xorb s s) with false by (by destruct s).
    by apply binary_round_aux_signed.
Qed.

Lemma add_signed x y : signed false x -> signed false y -> signed false (add x y).
Proof.
  destruct x as [s|s| |s m e], y as [s'|s'| |s' m' e']; simpl; try done;
    intros -> ->; simpl; try done.
  unfold binary_normalize.
  destruct (shl_align m e (Z.min e e')) as [ma ea].
  destruct (shl_align m' e' (Z.min e e')) as [mb eb]. simpl.
  apply binary_round_signed.
Qed.

Lemma sqrt_signed x : signed false x -> signed false (sqrt x).
Proof.
  destruct x as [s|s| |s m e]; simpl; try done; intros ->; simpl; try done.
  unfold SFsqrt_core_binary.
  set (e' := Z.min _ _). set (m' := match e - 2 * e' with Z0 => _ | Zpos _ => _ | Zneg _ => _ end).
  pose proof (Z.sqrtrem_spec m') as Hs.
  destruct (Z.sqrtrem m') as [q r].
  apply binary_round_aux_signed.
  destruct (Z_le_gt_dec 0 m') as [Hm|Hm].
  - specialize (Hs Hm). simpl in Hs. lia.
  - unfold m' in Hm. destruct (e - 2 * e'); try lia.
    pose proof (Z.shiftl_nonneg (Z.pos m) (Z.pos p)). lia.
Qed.

Lemma of_int_not_nan n : is_nan (of_int n) = false.
Proof. apply binary_normalize_not_nan. Qed.

(** A finite number minus a number is a number. *)
Lemma sub_finite_not_nan x y :
  is_finite x = true -> is_nan y = false -> is_nan (sub x y) = false.
Proof.
  destruct x as [s|s| |s m e], y as [s'|s'| |s' m' e']; simpl; try done; intros _ _.
  - by destruct s, s'.
  - apply binary_normalize_not_nan.
Qed.

Lemma np_fsum_signed x :
  Forall (signed false) x -> signed false (np_fsum x).
Proof.
  unfold np_fsum. assert (H0 : signed false Float64.zero) by done.
  revert H0. generalize Float64.zero as acc.
  induction x as [|v x IH]; intros acc Hacc Hx; simpl; [done|].
  apply Forall_cons in Hx as [Hv Hx]. apply IH; [|done]. by apply add_signed.
Qed.
End RoundingFacts.

(** ** Arrays *)
Section ArrayFacts.

Lemma has_shape_spec {A} h w (a : list (list A)) :
  has_shape h w a = true <-> length a = h /\ Forall (fun row => length row = w) a.
Proof.
  unfold has_shape. rewrite andb_true_iff, Nat.eqb_eq, forallb_forall, Forall_forall.
  split; intros [H1 H2]; (split; [done|]); intros row Hrow.
  - apply Nat.eqb_eq, H2. by apply list_elem_of_In.
  - apply Nat.eqb_eq, H2. by apply list_elem_of_In.
Qed.

Lemma length_chunks {A} r c (l : list A) : length (chunks r c l) = r.
Proof. revert l. induction r as [|r IH]; intros l; simpl; [done|]. by rewrite IH. Qed.

Lemma chunks_rows {A} r c (l : list A) :
  length l = (r * c)%nat -> Forall (fun row => length row = c) (chunks r c l).
Proof.
  revert l. induction r as [|r IH]; intros l Hl; simpl; constructor.
  - rewrite length_take. lia.
  - apply IH. rewrite length_drop. lia.
Qed.

Lemma concat_chunks {A} r c (l : list A) :
  length l = (r * c)%nat -> concat (chunks r c l) = l.
Proof.
  revert l. induction r as [|r IH]; intros l Hl; simpl.
  - destruct l; [done|]. simpl in Hl. lia.
  - rewrite IH; [apply take_drop|]. rewrite length_drop. lia.
Qed.

Lemma reshape_inr {A} r c (l : list A) g :
  reshape r c l = inr g ->
  length l = (r * c)%nat /\ has_shape r c g = true /\ concat g = l.
Proof.
  unfold reshape. destruct (length l =? r * c)%nat eqn:Hl; [|done].
  apply Nat.eqb_eq in Hl. intros [= <-]. split; [done|]. split.
  - apply has_shape_spec. split; [apply length_chunks|by apply chunks_rows].
  - by apply concat_chunks.
Qed.

Lemma reshape_defined {A} r c (l : list A) :
  length l = (r * c)%nat -> reshape r c l = inr (chunks r c l).
Proof. intros Hl. unfold reshape. by rewrite (proj2 (Nat.eqb_eq _ _) Hl). Qed.

Lemma np_sum_app a b : np_sum (a ++ b) = np_sum a + np_sum b.
Proof. induction a as [|x a IH]; simpl; [done|]. rewrite IH. lia. Qed.

Lemma np_sum_b2z_bounds (row : list bool) :
  0 <= np_sum (map Z.b2z row) <= Z.of_nat (length row).
Proof. induction row as [|[] row IH]; simpl; lia. Qed.

Lemma np_sum_sum_axis1 mask :
  np_sum (sum_axis1 mask) = np_sum (map Z.b2z (concat mask)).
Proof.
  induction mask as [|row mask IH]; simpl; [done|].
  rewrite map_app, np_sum_app, <- IH. done.
Qed.

Lemma length_sum_axis1 mask : length (sum_axis1 mask) = length mask.
Proof. apply length_map. Qed.

Lemma np_sum_zip_with_add a b :
  length a = length b -> np_sum (zip_with Z.add a b) = np_sum a + np_sum b.
Proof.
  revert b. induction a as [|x a IH]; intros [|y b] Hl; simpl in *; try done.
  rewrite IH; lia.
Qed.

Lemma np_sum_replicate_0 n : np_sum (replicate n 0) = 0.
Proof. induction n; simpl; lia. Qed.

(** The column counts of rows that all have [w] entries. *)
Lemma column_sums w (rows : list (list bool)) :
  Forall (fun row => length row = w) rows ->
  let sums := foldr (fun row acc => zip_with Z.add (map Z.b2z row) acc) (replicate w 0) rows in
  length sums = w /\ np_sum sums = np_sum (sum_axis1 rows).
Proof.
  induction 1 as [|row rows Hrow Hrows IH]; simpl.
  - by rewrite length_replicate, np_sum_replicate_0.
  - destruct IH as [IH1 IH2]. split.
    + rewrite length_zip_with, length_map, IH1. lia.
    + rewrite np_sum_zip_with_add by (rewrite length_map; lia). by rewrite IH2.
Qed.

Lemma sum_axis0_shape h w mask :
  (0 < h)%nat -> has_shape h w mask = true ->
  length (sum_axis0 mask) = w /\ np_sum (sum_axis0 mask) = np_sum (sum_axis1 mask).
Proof.
  intros Hh [Hlen Hrows]%has_shape_spec. unfold sum_axis0.
  destruct mask as [|row mask]; [simpl in Hlen; lia|].
  pose proof (Forall_inv Hrows) as Hrow. simpl in Hrow. rewrite Hrow.
  by apply column_sums.
Qed.

(** *** [np.nonzero], [np.min], [np.max] *)
Lemma elem_of_nonzero_from i x k :
  k ∈ nonzero_from i x <->
  i <= k /\ exists v, x !! Z.to_nat (k - i) = Some v /\ v <> 0.
Proof.
  revert i. induction x as [|v x IH]; intros i; simpl.
  - split; [by intros ?%elem_of_nil|]. by intros (_ & ? & ? & _).
  - assert (Hstep : k ∈ nonzero_from (i + 1) x <->
                    i + 1 <= k /\ exists v', (v :: x) !! Z.to_nat (k - i) = Some v' /\ v' <> 0).
    { rewrite IH. split; intros (Hk & v' & Hv & Hne); (split; [lia|]); exists v'; split; try done.
      - replace (Z.to_nat (k - i)) with (S (Z.to_nat (k - (i + 1)))) by lia. done.
      - replace (Z.to_nat (k - i)) with (S (Z.to_nat (k - (i + 1)))) in Hv by lia. done. }
    destruct (Z.eqb_spec v 0) as [->|Hv].
    + rewrite Hstep. split.
      * intros (Hk & Hex). split; [lia|done].
      * intros (Hk & v' & Hl & Hne). split; [|eauto].
        destruct (decide (k = i)) as [->|]; [|lia].
        rewrite Z.sub_diag in Hl. simpl in Hl. congruence.
    + rewrite elem_of_cons, Hstep. split.
      * intros [->|(Hk & Hex)].
        -- split; [lia|]. exists v. rewrite Z.sub_diag. done.
        -- split; [lia|done].
      * intros (Hk & Hex). destruct (decide (k = i)) as [->|]; [by left|].
        right. split; [lia|done].
Qed.

Lemma elem_of_nonzero x k :
  k ∈ nonzero x <-> 0 <= k /\ exists v, x !! Z.to_nat k = Some v /\ v <> 0.
Proof. unfold nonzero. rewrite elem_of_nonzero_from. by replace (k - 0) with k by lia. Qed.

Lemma nonzero_from_nonempty i x : np_sum x <> 0 -> nonzero_from i x <> [].
Proof.
  revert i. induction x as [|v x IH]; intros i; simpl; [done|].
  destruct (Z.eqb_spec v 0) as [->|]; [|done]. intros H. apply IH. lia.
Qed.

Lemma nonzero_nonempty x : np_sum x <> 0 -> nonzero x <> [].
Proof. apply nonzero_from_nonempty. Qed.

Lemma foldr_min_spec v rest :
  let m := foldr Z.min v rest in
  m ∈ v :: rest /\ forall k, k ∈ v :: rest -> m <= k.
Proof.
  induction rest as [|y rest IH]; simpl.
  - split; [by left|]. intros k ->%list_elem_of_singleton. lia.
  - destruct IH as [IH1 IH2]. split.
    + destruct (Z.min_spec y (foldr Z.min v rest)) as [[_ ->]|[_ ->]].
      * right. by left.
      * apply elem_of_cons in IH1 as [->|?]; [by left|]. right. by right.
    + intros k Hk. assert (Hk' : k = y \/ k ∈ v :: rest).
      { apply elem_of_cons in Hk as [->|Hk]; [right; by left|].
        apply elem_of_cons in Hk as [->|Hk]; [by left|]. right. by right. }
      destruct Hk' as [->|Hk']; [lia|]. specialize (IH2 k Hk'). lia.
Qed.

Lemma foldr_max_spec v rest :
  let m := foldr Z.max v rest in
  m ∈ v :: rest /\ forall k, k ∈ v :: rest -> k <= m.
Proof.
  induction rest as [|y rest IH]; simpl.
  - split; [by left|]. intros k ->%list_elem_of_singleton. lia.
  - destruct IH as [IH1 IH2]. split.
    + destruct (Z.max_spec y (foldr Z.max v rest)) as [[_ ->]|[_ ->]].
      * apply elem_of_cons in IH1 as [->|?]; [by left|]. right. by right.
      * right. by left.
    + intros k Hk. assert (Hk' : k = y \/ k ∈ v :: rest).
      { apply elem_of_cons in Hk as [->|Hk]; [right; by left|].
        apply elem_of_cons in Hk as [->|Hk]; [by left|]. right. by right. }
      destruct Hk' as [->|Hk']; [lia|]. specialize (IH2 k Hk'). lia.
Qed.

Lemma np_min_spec x :
  x <> [] -> exists m, np_min x = inr m /\ m ∈ x /\ forall k, k ∈ x -> m <= k.
Proof.
  destruct x as [|v rest]; [done|]. intros _. eexists. split; [reflexivity|].
  apply foldr_min_spec.
Qed.

Lemma np_max_spec x :
  x <> [] -> exists m, np_max x = inr m /\ m ∈ x /\ forall k, k ∈ x -> k <= m.
Proof.
  destruct x as [|v rest]; [done|]. intros _. eexists. split; [reflexivity|].
  apply foldr_max_spec.
Qed.

(** The least and the greatest nonzero index are the first and the last. *)
Lemma nonzero_first_last x :
  np_sum x <> 0 ->
  exists lo hi,
    np_min (nonzero x) = inr lo /\ np_max (nonzero x) = inr hi /\
    first_nonzero x lo /\ last_nonzero x hi /\
    0 <= lo <= hi /\ hi < Z.of_nat (length x).
Proof.
  intros Hsum. pose proof (nonzero_nonempty x Hsum) as Hne.
  destruct (np_min_spec _ Hne) as (lo & Hlo & Hlo_in & Hlo_min).
  destruct (np_max_spec _ Hne) as (hi & Hhi & Hhi_in & Hhi_max).
  exists lo, hi. split; [done|]. split; [done|].
  pose proof (proj1 (elem_of_nonzero x lo) Hlo_in) as (Hlo0 & vlo & Hvlo & Hvlo0).
  pose proof (proj1 (elem_of_nonzero x hi) Hhi_in) as (Hhi0 & vhi & Hvhi & Hvhi0).
  assert (lo <= hi) by (by apply Hlo_min).
  assert (hi < Z.of_nat (length x)) by (apply lookup_lt_Some in Hvhi; lia).
  unfold first_nonzero, last_nonzero. split_and!; try done; eauto.
  - intros j v Hj Hv. destruct (decide (v = 0)) as [|Hv0]; [done|].
    assert (Hin : Z.of_nat j ∈ nonzero x).
    { apply elem_of_nonzero. split; [lia|]. exists v. by rewrite Nat2Z.id. }
    apply Hlo_min in Hin. lia.
  - intros j v Hj Hv. destruct (decide (v = 0)) as [|Hv0]; [done|].
    assert (Hin : Z.of_nat j ∈ nonzero x).
    { apply elem_of_nonzero. split; [lia|]. exists v. by rewrite Nat2Z.id. }
    apply Hhi_max in Hin. lia.
Qed.
End ArrayFacts.

(** ** Drawing *)
Section DrawingFacts.
Implicit Types (a : frame) (v : pixel).

Lemma setitem_column_lookup r0 r1 c v a a' :
  setitem_column r0 r1 c v a = inr a' ->
  forall r col,
    pixel_at a' r col
      = if (r0 <=? r)%nat && (r <? r1)%nat && (col =? c)%nat
        then (fun _ => cast_uint8 v) <$> pixel_at a r col
        else pixel_at a r col.
Proof.
  unfold setitem_column. destruct (c <? width a)%nat; [|done]. intros [= <-] r col.
  unfold pixel_at. rewrite list_lookup_imap.
  destruct (a !! r) as [row|]; simpl; [|by repeat case_match].
  destruct ((r0 <=? r)%nat && (r <? r1)%nat); simpl; [|done].
  destruct (Nat.eqb_spec col c) as [->|Hne].
  - destruct (row !! c) eqn:Hc; simpl.
    + apply list_lookup_insert_eq. by eapply lookup_lt_Some.
    + rewrite list_insert_ge; [done|]. by apply lookup_ge_None.
  - by rewrite list_lookup_insert_ne.
Qed.

Lemma setitem_row_lookup r0 c0 c1 v a a' :
  setitem_row r0 c0 c1 v a = inr a' ->
  forall r col,
    pixel_at a' r col
      = if (r =? r0)%nat && (c0 <=? col)%nat && (col <? c1)%nat
        then (fun _ => cast_uint8 v) <$> pixel_at a r col
        else pixel_at a r col.
Proof.
  unfold setitem_row. destruct (r0 <? height a)%nat; [|done]. intros [= <-] r col.
  unfold pixel_at. rewrite list_lookup_imap.
  destruct (a !! r) as [row|]; simpl; [|by repeat case_match].
  destruct (r =? r0)%nat; simpl; [|done].
  rewrite list_lookup_imap. destruct (row !! col); simpl; by repeat case_match.
Qed.

Lemma setitem_column_shape r0 r1 c v a a' h w :
  setitem_column r0 r1 c v a = inr a' -> has_shape h w a = true -> has_shape h w a' = true.
Proof.
  unfold setitem_column. destruct (c <? width a)%nat; [|done]. intros [= <-].
  unfold has_shape. rewrite !andb_true_iff, length_imap. intros [Hl Hrows]. split; [done|].
  rewrite forallb_forall in *. intros row [i Hi]%list_elem_of_In%list_elem_of_lookup.
  rewrite list_lookup_imap in Hi. destruct (a !! i) as [row0|] eqn:Hrow0; [|done].
  simpl in Hi. injection Hi as <-.
  assert (Hw : (length row0 =? w)%nat = true).
  { apply Hrows, list_elem_of_In, list_elem_of_lookup. eauto. }
  case_match; [by rewrite length_insert|done].
Qed.

Lemma setitem_row_shape r0 c0 c1 v a a' h w :
  setitem_row r0 c0 c1 v a = inr a' -> has_shape h w a = true -> has_shape h w a' = true.
Proof.
  unfold setitem_row. destruct (r0 <? height a)%nat; [|done]. intros [= <-].
  unfold has_shape. rewrite !andb_true_iff, length_imap. intros [Hl Hrows]. split; [done|].
  rewrite forallb_forall in *. intros row [i Hi]%list_elem_of_In%list_elem_of_lookup.
  rewrite list_lookup_imap in Hi. destruct (a !! i) as [row0|] eqn:Hrow0; [|done].
  simpl in Hi. injection Hi as <-.
  assert (Hw : (length row0 =? w)%nat = true).
  { apply Hrows, list_elem_of_In, list_elem_of_lookup. eauto. }
  case_match; [by rewrite length_imap|done].
Qed.

Lemma width_has_shape {A} h w (a : list (list A)) :
  (0 < h)%nat -> has_shape h w a = true ->
  match a with [] => O | row :: _ => length row end = w.
Proof.
  unfold has_shape. rewrite andb_true_iff. intros Hh [Hl%Nat.eqb_eq Hrows].
  destruct a as [|row a]; [simpl in Hl; lia|]. simpl in Hrows.
  apply andb_true_iff in Hrows as [Hrow%Nat.eqb_eq _]. done.
Qed.

Lemma on_contour_cases c r col :
  on_contour c r col =
    let top := Z.to_nat (min_vertical c) in
    let bottom := Z.to_nat (max_vertical c) in
    let left := Z.to_nat (min_horizontal c) in
    let right := Z.to_nat (max_horizontal c) in
    ((top <=? r)%nat && (r <? bottom + 1)%nat && (col =? left)%nat)
    || ((top <=? r)%nat && (r <? bottom + 1)%nat && (col =? right)%nat)
    || ((r =? top)%nat && (left <=? col)%nat && (col <? right + 1)%nat)
    || ((r =? bottom)%nat && (left <=? col)%nat && (col <? right + 1)%nat).
Proof.
  unfold on_contour. cbv zeta.
  repeat match goal with
  | |- context [(?x <=? ?y)%nat] => destruct (Nat.leb_spec x y)
  | |- context [(?x <? ?y)%nat] => destruct (Nat.ltb_spec x y)
  | |- context [(?x =? ?y)%nat] => destruct (Nat.eqb_spec x y)
  end; simpl; try reflexivity; lia.
Qed.

(** The rectangle: the box edges take the border colour, every other
    pixel is as before. *)
Lemma rectangle_spec c border a :
  has_shape 240 320 a = true ->
  0 <= min_vertical c -> 0 <= max_vertical c < 240 ->
  0 <= min_horizontal c -> 0 <= max_horizontal c < 320 ->
  min_vertical c <= max_vertical c -> min_horizontal c <= max_horizontal c ->
  exists a',
    rectangle c border a = inr a' /\
    has_shape 240 320 a' = true /\
    forall r col,
      pixel_at a' r col
        = if on_contour c r col then (fun _ => cast_uint8 border) <$> pixel_at a r col
          else pixel_at a r col.
Proof.
  intros Hshape Ht Hb Hl Hr Htb Hlr. unfold rectangle.
  set (top := Z.to_nat (min_vertical c)). set (bottom := Z.to_nat (max_vertical c)).
  set (left := Z.to_nat (min_horizontal c)). set (right := Z.to_nat (max_horizontal c)).
  assert (Hcol : forall b r0 r1 k, has_shape 240 320 b = true -> (k < 320)%nat ->
            exists b', setitem_column r0 r1 k border b = inr b').
  { intros b r0 r1 k Hs Hk. unfold setitem_column, width.
    rewrite (width_has_shape 240 320 b) by (lia || done).
    destruct (Nat.ltb_spec k 320); [eauto|lia]. }
  assert (Hrow : forall b r0 c0 c1, has_shape 240 320 b = true -> (r0 < 240)%nat ->
            exists b', setitem_row r0 c0 c1 border b = inr b').
  { intros b r0 c0 c1 Hs Hk. unfold setitem_row, height.
    apply andb_true_iff in Hs as [->%Nat.eqb_eq _].
    destruct (Nat.ltb_spec r0 240); [eauto|lia]. }
  destruct (Hcol a top (bottom + 1)%nat left Hshape ltac:(lia)) as [a1 H1].
  pose proof (setitem_column_shape _ _ _ _ _ _ _ _ H1 Hshape) as Hs1.
  destruct (Hcol a1 top (bottom + 1)%nat right Hs1 ltac:(lia)) as [a2 H2].
  pose proof (setitem_column_shape _ _ _ _ _ _ _ _ H2 Hs1) as Hs2.
  destruct (Hrow a2 top left (right + 1)%nat Hs2 ltac:(lia)) as [a3 H3].
  pose proof (setitem_row_shape _ _ _ _ _ _ _ _ H3 Hs2) as Hs3.
  destruct (Hrow a3 bottom left (right + 1)%nat Hs3 ltac:(lia)) as [a4 H4].
  pose proof (setitem_row_shape _ _ _ _ _ _ _ _ H4 Hs3) as Hs4.
  exists a4. rewrite H1; simpl. rewrite H2; simpl. rewrite H3; simpl.
  split; [done|]. split; [done|]. intros r col.
  rewrite (setitem_row_lookup _ _ _ _ _ _ H4), (setitem_row_lookup _ _ _ _ _ _ H3),
          (setitem_column_lookup _ _ _ _ _ _ H2), (setitem_column_lookup _ _ _ _ _ _ H1).
  rewrite on_contour_cases. cbv zeta. fold top bottom left right.
  destruct (pixel_at a r col); simpl; by repeat case_match.
Qed.
End DrawingFacts.

(** ** The nearest cluster *)
Section ArgminFacts.
Import Float64.

Lemma argmin_from_spec l : forall pre mp idx,
  Forall (fun v => is_nan v = false) l ->
  0 <= idx -> pre !! Z.to_nat idx = Some mp ->
  (forall j x, pre !! j = Some x -> leb mp x = true) ->
  (forall j x, (j < Z.to_nat idx)%nat -> pre !! j = Some x -> ltb mp x = true) ->
  let k := argmin_from mp idx (Z.of_nat (length pre)) l in
  0 <= k /\
  exists m, (pre ++ l) !! Z.to_nat k = Some m /\
    (forall j x, (pre ++ l) !! j = Some x -> leb m x = true) /\
    (forall j x, (j < Z.to_nat k)%nat -> (pre ++ l) !! j = Some x -> ltb m x = true).
Proof.
  induction l as [|v l IH]; intros pre mp idx Hnan Hidx Hmp Hle Hlt; simpl.
  - rewrite app_nil_r. eauto.
  - apply Forall_cons in Hnan as [Hv Hnan].
    replace (pre ++ v :: l) with ((pre ++ [v]) ++ l) by (by rewrite <- app_assoc).
    replace (Z.of_nat (length pre) + 1) with (Z.of_nat (length (pre ++ [v])))
      by (rewrite length_app; simpl; lia).
    pose proof (lookup_lt_Some _ _ _ Hmp) as Hidx_lt.
    destruct (leb mp v) eqn:Hcmp.
    + apply IH; try done.
      * by rewrite lookup_app_l.
      * intros j x Hj. apply lookup_app_Some in Hj as [Hj|[_ Hj]]; [eauto|].
        apply list_lookup_singleton_Some in Hj as [_ <-]. done.
      * intros j x Hj Hx. rewrite lookup_app_l in Hx by lia. eauto.
    + rewrite Hv.
      assert (Hmp_nan : is_nan mp = false).
      { by apply (leb_not_nan mp mp), (Hle _ _ Hmp). }
      pose proof (not_leb_ltb mp v Hmp_nan Hv Hcmp) as Hvlt.
      assert (Hpre : forall j x, pre !! j = Some x -> ltb v x = true).
      { intros j x Hx. eapply ltb_leb_trans; eauto. }
      apply IH; try done.
      * lia.
      * rewrite Nat2Z.id, lookup_app_r by lia. by rewrite Nat.sub_diag.
      * intros j x Hj. apply lookup_app_Some in Hj as [Hj|[_ Hj]].
        -- apply ltb_leb. eauto.
        -- apply list_lookup_singleton_Some in Hj as [_ <-]. by apply leb_refl.
      * intros j x Hj Hx. rewrite Nat2Z.id in Hj. rewrite lookup_app_l in Hx by lia. eauto.
Qed.

(** [argmin] returns the first index of a least entry. *)
Lemma argmin_spec x :
  x <> [] -> Forall (fun v => is_nan v = false) x ->
  exists k m,
    argmin x = inr k /\ 0 <= k /\ x !! Z.to_nat k = Some m /\
    (forall j v, x !! j = Some v -> leb m v = true) /\
    (forall j v, (j < Z.to_nat k)%nat -> x !! j = Some v -> ltb m v = true).
Proof.
  destruct x as [|v rest]; [done|]. intros _ [Hv Hrest]%Forall_cons.
  unfold argmin. rewrite Hv.
  destruct (argmin_from_spec rest [v] v 0 Hrest) as (Hk & m & Hm & Hle & Hlt); try done.
  - intros j x Hj. apply list_lookup_singleton_Some in Hj as [_ <-]. by apply leb_refl.
  - intros j x Hj. simpl in Hj. lia.
  - simpl in *. eauto 10.
Qed.

Lemma argmin_defined x : x <> [] -> exists k, argmin x = inr k.
Proof. destruct x; [done|]. intros _. simpl. eauto. Qed.
End ArgminFacts.

Section ClosestFacts.
Import Float64.
Implicit Types (kmeans : KMeans) (target_color : pixel).

Lemma closest_inr kmeans target_color dists :
  closest kmeans target_color = inr dists ->
  dists = map (row_distance target_color) (rgb_centers kmeans).
Proof.
  unfold closest, diff.
  destruct (forallb _ (rgb_centers kmeans)); [|done]. intros [= <-].
  by rewrite map_map.
Qed.

Lemma closest_defined kmeans target_color :
  Forall (fun row => (3 <= length row)%nat) (cluster_centers_ kmeans) ->
  closest kmeans target_color
    = inr (map (row_distance target_color) (rgb_centers kmeans)).
Proof.
  intros Hrows. unfold closest, diff.
  assert (H3 : forallb (fun row => (length row =? 3)%nat) (rgb_centers kmeans) = true).
  { apply forallb_forall. intros row [c [<- Hc]]%in_map_iff.
    apply list_elem_of_In in Hc. rewrite Forall_forall in Hrows.
    specialize (Hrows c Hc). apply Nat.eqb_eq. rewrite length_take. lia. }
  rewrite H3. by rewrite map_map.
Qed.

Lemma closest_lookup kmeans target_color dists j r g b rest :
  closest kmeans target_color = inr dists ->
  cluster_centers_ kmeans !! j = Some (r :: g :: b :: rest) ->
  dists !! j = Some (color_distance r g b target_color).
Proof.
  intros ->%closest_inr Hj. unfold rgb_centers.
  rewrite !list_lookup_fmap, Hj. simpl.
  by destruct target_color as [[tr tg] tb].
Qed.

Lemma row_distance_not_nan target_color row :
  Forall (fun v => is_finite v = true) row ->
  is_nan (row_distance target_color row) = false.
Proof.
  intros Hrow. unfold row_distance.
  apply (signed_not_nan false), sqrt_signed, np_fsum_signed.
  generalize (channels target_color) as ts.
  induction Hrow as [|v row Hv Hrow IH]; intros [|t ts]; simpl; try done.
  constructor; [|apply IH].
  apply mul_self_signed, sub_finite_not_nan; [done|apply of_int_not_nan].
Qed.

Lemma closest_not_nan kmeans target_color dists :
  closest kmeans target_color = inr dists ->
  Forall (Forall (fun v => is_finite v = true)) (cluster_centers_ kmeans) ->
  Forall (fun d => is_nan d = false) dists.
Proof.
  intros ->%closest_inr Hfin. unfold rgb_centers.
  rewrite Forall_fmap, Forall_fmap. eapply Forall_impl; [exact Hfin|].
  intros row Hrow. simpl. by apply row_distance_not_nan, Forall_take.
Qed.

(** C4 *)
Lemma finite_centers_spec kmeans :
  finite_centers kmeans = true ->
  Forall (Forall (fun v => is_finite v = true)) (cluster_centers_ kmeans).
Proof.
  unfold finite_centers. rewrite forallb_forall, Forall_forall.
  intros H row Hrow%list_elem_of_In. specialize (H row Hrow).
  rewrite forallb_forall in H. apply Forall_forall.
  intros v Hv%list_elem_of_In. by apply H.
Qed.

(** C4.  For centres that are finite numbers, [closest] holds for every
    cluster the binary64 Euclidean distance from the first three
    coordinates of its centre to the target colour, whatever the other
    coordinates are; [closest_label] is the index of a least entry, and
    every entry before it is strictly greater: the first of several
    equally near clusters is selected. *)
Theorem C4_closest_label_is_first_nearest kmeans target_color label :
  finite_centers kmeans = true ->
  closest_label kmeans target_color = inr label ->
  exists dists d,
    closest kmeans target_color = inr dists /\
    (forall j r g b rest,
       cluster_centers_ kmeans !! j = Some (r :: g :: b :: rest) ->
       dists !! j = Some (color_distance r g b target_color)) /\
    0 <= label /\ dists !! Z.to_nat label = Some d /\
    (forall j x, dists !! j = Some x -> leb d x = true) /\
    (forall j x, (j < Z.to_nat label)%nat -> dists !! j = Some x -> ltb d x = true).
Proof.
  intros Hfin%finite_centers_spec Hlabel. unfold closest_label in Hlabel.
  destruct (closest kmeans target_color) as [e|dists] eqn:Hc; [done|].
  pose proof (closest_not_nan _ _ _ Hc Hfin) as Hnan.
  assert (Hne : dists <> []) by (by destruct dists).
  destruct (argmin_spec dists Hne Hnan) as (k & m & Hk & Hk0 & Hm & Hle & Hlt).
  assert (k = label) as -> by congruence.
  exists dists, m. split; [done|]. split.
  - intros j r g b rest Hj. by eapply closest_lookup.
  - done.
Qed.

Lemma closest_label_defined kmeans target_color :
  well_formed_fit kmeans = true ->
  exists label, closest_label kmeans target_color = inr label.
Proof.
  unfold well_formed_fit. rewrite !andb_true_iff.
  intros [[[Hn%Nat.eqb_eq Hrows] _] _]. unfold closest_label.
  rewrite closest_defined.
  - apply argmin_defined. unfold rgb_centers.
    destruct (cluster_centers_ kmeans); [done|]. done.
  - rewrite forallb_forall in Hrows. apply Forall_forall. intros row Hrow.
    apply list_elem_of_In, Hrows, Nat.eqb_eq in Hrow. lia.
Qed.
End ClosestFacts.

(** ** [dowork] *)
Section DoworkFacts.
Variable Image_resize : frame -> nat -> nat -> frame.
Variable KMeans_fit : list (list Z) -> KMeans.
Implicit Types (kmeans : KMeans) (h : gmap nat frame) (img : frame).

Lemma labels_inr kmeans label mask :
  labels kmeans label = inr mask ->
  length (labels_ kmeans) = 4800%nat /\
  has_shape 60 80 mask = true /\
  np_sum (sum_axis1 mask) = count_label kmeans label.
Proof.
  unfold labels. destruct (reshape 60 80 (labels_ kmeans)) as [e|grid] eqn:Hg; [done|].
  intros [= <-]. apply reshape_inr in Hg as (Hlen & Hshape & Hcat).
  split; [done|]. split.
  - apply has_shape_spec in Hshape as [Hl Hrows]. apply has_shape_spec.
    rewrite length_map. split; [done|]. rewrite Forall_fmap.
    eapply Forall_impl; [exact Hrows|]. intros row Hrow. simpl. by rewrite length_map.
  - rewrite np_sum_sum_axis1. unfold count_label. rewrite <- Hcat.
    f_equal. clear. induction grid as [|row grid IH]; simpl; [done|].
    rewrite !map_app, IH. f_equal. by rewrite map_map.
Qed.

Lemma labels_defined kmeans label :
  length (labels_ kmeans) = 4800%nat -> exists mask, labels kmeans label = inr mask.
Proof.
  intros Hl. unfold labels. rewrite reshape_defined by done. eauto.
Qed.

Lemma count_label_bounds kmeans label :
  0 <= count_label kmeans label <= Z.of_nat (length (labels_ kmeans)).
Proof.
  unfold count_label. induction (labels_ kmeans) as [|l ls IH]; simpl; [lia|].
  destruct (l =? label); simpl; lia.
Qed.

(** The test of line 220 compares the count with 336. *)
Lemma below_threshold_336 kmeans label mask :
  labels kmeans label = inr mask ->
  below_threshold (sum_axis1 mask) = (count_label kmeans label <=? 336).
Proof.
  intros (Hlen & _ & Hsum)%labels_inr. unfold below_threshold. rewrite Hsum.
  pose proof (count_label_bounds kmeans label) as Hb. rewrite Hlen in Hb.
  rewrite threshold_336 by lia.
  destruct (Z.ltb_spec 336 (count_label kmeans label)), (Z.leb_spec (count_label kmeans label) 336);
    simpl; (done || lia).
Qed.

(** Past the threshold both index sets are inhabited and the contour is
    found. *)
Lemma find_contour_spec sv sh :
  np_sum sv <> 0 -> np_sum sh <> 0 ->
  exists top bottom left right,
    find_contour sv sh = inr (mk_contour (top * 4) (bottom * 4) (left * 4) (right * 4)) /\
    first_nonzero sv top /\ last_nonzero sv bottom /\
    first_nonzero sh left /\ last_nonzero sh right /\
    0 <= top <= bottom /\ bottom < Z.of_nat (length sv) /\
    0 <= left <= right /\ right < Z.of_nat (length sh).
Proof.
  intros Hv Hh.
  destruct (nonzero_first_last sv Hv) as (top & bottom & Hmin & Hmax & Hf & Hl & Hb1 & Hb2).
  destruct (nonzero_first_last sh Hh) as (left & right & Hmin' & Hmax' & Hf' & Hl' & Hb1' & Hb2').
  exists top, bottom, left, right. unfold find_contour.
  rewrite Hmin, Hmax, Hmin', Hmax'. done.
Qed.

Lemma draw_rectangle_run output c border h :
  draw_rectangle output c border h
    = match rectangle c border (h !!! output) with
      | inl e => inl e
      | inr v => inr (tt, <[output := v]> h)
      end.
Proof.
  unfold draw_rectangle, rectangle, mbind, heap_exn_bind, assign, and_then.
  destruct (setitem_column _ _ _ border (h !!! output)) as [e|v1]; [done|].
  rewrite lookup_total_insert_eq.
  destruct (setitem_column _ _ _ border v1) as [e|v2]; [done|].
  rewrite lookup_total_insert_eq, insert_insert_eq.
  destruct (setitem_row _ _ _ border v2) as [e|v3]; [done|].
  rewrite lookup_total_insert_eq, insert_insert_eq.
  destruct (setitem_row _ _ _ border v3) as [e|v4]; [done|].
  by rewrite insert_insert_eq.
Qed.

(** [dowork], statement by statement. *)
Lemma dowork_run h array img kmeans label mask target border :
  h !! array = Some img ->
  fit_of Image_resize KMeans_fit img = inr kmeans ->
  closest_label kmeans target = inr label ->
  labels kmeans label = inr mask ->
  let output := fresh (dom h) in
  dowork Image_resize KMeans_fit target border array h
    = if below_threshold (sum_axis1 mask) then inr ((None, output), <[output := img]> h)
      else match find_contour (sum_axis1 mask) (sum_axis0 mask) with
           | inl e => inl e
           | inr c =>
               match rectangle c border img with
               | inl e => inl e
               | inr drawn =>
                   inr ((Some (center_position c), output), <[output := drawn]> h)
               end
           end.
Proof.
  intros Harr Hfit Hlabel Hmask output.
  assert (Hfresh : h !! output = None) by apply not_elem_of_dom, is_fresh.
  assert (Hne : output <> array) by congruence.
  unfold dowork, fit_of in *.
  unfold mbind, heap_exn_bind, mret, heap_exn_ret, np_copy, resizeNPArray, deref, lift.
  fold output. simpl.
  rewrite (lookup_total_correct _ _ _ Harr).
  rewrite lookup_total_insert_ne by done. rewrite (lookup_total_correct _ _ _ Harr).
  destruct (reshaped (Image_resize img 80 60)) as [e|samples]; [done|].
  injection Hfit as ->. rewrite Hlabel, Hmask.
  destruct (below_threshold (sum_axis1 mask)); [done|].
  destruct (find_contour _ _) as [e|c]; [done|].
  rewrite draw_rectangle_run, lookup_total_insert_eq.
  destruct (rectangle c border img) as [e|drawn]; [done|].
  by rewrite insert_insert_eq.
Qed.
End DoworkFacts.

Section DoworkTheorems.
Variable Image_resize : frame -> nat -> nat -> frame.
Variable KMeans_fit : list (list Z) -> KMeans.
Implicit Types (kmeans : KMeans) (h : gmap nat frame) (img : frame).

Local Abbreviation dowork := (dowork Image_resize KMeans_fit).
Local Abbreviation fit_of := (fit_of Image_resize KMeans_fit).

Lemma well_formed_fit_length kmeans :
  well_formed_fit kmeans = true -> length (labels_ kmeans) = 4800%nat.
Proof.
  unfold well_formed_fit. rewrite !andb_true_iff. by intros [[_ ?%Nat.eqb_eq] _].
Qed.

(** Past the threshold the contour exists and lies inside the grid. *)
Lemma contour_found kmeans label mask :
  labels kmeans label = inr mask ->
  336 < count_label kmeans label ->
  exists top bottom left right,
    find_contour (sum_axis1 mask) (sum_axis0 mask)
      = inr (mk_contour (top * 4) (bottom * 4) (left * 4) (right * 4)) /\
    first_nonzero (sum_axis1 mask) top /\ last_nonzero (sum_axis1 mask) bottom /\
    first_nonzero (sum_axis0 mask) left /\ last_nonzero (sum_axis0 mask) right /\
    0 <= top <= bottom /\ bottom < 60 /\ 0 <= left <= right /\ right < 80.
Proof.
  intros Hmask Hcount. pose proof (labels_inr _ _ _ Hmask) as (_ & Hshape & Hsum).
  destruct (sum_axis0_shape 60 80 mask ltac:(lia) Hshape) as [Hlen0 Hsum0].
  assert (Hlen1 : length (sum_axis1 mask) = 60%nat).
  { rewrite length_sum_axis1. by apply has_shape_spec in Hshape as [? _]. }
  destruct (find_contour_spec (sum_axis1 mask) (sum_axis0 mask))
    as (top & bottom & left & right & Hc & H1 & H2 & H3 & H4 & H5 & H6 & H7 & H8);
    [lia..|].
  exists top, bottom, left, right. rewrite Hlen1 in H6. rewrite Hlen0 in H8.
  split_and!; (done || lia).
Qed.

(** What [dowork] returns, in the two cases of the threshold test. *)
Lemma dowork_outcome h array img kmeans target border :
  h !! array = Some img ->
  has_shape 240 320 img = true ->
  fit_of img = inr kmeans ->
  well_formed_fit kmeans = true ->
  exists label,
    closest_label kmeans target = inr label /\
    ((count_label kmeans label <= 336 /\
      dowork target border array h
        = inr ((None, fresh (dom h)), <[fresh (dom h) := img]> h))
     \/
     (336 < count_label kmeans label /\
      exists top bottom left right drawn,
        let c := mk_contour (top * 4) (bottom * 4) (left * 4) (right * 4) in
        find_contour (row_counts kmeans label) (column_counts kmeans label) = inr c /\
        first_nonzero (row_counts kmeans label) top /\
        last_nonzero (row_counts kmeans label) bottom /\
        first_nonzero (column_counts kmeans label) left /\
        last_nonzero (column_counts kmeans label) right /\
        (0 <= top <= bottom /\ bottom < 60) /\ (0 <= left <= right /\ right < 80) /\
        rectangle c border img = inr drawn /\
        has_shape 240 320 drawn = true /\
        (forall r col,
           pixel_at drawn r col
             = if on_contour c r col
               then (fun _ => cast_uint8 border) <$> pixel_at img r col
               else pixel_at img r col) /\
        dowork target border array h
          = inr ((Some (center_position c), fresh (dom h)),
                 <[fresh (dom h) := drawn]> h))).
Proof.
  intros Harr Hshape Hfit Hwf.
  destruct (closest_label_defined kmeans target Hwf) as [label Hlabel].
  destruct (labels_defined kmeans label (well_formed_fit_length _ Hwf)) as [mask Hmask].
  exists label. split; [done|].
  rewrite (dowork_run _ _ h array img kmeans label mask target border) by done.
  rewrite (below_threshold_336 _ _ _ Hmask).
  unfold row_counts, column_counts. rewrite Hmask.
  destruct (Z.leb_spec (count_label kmeans label) 336) as [Hle|Hgt]; [by left|].
  right. split; [done|].
  destruct (contour_found _ _ _ Hmask Hgt)
    as (top & bottom & left & right & Hc & H1 & H2 & H3 & H4 & Hv & Hv' & Hh & Hh').
  destruct (rectangle_spec (mk_contour (top * 4) (bottom * 4) (left * 4) (right * 4))
              border img Hshape) as (drawn & Hdrawn & Hshape' & Hpix); simpl; try lia.
  exists top, bottom, left, right, drawn. cbv zeta.
  rewrite Hc, Hdrawn. split_and!; (done || lia).
Qed.

(** C2.  On a 240 x 320 frame and a well-formed fit, [dowork] returns
    without raising, and its first component is [None] exactly when the
    number of samples with the selected label is at most 336.  With no
    such sample at all it is [None] as well, and the output is the copy of
    the input. *)
Theorem C2_no_detection_iff_count_at_most_336 h array img kmeans target border :
  h !! array = Some img ->
  has_shape 240 320 img = true ->
  fit_of img = inr kmeans ->
  well_formed_fit kmeans = true ->
  exists label pos output h',
    closest_label kmeans target = inr label /\
    dowork target border array h = inr ((pos, output), h') /\
    (pos = None <-> count_label kmeans label <= 336) /\
    (count_label kmeans label = 0 -> pos = None /\ h' !! output = Some img).
Proof.
  intros Harr Hshape Hfit Hwf.
  destruct (dowork_outcome h array img kmeans target border Harr Hshape Hfit Hwf)
    as (label & Hlabel & [[Hle Hrun]|[Hgt (top & bottom & left & right & drawn & Hrun)]]).
  - exists label, None, (fresh (dom h)), (<[fresh (dom h) := img]> h).
    split_and!; try done. intros _. split; [done|]. apply lookup_insert_eq.
  - cbv zeta in Hrun. destruct Hrun as (_ & _ & _ & _ & _ & _ & _ & _ & _ & _ & Hrun).
    eexists label, _, (fresh (dom h)), (<[fresh (dom h) := drawn]> h).
    split_and!; [done|exact Hrun|..].
    + split; [done|lia].
    + lia.
Qed.

(** C10.  When the test of the threshold lets the mask pass, the rows and
    the columns with a nonzero count are not empty, and the four calls of
    [np.min] and [np.max] return. *)
Theorem C10_nonzero_index_sets_inhabited kmeans label mask :
  labels kmeans label = inr mask ->
  below_threshold (sum_axis1 mask) = false ->
  nonzero (sum_axis1 mask) <> [] /\ nonzero (sum_axis0 mask) <> [] /\
  exists lo_v hi_v lo_h hi_h,
    np_min (nonzero (sum_axis1 mask)) = inr lo_v /\
    np_max (nonzero (sum_axis1 mask)) = inr hi_v /\
    np_min (nonzero (sum_axis0 mask)) = inr lo_h /\
    np_max (nonzero (sum_axis0 mask)) = inr hi_h.
Proof.
  intros Hmask Hthr. rewrite (below_threshold_336 _ _ _ Hmask) in Hthr.
  apply Z.leb_gt in Hthr.
  pose proof (labels_inr _ _ _ Hmask) as (_ & Hshape & Hsum).
  destruct (sum_axis0_shape 60 80 mask ltac:(lia) Hshape) as [_ Hsum0].
  assert (Hv : np_sum (sum_axis1 mask) <> 0) by lia.
  assert (Hh : np_sum (sum_axis0 mask) <> 0) by lia.
  split; [by apply nonzero_nonempty|]. split; [by apply nonzero_nonempty|].
  destruct (nonzero_first_last _ Hv) as (lo_v & hi_v & ? & ? & _).
  destruct (nonzero_first_last _ Hh) as (lo_h & hi_h & ? & ? & _).
  by exists lo_v, hi_v, lo_h, hi_h.
Qed.

(** C3.  When [dowork] reports a centre, the contour it found is made of
    the first and the last row index and the first and the last column
    index with a nonzero count, each multiplied by 4; the centre is the
    float of (top + bottom) / 2, a division that is exact; and
    0 <= top <= bottom < 240, 0 <= left <= right < 320. *)
Theorem C3_box_from_first_and_last_nonzero
    h array img kmeans target border center output h' :
  h !! array = Some img ->
  has_shape 240 320 img = true ->
  fit_of img = inr kmeans ->
  well_formed_fit kmeans = true ->
  dowork target border array h = inr ((Some center, output), h') ->
  exists label top bottom left right,
    closest_label kmeans target = inr label /\
    first_nonzero (row_counts kmeans label) top /\
    last_nonzero (row_counts kmeans label) bottom /\
    first_nonzero (column_counts kmeans label) left /\
    last_nonzero (column_counts kmeans label) right /\
    find_contour (row_counts kmeans label) (column_counts kmeans label)
      = inr (mk_contour (top * 4) (bottom * 4) (left * 4) (right * 4)) /\
    center = Float64.of_int ((top * 4 + bottom * 4) / 2) /\
    2 * ((top * 4 + bottom * 4) / 2) = top * 4 + bottom * 4 /\
    0 <= top * 4 <= bottom * 4 /\ bottom * 4 < 240 /\
    0 <= left * 4 <= right * 4 /\ right * 4 < 320.
Proof.
  intros Harr Hshape Hfit Hwf Hrun.
  destruct (dowork_outcome h array img kmeans target border Harr Hshape Hfit Hwf)
    as (label & Hlabel & [[_ Hrun']|[_ (top & bottom & left & right & drawn & Hout)]]);
    [congruence|].
  cbv zeta in Hout.
  destruct Hout as (Hc & H1 & H2 & H3 & H4 & [Hv Hv'] & [Hh Hh'] & _ & _ & _ & Hrun').
  rewrite Hrun in Hrun'. injection Hrun' as -> _ _.
  exists label, top, bottom, left, right. split_and!; try done; try lia.
  - unfold center_position. simpl.
    replace (top * 4 + bottom * 4) with (2 * (2 * (top + bottom))) by lia.
    rewrite div_2_exact by lia. f_equal.
    rewrite (Z.mul_comm 2 (2 * (top + bottom))), Z.div_mul; lia.
  - replace (top * 4 + bottom * 4) with ((2 * (top + bottom)) * 2) by lia.
    rewrite Z.div_mul; lia.
Qed.

(** C8.  [dowork] leaves the array it is given, and every other array of
    the heap, as it was; the output is a new array.  Without a detection
    the output equals the input.  With one, the output has the shape of
    the input, a pixel on the four edges of the box has the border colour
    and every other pixel is the pixel of the input. *)
Theorem C8_input_untouched_output_differs_on_edges
    h array img kmeans target border :
  h !! array = Some img ->
  has_shape 240 320 img = true ->
  fit_of img = inr kmeans ->
  well_formed_fit kmeans = true ->
  exists pos output h',
    dowork target border array h = inr ((pos, output), h') /\
    h' !! array = Some img /\
    h !! output = None /\
    (forall l, l <> output -> h' !! l = h !! l) /\
    match pos with
    | None => h' !! output = Some img
    | Some _ =>
        exists label c drawn,
          closest_label kmeans target = inr label /\
          find_contour (row_counts kmeans label) (column_counts kmeans label) = inr c /\
          h' !! output = Some drawn /\
          has_shape 240 320 drawn = true /\
          forall r col p,
            pixel_at img r col = Some p ->
            pixel_at drawn r col
              = Some (if on_contour c r col then cast_uint8 border else p)
    end.
Proof.
  intros Harr Hshape Hfit Hwf.
  assert (Hfresh : h !! fresh (dom h) = None) by apply not_elem_of_dom, is_fresh.
  assert (Hne : fresh (dom h) <> array) by congruence.
  destruct (dowork_outcome h array img kmeans target border Harr Hshape Hfit Hwf)
    as (label & Hlabel & [[_ Hrun]|[_ (top & bottom & left & right & drawn & Hout)]]).
  - eexists None, _, _. split; [exact Hrun|].
    split_and!; try done.
    + by rewrite lookup_insert_ne.
    + intros l Hl. by rewrite lookup_insert_ne.
    + apply lookup_insert_eq.
  - cbv zeta in Hout.
    destruct Hout as (Hc & _ & _ & _ & _ & _ & _ & _ & Hshape' & Hpix & Hrun).
    eexists (Some _), _, _. split; [exact Hrun|].
    split_and!; try done.
    + by rewrite lookup_insert_ne.
    + intros l Hl. by rewrite lookup_insert_ne.
    + eexists label, _, drawn. split_and!; try done.
      * apply lookup_insert_eq.
      * intros r col p Hp. rewrite Hpix, Hp. by destruct (on_contour _ r col).
Qed.
End DoworkTheorems.

Section UniformFrame.
Import Float64.
Variable Image_resize : frame -> nat -> nat -> frame.
Variable KMeans_fit : list (list Z) -> KMeans.
Implicit Types (kmeans : KMeans) (h : gmap nat frame) (c : pixel).

Local Abbreviation dowork := (dowork Image_resize KMeans_fit).
Local Abbreviation fit_of := (fit_of Image_resize KMeans_fit).

(** A [uint8] minus itself is +0.0: all 256 cases, evaluated. *)
Lemma sub_self_table :
  forallb (fun n => same_float (sub (of_int n) (of_int n)) zero) (arange 0 256) = true.
Proof. vm_compute. reflexivity. Qed.

Lemma sub_self n : 0 <= n < 256 -> sub (of_int n) (of_int n) = zero.
Proof.
  intros Hn. apply same_float_eq. apply (forallb_arange _ 0 256 sub_self_table n Hn).
Qed.

Lemma is_uint8_spec c :
  is_uint8 c = true ->
  let '(r, g, b) := c in 0 <= r < 256 /\ 0 <= g < 256 /\ 0 <= b < 256.
Proof.
  destruct c as [[r g] b]. unfold is_uint8. rewrite !andb_true_iff.
  rewrite !Z.leb_le, !Z.ltb_lt. tauto.
Qed.

(** *** The colour of the centres of a uniform frame *)

Lemma digits2_pos_size m : digits2_pos m = Pos.size m.
Proof. induction m as [m IH|m IH|]; simpl; by rewrite ?IH. Qed.

(** The one binary64 number with the value [v], for [v] in 1 .. 255 and
    each exponent the format allows for such a value. *)
Lemma of_int_table :
  forallb (fun p =>
    forallb (fun v =>
      if (2 ^ (52 - p) <=? v) && (v <? 2 ^ (53 - p))
      then same_float (of_int v) (S754_finite false (Z.to_pos (v * 2 ^ p)) (- p))
      else true) (arange 1 256)) (arange 45 53) = true.
Proof. vm_compute. reflexivity. Qed.

Lemma uniform_samples cr cg cb :
  samples_of (replicate 60 (replicate 80 (cr, cg, cb)))
  = map (fun i => [cr; cg; cb; i / 80; i mod 80]) (arange 0 4800).
Proof. vm_compute. reflexivity. Qed.

Lemma size_bounds m :
  Z.pos m < 2 ^ Z.pos (Pos.size m) /\ 2 ^ Z.pos (Pos.size m) <= 2 * Z.pos m.
Proof.
  pose proof (Pos.size_gt m) as Hgt. pose proof (Pos.size_le m) as Hle.
  rewrite <- (Pos2Z.inj_pow 2). split.
  - by apply Pos2Z.pos_lt_pos.
  - change (2 * Z.pos m) with (Z.pos m~0). by apply Pos2Z.pos_le_pos.
Qed.

(** A finite binary64 number whose value is the integer [v], 0 < v < 256,
    is [float(v)]. *)
Lemma exact_int_canonical x v :
  is_finite x = true -> valid_binary prec emax x = true ->
  (exact x == inject_Z v)%Q -> 0 < v < 256 -> x = of_int v.
Proof.
  destruct x as [s|s| |s m e]; try discriminate.
  { intros _ _ Hex Hv. simpl in Hex. apply (proj1 (inject_Z_injective 0 v)) in Hex. lia. }
  intros _ Hvalid Hex Hv.
  unfold valid_binary, bounded, canonical_mantissa, fexp, SpecFloat.emin, prec, emax in Hvalid.
  rewrite digits2_pos_size in Hvalid.
  apply andb_true_iff in Hvalid as [Hcanon%Z.eqb_eq _].
  destruct (size_bounds m) as [Hlt Hle].
  generalize dependent (Z.pos (Pos.size m)). intros d Hcanon Hlt Hle.
  assert (Hsmall : Z.pos m < 256 -> d <> 53).
  { intros Hm ->. change (2 ^ 53) with 9007199254740992 in Hle. clear -Hle Hm. lia. }
  destruct e as [|p|p]; simpl in Hex.
  - apply (proj1 (inject_Z_injective _ _)) in Hex. destruct s; [lia|].
    exfalso. apply Hsmall; lia.
  - apply (proj1 (inject_Z_injective _ _)) in Hex.
    assert (0 < 2 ^ Z.pos p) by (apply Z.pow_pos_nonneg; lia).
    destruct s; [nia|]. exfalso. apply Hsmall; nia.
  - rewrite Qred_correct in Hex. unfold Qeq in Hex. simpl in Hex.
    rewrite Z.mul_1_r, Pos2Z.inj_pow in Hex.
    assert (Hpow : 0 < 2 ^ Z.pos p) by (apply Z.pow_pos_nonneg; lia).
    destruct s; [nia|].
    destruct (Z.max_spec (d + Z.neg p - 53) (3 - 1024 - 53)) as [[_ Hmax]|[Hge Hmax]];
      rewrite Hmax in Hcanon.
    + (* the least exponent: the value is below 1 *)
      exfalso. assert (p = 1074%positive) as -> by lia.
      assert (d <= 53) by lia.
      assert (2 ^ d <= 2 ^ 53) by (apply Z.pow_le_mono_r; lia).
      assert (2 ^ 53 < 2 ^ 1074) by (apply Z.pow_lt_mono_r; lia).
      nia.
    + assert (Hd : d = 53) by lia. rewrite Hd in Hlt, Hle.
      change (2 ^ 53) with 9007199254740992 in Hlt, Hle.
      assert (Hp : 45 <= Z.pos p < 53).
      { split.
        - destruct (Z.le_gt_cases 45 (Z.pos p)) as [|Hp]; [done|]. exfalso.
          assert (2 ^ Z.pos p <= 2 ^ 44) by (apply Z.pow_le_mono_r; lia).
          change (2 ^ 44) with 17592186044416 in *. nia.
        - destruct (Z.lt_ge_cases (Z.pos p) 53) as [|Hp]; [done|]. exfalso.
          assert (2 ^ 53 <= 2 ^ Z.pos p) by (apply Z.pow_le_mono_r; lia).
          change (2 ^ 53) with 9007199254740992 in *. nia. }
      pose proof (forallb_arange _ 45 53 of_int_table (Z.pos p) Hp) as Hrow.
      cbv beta in Hrow.
      pose proof (forallb_arange _ 1 256 Hrow v ltac:(lia)) as Hcell.
      cbv beta in Hcell.
      assert (Hin : (2 ^ (52 - Z.pos p) <=? v) && (v <? 2 ^ (53 - Z.pos p)) = true).
      { assert (H53 : 2 ^ (53 - Z.pos p) * 2 ^ Z.pos p = 9007199254740992).
        { rewrite <- Z.pow_add_r by lia. by replace (53 - Z.pos p + Z.pos p) with 53 by lia. }
        assert (H52 : 2 ^ (52 - Z.pos p) * 2 ^ Z.pos p = 4503599627370496).
        { rewrite <- Z.pow_add_r by lia. by replace (52 - Z.pos p + Z.pos p) with 52 by lia. }
        apply andb_true_iff. split; [apply Z.leb_le|apply Z.ltb_lt]; nia. }
      rewrite Hin in Hcell. apply same_float_eq in Hcell. rewrite Hcell.
      rewrite <- Hex. reflexivity.
Qed.

Lemma exact_zero_is_zero x :
  is_finite x = true -> (exact x == 0)%Q -> exists s, x = S754_zero s.
Proof.
  destruct x as [s|s| |s m e]; try discriminate; [eauto|].
  intros _ Hex. exfalso. simpl in Hex.
  assert (Hn : (if s then Z.neg m else Z.pos m) <> 0) by (by destruct s).
  destruct e as [|p|p].
  - apply (proj1 (inject_Z_injective _ 0)) in Hex. done.
  - apply (proj1 (inject_Z_injective _ 0)) in Hex.
    assert (0 < Z.pos (2 ^ p)) by lia. nia.
  - rewrite Qred_correct in Hex. unfold Qeq in Hex. simpl in Hex. lia.
Qed.

Lemma eqb_self_table :
  forallb (fun n => eqb (of_int n) (of_int n)) (arange 0 256) = true.
Proof. vm_compute. reflexivity. Qed.

(** A finite binary64 number whose value is the [uint8] [v] equals
    [float(v)], and its squared difference to [float(v)] is +0.0. *)
Lemma carries_color x v :
  is_finite x = true -> valid_binary prec emax x = true ->
  (exact x == inject_Z v)%Q -> 0 <= v < 256 ->
  eqb x (of_int v) = true /\
  mul (sub x (of_int v)) (sub x (of_int v)) = zero.
Proof.
  intros Hfin Hvalid Hex Hv. destruct (decide (v = 0)) as [->|Hne].
  - destruct (exact_zero_is_zero x Hfin Hex) as [s ->]. by destruct s.
  - rewrite (exact_int_canonical x v Hfin Hvalid Hex) by lia. split.
    + apply (forallb_arange _ 0 256 eqb_self_table v Hv).
    + by rewrite sub_self.
Qed.

(** The samples of a downsized image of one colour. *)
Lemma uniform_samples_color c :
  Forall (fun x => take 3 x = channels c)
         (samples_of (replicate 60 (replicate 80 c))).
Proof.
  destruct c as [[cr cg] cb]. rewrite uniform_samples. rewrite Forall_fmap.
  apply Forall_forall. done.
Qed.

Lemma np_sum_const (members : list (list Z)) d v :
  Forall (fun x => nth d x 0 = v) members ->
  np_sum (map (fun x => nth d x 0) members) = Z.of_nat (length members) * v.
Proof.
  induction 1 as [|x members Hx _ IH]; [done|].
  rewrite length_cons, Nat2Z.inj_succ. simpl. rewrite IH, Hx. lia.
Qed.

Lemma mean_of_const (q : Q) n v :
  (0 < n)%nat ->
  Qeq_bool (q * inject_Z (Z.of_nat n)) (inject_Z (Z.of_nat n * v)) = true ->
  (q == inject_Z v)%Q.
Proof.
  intros Hn Heq%Qeq_bool_iff. rewrite Z.mul_comm, inject_Z_mult in Heq.
  apply Qmult_inj_r in Heq; [done|].
  intros H0. apply (proj1 (inject_Z_injective _ 0)) in H0. lia.
Qed.

(** On samples of one colour, a centre whose colour part is the mean of
    the colours of its cluster has that colour. *)
Lemma color_means_rows c samples kmeans :
  Forall (fun x => take 3 x = channels c) samples ->
  centers_are_color_means samples kmeans = true ->
  forall x0 x1 x2 rest, x0 :: x1 :: x2 :: rest ∈ cluster_centers_ kmeans ->
    let '(cr, cg, cb) := c in
    (exact x0 == inject_Z cr)%Q /\ (exact x1 == inject_Z cg)%Q /\
    (exact x2 == inject_Z cb)%Q.
Proof.
  intros Hsamples Hmeans x0 x1 x2 rest Hrow.
  apply list_elem_of_lookup in Hrow as [k Hk].
  unfold centers_are_color_means in Hmeans. rewrite forallb_forall in Hmeans.
  specialize (Hmeans (k, x0 :: x1 :: x2 :: rest)).
  cbv beta iota zeta in Hmeans.
  set (members := map fst (filter (fun '(x, l) => l = Z.of_nat k)
                                  (zip samples (labels_ kmeans)))) in *.
  assert (Hmem : Forall (fun x => take 3 x = channels c) members).
  { apply Forall_forall. intros x Hx. unfold members in Hx.
    apply list_elem_of_fmap in Hx as ([x' l] & -> & Hin).
    apply list_elem_of_filter in Hin as [_ Hin]. apply elem_of_zip_l in Hin.
    rewrite Forall_forall in Hsamples. by apply Hsamples. }
  assert (Hin : In (k, x0 :: x1 :: x2 :: rest)
                   (imap (fun k row => (k, row)) (cluster_centers_ kmeans))).
  { apply list_elem_of_In, elem_of_lookup_imap. eauto. }
  apply Hmeans in Hin. apply andb_true_iff in Hin as [Hn Hd]. clear Hmeans.
  assert (Hpos : (0 < length members)%nat).
  { destruct (length members); [done|lia]. }
  destruct c as [[cr cg] cb]. simpl in Hd.
  assert (Hcol : forall d v, nth d [cr; cg; cb] 0 = v -> (d < 3)%nat ->
            Forall (fun x => nth d x 0 = v) members).
  { intros d v Hv Hlt. eapply Forall_impl; [exact Hmem|]. intros x Hx. simpl in Hx.
    rewrite <- Hv, <- Hx. destruct x as [|a [|b [|e xs]]]; simpl;
      destruct d as [|[|[|d]]]; simpl; try done; lia. }
  rewrite !andb_true_iff in Hd. destruct Hd as (H0 & H1 & H2 & _).
  rewrite (np_sum_const members 0 cr) in H0 by (apply Hcol; [done|lia]).
  rewrite (np_sum_const members 1 cg) in H1 by (apply Hcol; [done|lia]).
  rewrite (np_sum_const members 2 cb) in H2 by (apply Hcol; [done|lia]).
  split_and!; by eapply mean_of_const.
Qed.

Lemma centers_of_uniform_frame kmeans c :
  well_formed_fit kmeans = true -> is_uint8 c = true ->
  finite_centers kmeans = true -> valid_centers kmeans = true ->
  centers_are_color_means (samples_of (replicate 60 (replicate 80 c))) kmeans = true ->
  centers_have_color kmeans c = true /\
  forall row, row ∈ cluster_centers_ kmeans -> row_distance c (take 3 row) = zero.
Proof.
  intros Hwf Hc Hfin Hvalid Hmeans.
  pose proof (color_means_rows c _ kmeans (uniform_samples_color c) Hmeans) as Hrows.
  apply is_uint8_spec in Hc.
  unfold well_formed_fit in Hwf. rewrite !andb_true_iff in Hwf.
  destruct Hwf as [[[_ Hlen] _] _]. rewrite forallb_forall in Hlen.
  unfold finite_centers in Hfin. rewrite forallb_forall in Hfin.
  unfold valid_centers in Hvalid. rewrite forallb_forall in Hvalid.
  assert (Hrow : forall row, row ∈ cluster_centers_ kmeans ->
            exists x0 x1 x2 rest, row = x0 :: x1 :: x2 :: rest /\
              let '(cr, cg, cb) := c in
              (eqb x0 (of_int cr) = true /\ eqb x1 (of_int cg) = true /\
               eqb x2 (of_int cb) = true) /\
              row_distance c [x0; x1; x2] = zero).
  { intros row Hin. pose proof (Hlen row (proj1 (list_elem_of_In _ _) Hin)) as Hl.
    apply Nat.eqb_eq in Hl.
    destruct row as [|x0 [|x1 [|x2 rest]]]; try (simpl in Hl; lia).
    exists x0, x1, x2, rest. split; [done|].
    specialize (Hrows x0 x1 x2 rest Hin).
    pose proof (Hfin _ (proj1 (list_elem_of_In _ _) Hin)) as Hf.
    pose proof (Hvalid _ (proj1 (list_elem_of_In _ _) Hin)) as Hv.
    simpl in Hf, Hv. rewrite !andb_true_iff in Hf, Hv.
    destruct Hf as (Hf0 & Hf1 & Hf2 & _). destruct Hv as (Hv0 & Hv1 & Hv2 & _).
    destruct c as [[cr cg] cb]. destruct Hc as (Hr & Hg & Hb).
    destruct Hrows as (E0 & E1 & E2).
    destruct (carries_color x0 cr Hf0 Hv0 E0 Hr) as [Q0 S0].
    destruct (carries_color x1 cg Hf1 Hv1 E1 Hg) as [Q1 S1].
    destruct (carries_color x2 cb Hf2 Hv2 E2 Hb) as [Q2 S2].
    split; [done|]. unfold row_distance. simpl. rewrite S0, S1, S2. reflexivity. }
  split.
  - unfold centers_have_color. apply forallb_forall. intros row Hin%list_elem_of_In.
    destruct (Hrow row Hin) as (x0 & x1 & x2 & rest & -> & Hq).
    destruct c as [[cr cg] cb]. destruct Hq as [(-> & -> & ->) _]. done.
  - intros row Hin. destruct (Hrow row Hin) as (x0 & x1 & x2 & rest & -> & Hq).
    destruct c as [[cr cg] cb]. by destruct Hq as [_ Hq].
Qed.

Lemma closest_uniform kmeans c :
  well_formed_fit kmeans = true ->
  (forall row, row ∈ cluster_centers_ kmeans -> row_distance c (take 3 row) = zero) ->
  closest kmeans c = inr (replicate 6 zero) /\ closest_label kmeans c = inr 0.
Proof.
  intros Hwf Hrows.
  assert (Hcl : closest kmeans c = inr (replicate 6 zero)).
  { unfold well_formed_fit in Hwf. rewrite !andb_true_iff in Hwf.
    destruct Hwf as [[[Hn%Nat.eqb_eq Hlen] _] _].
    rewrite closest_defined.
    - f_equal. unfold rgb_centers. rewrite map_map. rewrite <- Hn. clear Hn Hlen.
      induction (cluster_centers_ kmeans) as [|row rows IH]; simpl; [done|].
      rewrite (Hrows row) by (by left).
      f_equal. apply IH. intros row' Hrow'. apply Hrows. by right.
    - rewrite forallb_forall in Hlen. apply Forall_forall. intros row Hrow.
      apply list_elem_of_In, Hlen, Nat.eqb_eq in Hrow. lia. }
  split; [done|]. unfold closest_label. rewrite Hcl. reflexivity.
Qed.

Lemma first_nonzero_0 x k :
  first_nonzero x k -> (k = 0 <-> exists v, x !! 0%nat = Some v /\ v <> 0).
Proof.
  intros (Hk & (v & Hv & Hv0) & Hfirst). split.
  - intros ->. eauto.
  - intros (v0 & Hv0' & Hne). destruct (decide (k = 0)) as [|Hk0]; [done|].
    exfalso. apply Hne, (Hfirst 0%nat); [lia|done].
Qed.

Lemma last_nonzero_last x k n :
  last_nonzero x k -> k < Z.of_nat (S n) ->
  (k = Z.of_nat n <-> exists v, x !! n = Some v /\ v <> 0).
Proof.
  intros (Hk & (v & Hv & Hv0) & Hlast) Hlt. split.
  - intros ->. rewrite Nat2Z.id in Hv. eauto.
  - intros (v0 & Hv0' & Hne). destruct (decide (k = Z.of_nat n)) as [|Hkn]; [done|].
    exfalso. apply Hne, (Hlast n); [lia|done].
Qed.

(** C9, as amended.  On a frame of one colour whose downsized image has
    that one colour too, with that colour as the target, and a fit whose
    centres are finite binary64 numbers and whose colour parts are the
    means of the colours of their clusters, none of them empty: every
    centre carries the colour, every cluster is at distance +0.0 and
    cluster 0 is selected.  A detection is reported exactly when cluster
    0 has more than 336 samples; its box is the box of the pixels of
    cluster 0, inside the frame, and it is the whole frame
    (0, 236, 0, 316), with centre 118.0, exactly when cluster 0 reaches
    the first and last row and the first and last column. *)
Theorem C9_uniform_frame_box_of_first_cluster h array c kmeans border :
  h !! array = Some (solid c) ->
  is_uint8 c = true ->
  Image_resize (solid c) 80%nat 60%nat = replicate 60 (replicate 80 c) ->
  fit_of (solid c) = inr kmeans ->
  well_formed_fit kmeans = true ->
  finite_centers kmeans = true ->
  valid_centers kmeans = true ->
  centers_are_color_means (samples_of (Image_resize (solid c) 80%nat 60%nat)) kmeans = true ->
  centers_have_color kmeans c = true /\
  closest kmeans c = inr (replicate 6 zero) /\
  closest_label kmeans c = inr 0 /\
  exists pos output h',
    dowork c border array h = inr ((pos, output), h') /\
    (pos <> None <-> 336 < count_label kmeans 0) /\
    forall center, pos = Some center ->
      exists box,
        find_contour (row_counts kmeans 0) (column_counts kmeans 0) = inr box /\
        center = center_position box /\
        0 <= min_vertical box <= max_vertical box /\ max_vertical box <= 236 /\
        0 <= min_horizontal box <= max_horizontal box /\ max_horizontal box <= 316 /\
        (box = whole_frame <-> reaches_borders kmeans 0) /\
        (box = whole_frame -> center = of_int 118).
Proof.
  intros Harr Hc Hsmall Hfit Hwf Hfin Hvalid Hmeans. rewrite Hsmall in Hmeans.
  destruct (centers_of_uniform_frame kmeans c Hwf Hc Hfin Hvalid Hmeans) as [Hcol Hrows].
  destruct (closest_uniform kmeans c Hwf Hrows) as [Hcl Hlabel].
  split; [done|]. split; [done|]. split; [done|].
  assert (Hshape : has_shape 240 320 (solid c) = true) by (by destruct c as [[? ?] ?]).
  destruct (dowork_outcome Image_resize KMeans_fit h array (solid c) kmeans c border
              Harr Hshape Hfit Hwf)
    as (label & Hlabel' & Hout).
  assert (label = 0) as -> by congruence.
  destruct Hout as [[Hle Hrun]|[Hgt (top & bottom & left & right & drawn & Hout)]].
  - eexists None, _, _. split; [exact Hrun|]. split; [|done].
    split; [done|lia].
  - cbv zeta in Hout.
    destruct Hout as (Hbox & H1 & H2 & H3 & H4 & [Hv Hv'] & [Hh Hh'] & _ & _ & _ & Hrun).
    eexists (Some _), _, _. split; [exact Hrun|]. split; [done|].
    intros center [= <-].
    exists (mk_contour (top * 4) (bottom * 4) (left * 4) (right * 4)).
    pose proof (first_nonzero_0 _ _ H1) as E1.
    pose proof (last_nonzero_last _ _ 59 H2 ltac:(lia)) as E2.
    pose proof (first_nonzero_0 _ _ H3) as E3.
    pose proof (last_nonzero_last _ _ 79 H4 ltac:(lia)) as E4.
    split; [exact Hbox|]. split; [reflexivity|].
    cbn [min_vertical max_vertical min_horizontal max_horizontal].
    split; [lia|]. split; [lia|]. split; [lia|]. split; [lia|]. split.
    + unfold whole_frame, reaches_borders. rewrite <- E1, <- E2, <- E3, <- E4. split.
      * intros [= ? ? ? ?]. lia.
      * intros (-> & -> & -> & ->). reflexivity.
    + unfold whole_frame. intros [= ? ? ? ?].
      assert (top = 0) as -> by lia. assert (bottom = 59) as -> by lia.
      reflexivity.
Qed.
End UniformFrame.

(** The solid red frame with the six bands: the fit is a fixed point of
    Lloyd's iteration on the samples of the frame, every cluster is at
    distance +0.0, and [dowork] reports the first band. *)
Example solid_red_run :
  demo_heap !! 7%nat = Some (solid red) /\
  fit_of every_nth (fun _ => bands red) (solid red) = inr (bands red) /\
  well_formed_fit (bands red) = true /\
  lloyd_fixed_point (samples_of (every_nth (solid red) 80 60)) (bands red) = true /\
  closest (bands red) red = inr (replicate 6 Float64.zero) /\
  closest_label (bands red) red = inr 0 /\
  find_contour (row_counts (bands red) 0) (column_counts (bands red) 0)
    = inr (mk_contour 0 36 0 316) /\
  exists output h',
    dowork every_nth (fun _ => bands red) red red 7%nat demo_heap
      = inr ((Some (Float64.of_int 18), output), h').
Proof.
  split_and!; try (vm_compute; reflexivity).
  eexists _, _. vm_compute; reflexivity.
Qed.

(** C9 as stated fails: a frame of one colour, analysed with a fit that is
    a fixed point of Lloyd's iteration on its samples, need not give the
    box of the whole frame.  For the solid red frame and the six bands the
    box is the first band, (0, 36, 0, 316). *)
Lemma C9_solid_red_box_is_one_band :
  ~ (forall (Image_resize : frame -> nat -> nat -> frame)
            (KMeans_fit : list (list Z) -> KMeans)
            (h : gmap nat frame) (array : nat) (c border : pixel) (kmeans : KMeans),
       h !! array = Some (solid c) ->
       is_uint8 c = true ->
       fit_of Image_resize KMeans_fit (solid c) = inr kmeans ->
       well_formed_fit kmeans = true ->
       lloyd_fixed_point (samples_of (Image_resize (solid c) 80%nat 60%nat)) kmeans = true ->
       exists label center output h',
         closest_label kmeans c = inr label /\
         dowork Image_resize KMeans_fit c border array h
           = inr ((Some center, output), h') /\
         find_contour (row_counts kmeans label) (column_counts kmeans label)
           = inr whole_frame).
Proof.
  intros H.
  destruct solid_red_run as (Harr & Hfit & Hwf & Hlloyd & _ & Hlabel & Hbox & _).
  assert (Hred : is_uint8 red = true) by reflexivity.
  pose proof (H every_nth (fun _ => bands red) demo_heap 7%nat red red (bands red)
                Harr Hred Hfit Hwf Hlloyd) as Hclaim.
  destruct Hclaim as (label & center & output & h' & Hlabel' & _ & Hbox').
  rewrite Hlabel in Hlabel'. injection Hlabel' as <-.
  rewrite Hbox in Hbox'. injection Hbox' as Hbottom. discriminate Hbottom.
Qed.

(** ** The theorems at a concrete frame *)

(** Exactly 336 pixels in the nearest cluster: nothing is detected and the
    output is the copy of the input; 337 pixels: a detection. *)
Example threshold_boundary :
  count_label (first_pixels 336) 0 = 336 /\
  (exists output h',
     dowork every_nth (fun _ => first_pixels 336) red red 7%nat demo_heap
       = inr ((None, output), h') /\ h' !! output = Some (solid red)) /\
  count_label (first_pixels 337) 0 = 337 /\
  (exists output h',
     dowork every_nth (fun _ => first_pixels 337) red red 7%nat demo_heap
       = inr ((Some (Float64.of_int 8), output), h')) /\
  find_contour (row_counts (first_pixels 337) 0) (column_counts (first_pixels 337) 0)
    = inr (mk_contour 0 16 0 316).
Proof.
  split_and!; try (vm_compute; reflexivity).
  - eexists _, _. split; vm_compute; reflexivity.
  - eexists _, _. vm_compute; reflexivity.
Qed.

Lemma C2_no_detection_iff_count_at_most_336_witness :
  exists label pos output h',
    closest_label (bands red) red = inr label /\
    dowork every_nth (fun _ => bands red) red red 7%nat demo_heap
      = inr ((pos, output), h') /\
    (pos = None <-> count_label (bands red) label <= 336) /\
    (count_label (bands red) label = 0 -> pos = None /\ h' !! output = Some (solid red)).
Proof.
  apply (C2_no_detection_iff_count_at_most_336 every_nth (fun _ => bands red)
           demo_heap 7%nat (solid red) (bands red) red red);
    vm_compute; reflexivity.
Defined.

Lemma C3_box_from_first_and_last_nonzero_witness :
  exists label top bottom left right,
    closest_label (bands red) red = inr label /\
    first_nonzero (row_counts (bands red) label) top /\
    last_nonzero (row_counts (bands red) label) bottom /\
    first_nonzero (column_counts (bands red) label) left /\
    last_nonzero (column_counts (bands red) label) right /\
    find_contour (row_counts (bands red) label) (column_counts (bands red) label)
      = inr (mk_contour (top * 4) (bottom * 4) (left * 4) (right * 4)) /\
    Float64.of_int 18 = Float64.of_int ((top * 4 + bottom * 4) / 2) /\
    2 * ((top * 4 + bottom * 4) / 2) = top * 4 + bottom * 4 /\
    0 <= top * 4 <= bottom * 4 /\ bottom * 4 < 240 /\
    0 <= left * 4 <= right * 4 /\ right * 4 < 320.
Proof.
  eapply (C3_box_from_first_and_last_nonzero every_nth (fun _ => bands red)
            demo_heap 7%nat (solid red) (bands red) red red (Float64.of_int 18));
    vm_compute; reflexivity.
Defined.

Lemma C4_closest_label_is_first_nearest_witness :
  exists dists d,
    closest (bands red) red = inr dists /\
    (forall j r g b rest,
       cluster_centers_ (bands red) !! j = Some (r :: g :: b :: rest) ->
       dists !! j = Some (color_distance r g b red)) /\
    0 <= 0 /\ dists !! Z.to_nat 0 = Some d /\
    (forall j x, dists !! j = Some x -> Float64.leb d x = true) /\
    (forall j x, (j < Z.to_nat 0)%nat -> dists !! j = Some x -> Float64.ltb d x = true).
Proof.
  apply (C4_closest_label_is_first_nearest (bands red) red 0); vm_compute; reflexivity.
Defined.

Lemma C8_input_untouched_output_differs_on_edges_witness :
  exists pos output h',
    dowork every_nth (fun _ => bands red) red (0, 255, 0) 7%nat demo_heap
      = inr ((pos, output), h') /\
    h' !! 7%nat = Some (solid red) /\
    demo_heap !! output = None /\
    (forall l, l <> output -> h' !! l = demo_heap !! l) /\
    match pos with
    | None => h' !! output = Some (solid red)
    | Some _ =>
        exists label c drawn,
          closest_label (bands red) red = inr label /\
          find_contour (row_counts (bands red) label) (column_counts (bands red) label) = inr c /\
          h' !! output = Some drawn /\
          has_shape 240 320 drawn = true /\
          forall r col p,
            pixel_at (solid red) r col = Some p ->
            pixel_at drawn r col
              = Some (if on_contour c r col then cast_uint8 (0, 255, 0) else p)
    end.
Proof.
  apply (C8_input_untouched_output_differs_on_edges every_nth (fun _ => bands red)
           demo_heap 7%nat (solid red) (bands red) red (0, 255, 0));
    vm_compute; reflexivity.
Defined.

Lemma C9_uniform_frame_box_of_first_cluster_witness :
  centers_have_color (bands red) red = true /\
  closest (bands red) red = inr (replicate 6 Float64.zero) /\
  closest_label (bands red) red = inr 0 /\
  exists pos output h',
    dowork every_nth (fun _ => bands red) red red 7%nat demo_heap
      = inr ((pos, output), h') /\
    (pos <> None <-> 336 < count_label (bands red) 0) /\
    forall center, pos = Some center ->
      exists box,
        find_contour (row_counts (bands red) 0) (column_counts (bands red) 0) = inr box /\
        center = center_position box /\
        0 <= min_vertical box <= max_vertical box /\ max_vertical box <= 236 /\
        0 <= min_horizontal box <= max_horizontal box /\ max_horizontal box <= 316 /\
        (box = whole_frame <-> reaches_borders (bands red) 0) /\
        (box = whole_frame -> center = Float64.of_int 118).
Proof.
  apply (C9_uniform_frame_box_of_first_cluster every_nth (fun _ => bands red)
           demo_heap 7%nat red (bands red) red);
    vm_compute; reflexivity.
Defined.

Lemma C10_nonzero_index_sets_inhabited_witness :
  let mask := match labels (bands red) 0 with inr m => m | inl _ => [] end in
  nonzero (sum_axis1 mask) <> [] /\ nonzero (sum_axis0 mask) <> [] /\
  exists lo_v hi_v lo_h hi_h,
    np_min (nonzero (sum_axis1 mask)) = inr lo_v /\
    np_max (nonzero (sum_axis1 mask)) = inr hi_v /\
    np_min (nonzero (sum_axis0 mask)) = inr lo_h /\
    np_max (nonzero (sum_axis0 mask)) = inr hi_h.
Proof.
  apply (C10_nonzero_index_sets_inhabited (bands red) 0); vm_compute; reflexivity.
Defined.

(* ===================================================================== *)
(** * Part III: further properties of the code                            *)
(* ===================================================================== *)


(** ** Sequences of pushes *)
Section PushSequences.
Context {A : Type}.
Implicit Types (q : Queue.t A) (f : A).

(** What the main thread's block keeps true of the queue. *)
Lemma acquisition_push_keeps q f :
  (Queue.qsize q <= Queue.maxsize q)%nat ->
  (Queue.qsize q <= Queue.unfinished_tasks q)%nat ->
  (0 < Queue.maxsize q)%nat ->
  exists q',
    acquisition_push f q = Queue.Done tt q' /\
    Queue.maxsize q' = Queue.maxsize q /\
    (Queue.qsize q' <= Queue.maxsize q')%nat /\
    (Queue.qsize q' <= Queue.unfinished_tasks q')%nat /\
    Queue.queue q' = if Queue.full q then tail (Queue.queue q) else Queue.queue q ++ [f].
Proof.
  intros Hsize Hun Hmax. unfold acquisition_push.
  destruct (Queue.full q) eqn:Hfull.
  - apply full_spec in Hfull as [_ Hle]. unfold Queue.qsize in *.
    unfold Queue.get. destruct (Queue.queue q) as [|x rest] eqn:Hq; [simpl in Hle; lia|].
    unfold Queue.task_done. cbn [Queue.unfinished_tasks].
    destruct (Queue.unfinished_tasks q) as [|u] eqn:Hu; [simpl in Hun; lia|].
    eexists. split; [reflexivity|]. simpl in *. split_and!; (done || lia).
  - assert (Hlt : (Queue.qsize q < Queue.maxsize q)%nat).
    { unfold Queue.full in Hfull. apply andb_false_iff in Hfull as [H|H].
      - apply Nat.ltb_ge in H. lia.
      - apply Nat.leb_gt in H. lia. }
    unfold Queue.put. rewrite Hfull. eexists. split; [reflexivity|].
    unfold Queue.qsize in *. simpl. rewrite length_app. simpl. split_and!; (done || lia).
Qed.

Lemma acquisition_pushes_from q captured :
  (Queue.qsize q <= Queue.maxsize q)%nat ->
  (Queue.qsize q <= Queue.unfinished_tasks q)%nat ->
  (0 < Queue.maxsize q)%nat ->
  exists q',
    acquisition_pushes captured q = Some q' /\
    Queue.maxsize q' = Queue.maxsize q /\
    (Queue.qsize q' <= Queue.maxsize q)%nat /\
    Queue.queue q' `sublist_of` Queue.queue q ++ captured /\
    ((Queue.qsize q + length captured <= Queue.maxsize q)%nat ->
     Queue.queue q' = Queue.queue q ++ captured).
Proof.
  revert q. induction captured as [|f rest IH]; intros q Hsize Hun Hmax.
  - exists q. simpl. rewrite app_nil_r. split_and!; done.
  - destruct (acquisition_push_keeps q f Hsize Hun Hmax)
      as (q1 & Hpush & Hmax1 & Hsize1 & Hun1 & Hq1).
    simpl. rewrite Hpush.
    destruct (IH q1 Hsize1 Hun1 ltac:(lia)) as (q' & Hrun & Hmax' & Hsize' & Hsub & Hexact).
    exists q'. split; [done|]. split; [congruence|]. split; [lia|]. split.
    + rewrite Hq1 in Hsub. destruct (Queue.full q).
      * etrans; [exact Hsub|]. apply sublist_app; [|by apply sublist_cons].
        destruct (Queue.queue q); [done|]. by apply sublist_cons.
      * by rewrite <- app_assoc in Hsub.
    + intros Hroom. simpl in Hroom.
      assert (Hnf : Queue.full q = false).
      { unfold Queue.full. apply andb_false_iff. right. apply Nat.leb_gt. lia. }
      rewrite Hnf in Hq1. rewrite Hexact.
      * rewrite Hq1. by rewrite <- app_assoc.
      * unfold Queue.qsize in *. rewrite Hq1, length_app. simpl. lia.
Qed.

(** X1.  Any number of frames pushed into the empty queue of the notebook: no
    call blocks or raises, the queue never holds more than ten frames,
    what it holds are captured frames in the order of their capture, and
    up to ten captures nothing is lost. *)
Theorem pushes_never_block_and_keep_order (captured : list A) :
  exists q,
    acquisition_pushes captured (Queue.new 10) = Some q /\
    (Queue.qsize q <= 10)%nat /\
    Queue.queue q `sublist_of` captured /\
    ((length captured <= 10)%nat -> Queue.queue q = captured).
Proof.
  destruct (acquisition_pushes_from (Queue.new 10) captured)
    as (q & Hrun & _ & Hsize & Hsub & Hexact);
    [unfold Queue.qsize; simpl; lia..|].
  exists q. split_and!; done.
Qed.

(** X2.  Onto a full queue, two pushes in a row take the oldest entry out, lose
    the first of the two frames and append the second. *)
Theorem two_pushes_on_full_queue q f g :
  Queue.full q = true ->
  (Queue.qsize q <= Queue.maxsize q)%nat ->
  (0 < Queue.unfinished_tasks q)%nat ->
  exists q',
    acquisition_pushes [f; g] q = Some q' /\
    Queue.queue q' = tail (Queue.queue q) ++ [g] /\
    Queue.qsize q' = Queue.qsize q.
Proof.
  intros Hfull Hsize Hun.
  destruct (acquisition_push_full q f Hfull Hun) as (q1 & Hpush & Hq1 & Hmax1).
  pose proof (proj1 (full_spec q) Hfull) as [Hpos Hle].
  assert (Hnf : Queue.full q1 = false).
  { unfold Queue.full, Queue.qsize in *. apply andb_false_iff. right. apply Nat.leb_gt.
    rewrite Hq1, Hmax1. destruct (Queue.queue q); simpl in *; lia. }
  destruct (acquisition_push_not_full q1 g Hnf) as (q2 & Hpush2 & Hq2 & _).
  exists q2. simpl. rewrite Hpush, Hpush2. split; [done|]. split; [by rewrite Hq2, Hq1|].
  unfold Queue.qsize in *. rewrite Hq2, length_app, Hq1.
  destruct (Queue.queue q); simpl in *; lia.
Qed.
End PushSequences.

(** ** Where exceptions come from *)
Section ExceptionFacts.
Context {F P : Type}.
Variable detectFacesAndEyes : F -> F.
Variable dowork : F -> exn + (option P * F).

Local Abbreviation state := (@state F P).
Local Abbreviation step := (step detectFacesAndEyes dowork).
Local Abbreviation exec := (exec detectFacesAndEyes dowork).
Local Abbreviation step_main := (step_main detectFacesAndEyes).
Local Abbreviation step_worker := (step_worker dowork).
Local Abbreviation inv_exn := (inv_exn dowork).

Lemma inv_exn_init (zeros : F) n : inv_exn (init zeros n : state).
Proof.
  split; simpl; try done.
  intros i w e Hw. apply lookup_replicate in Hw as [-> _]. simpl. by intros [|].
Qed.

Lemma get_never_raises (q : Queue.t F) e : Queue.get q <> Queue.Raises e.
Proof. unfold Queue.get. by destruct (Queue.queue q). Qed.

Lemma put_never_raises (q : Queue.t F) f e : Queue.put f q <> Queue.Raises e.
Proof. unfold Queue.put. by destruct (Queue.full q). Qed.

Lemma get_nowait_raises (q : Queue.t F) e : Queue.get_nowait q = Queue.Raises e -> e = Empty.
Proof. unfold Queue.get_nowait. destruct (Queue.queue q); [|done]. by intros [= <-]. Qed.

Lemma task_done_raises (q : Queue.t F) e :
  Queue.task_done q = Queue.Raises e -> Queue.unfinished_tasks q = O.
Proof. unfold Queue.task_done. by destruct (Queue.unfinished_tasks q). Qed.

Lemma get_Done_tasks (q q' : Queue.t F) x :
  Queue.get q = Queue.Done x q' ->
  Queue.qsize q = S (Queue.qsize q') /\ Queue.unfinished_tasks q' = Queue.unfinished_tasks q.
Proof.
  unfold Queue.get, Queue.qsize. destruct (Queue.queue q) eqn:Hq; [done|].
  intros H; inversion H; subst; simpl. done.
Qed.

Lemma get_nowait_Done_tasks (q q' : Queue.t F) x :
  Queue.get_nowait q = Queue.Done x q' ->
  Queue.qsize q = S (Queue.qsize q') /\ Queue.unfinished_tasks q' = Queue.unfinished_tasks q.
Proof.
  unfold Queue.get_nowait, Queue.qsize. destruct (Queue.queue q) eqn:Hq; [done|].
  intros H; inversion H; subst; simpl. done.
Qed.

Lemma task_done_Done_tasks (q q' : Queue.t F) u :
  Queue.task_done q = Queue.Done u q' ->
  Queue.qsize q' = Queue.qsize q /\ Queue.unfinished_tasks q = S (Queue.unfinished_tasks q').
Proof.
  unfold Queue.task_done, Queue.qsize. destruct (Queue.unfinished_tasks q) eqn:Hq; [done|].
  intros H; inversion H; subst; simpl. done.
Qed.

Lemma put_Done_tasks (q q' : Queue.t F) f u :
  Queue.put f q = Queue.Done u q' ->
  Queue.qsize q' = S (Queue.qsize q) /\ Queue.unfinished_tasks q' = S (Queue.unfinished_tasks q).
Proof.
  unfold Queue.put, Queue.qsize. destruct (Queue.full q); [done|].
  intros H; inversion H; subst; simpl. rewrite length_app. simpl. lia.
Qed.

(** While the main thread is inside its block it is the holder. *)
Lemma main_holds (s : state) :
  inv s -> main_locked (main s) = true -> lock s = Some Main.
Proof. intros Hinv Hm. by apply (inv_lock _ Hinv Main). Qed.

Lemma main_outside (s : state) :
  inv s -> main_locked (main s) = false -> lock s <> Some Main.
Proof.
  intros Hinv Hm Hl. apply (inv_lock _ Hinv Main) in Hl. simpl in Hl. congruence.
Qed.

Lemma inv_exn_step_main ev (s : state) :
  inv s -> inv_exn s -> inv_exn (step_main ev s).
Proof.
  intros Hinv Hexn. pose proof Hexn as [Hun Hworker Hmain].
  pose proof (main_holds s Hinv) as Hholds. pose proof (main_outside s Hinv) as Hout.
  unfold step_main.
  destruct (main s) eqn:Hm; destruct ev as [[|]|[e0|f0]|[|i0]]; try exact Hexn.
  all: repeat case_match; try exact Hexn.
  all: try (exfalso; by eapply get_never_raises).
  all: try (exfalso; by eapply put_never_raises).
  all: simpl in Hholds, Hout.
  all: split; [|exact Hworker|]; cbn [main set_main set_lock set_frames frames lock workers];
       try (intros ? ? [= ? ?]; subst; try done).
  all: unfold pending in *; cbn [main set_main set_lock set_frames frames lock workers] in *;
       rewrite ?Hm in *.
  all: try exact Hun.
  all: try (specialize (Hholds eq_refl); rewrite Hholds in * ).
  all: repeat match goal with
       | H : Queue.get _ = Queue.Done _ _ |- _ => apply get_Done_tasks in H as [? ?]
       | H : Queue.task_done _ = Queue.Done _ _ |- _ => apply task_done_Done_tasks in H as [? ?]
       | H : Queue.put _ _ = Queue.Done _ _ |- _ => apply put_Done_tasks in H as [? ?]
       | H : Queue.task_done _ = Queue.Raises _ |- _ => apply task_done_raises in H
       end; try lia.
Qed.

Lemma worker_holds (s : state) i w :
  inv s -> workers s !! i = Some w -> worker_locked (pc w) = true ->
  lock s = Some (Worker i).
Proof.
  intros Hinv Hi Hw. apply (inv_lock _ Hinv (Worker i)). simpl. by rewrite Hi.
Qed.

Lemma worker_outside (s : state) i w :
  inv s -> workers s !! i = Some w -> worker_locked (pc w) = false ->
  lock s <> Some (Worker i).
Proof.
  intros Hinv Hi Hw Hl. apply (inv_lock _ Hinv (Worker i)) in Hl. simpl in Hl.
  rewrite Hi in Hl. congruence.
Qed.

Lemma handler_Reraise e e' :
  handler e = Reraise e' -> e' = e /\ e <> Empty.
Proof.
  unfold handler. destruct (exn_eqb e Empty) eqn:He; [done|]. intros [= <-].
  split; [done|]. intros ->. done.
Qed.

(** [pending] after worker [i] moved, when the lock did not change hands. *)
Lemma pending_set_worker (s s' : state) i w w' :
  workers s !! i = Some w ->
  workers s' = <[i := w']> (workers s) ->
  main s' = main s ->
  pending s'
    = match lock s' with
      | Some (Worker j) =>
          if decide (j = i)
          then match pc w' with W_dowork _ | W_task_done => 1%nat | _ => 0%nat end
          else match workers s !! j with
               | Some w0 => match pc w0 with W_dowork _ | W_task_done => 1%nat | _ => 0%nat end
               | None => 0%nat
               end
      | Some Main => match main s with M_task_done => 1%nat | _ => 0%nat end
      | None => 0%nat
      end.
Proof.
  intros Hi Hw Hm. unfold pending. rewrite Hw, Hm.
  destruct (lock s') as [[|j]|]; try done.
  case_decide as Hj.
  - subst j. rewrite list_lookup_insert_eq; [done|]. by eapply lookup_lt_Some.
  - by rewrite list_lookup_insert_ne.
Qed.

Lemma inv_exn_step_worker i w (s : state) :
  workers s !! i = Some w -> inv s -> inv_exn s -> inv_exn (step_worker i w s).
Proof.
  intros Hi Hinv Hexn. pose proof Hexn as [Hun Hworker Hmain].
  pose proof (worker_holds s i w Hinv Hi) as Hholds.
  pose proof (worker_outside s i w Hinv Hi) as Hout.
  pose proof (lookup_lt_Some _ _ _ Hi) as Hlt.
  assert (Hkeep : forall w', match pc w' with
                             | W_died e | W_release (Reraise e) =>
                                 e <> Empty /\ exists f, dowork f = inl e
                             | _ => True
                             end ->
            forall j w0 e, <[i := w']> (workers s) !! j = Some w0 ->
              pc w0 = W_died e \/ pc w0 = W_release (Reraise e) ->
              e <> Empty /\ exists f, dowork f = inl e).
  { intros w' Hw' j w0 e Hj Hp. destruct (decide (j = i)) as [->|Hne].
    - rewrite list_lookup_insert_eq in Hj by done. injection Hj as <-.
      destruct Hp as [Hp|Hp]; rewrite Hp in Hw'; exact Hw'.
    - rewrite list_lookup_insert_ne in Hj by done. eauto. }
  unfold step_worker.
  destruct (pc w) eqn:Hpc; repeat case_match; try exact Hexn.
  all: simpl in Hholds, Hout.
  all: split; [| |exact Hmain].
  all: unfold pending in Hun.
  all: try (erewrite (pending_set_worker s _ i w); [|exact Hi|reflexivity|reflexivity]).
  all: cbn [lock set_worker set_lock set_frames frames pc set_pc workers].
  all: try (apply Hkeep; cbn [pc set_pc]).
  all: try (specialize (Hholds eq_refl)).
  all: try (specialize (Hout eq_refl)).
  all: repeat match goal with
       | H : lock _ = _ |- _ => rewrite H in *
       | H : Queue.get_nowait _ = Queue.Done _ _ |- _ => apply get_nowait_Done_tasks in H as [? ?]
       | H : Queue.task_done _ = Queue.Done _ _ |- _ => apply task_done_Done_tasks in H as [? ?]
       | H : Queue.get_nowait _ = Queue.Raises _ |- _ => apply get_nowait_raises in H; subst
       | H : Queue.task_done _ = Queue.Raises _ |- _ => apply task_done_raises in H
       end.
  all: rewrite ?Hi, ?Hpc in Hun.
  all: rewrite ?decide_True by done.
  all: try done.
  all: try lia.
  all: try (destruct (lock s) as [[|j]|]; [exact Hun| |exact Hun];
            case_decide; [by subst j|exact Hun]).
  all: try (by eapply Hworker; [exact Hi|right]).
  all: try (destruct (handler _) eqn:Hh; try done;
            apply handler_Reraise in Hh as [-> ?]; by eauto).
Qed.

Lemma inv_exn_step ev (s : state) : inv s -> inv_exn s -> inv_exn (step ev s).
Proof.
  intros Hinv Hexn. destruct ev as [b|r|[|i]]; simpl; try by apply inv_exn_step_main.
  destruct (workers s !! i) as [w|] eqn:Hi; [|done].
  by apply inv_exn_step_worker.
Qed.

Lemma inv_exn_exec tr (s : state) : inv s -> inv_exn s -> inv_exn (exec tr s).
Proof.
  revert s. induction tr as [|ev tr IH]; intros s Hinv Hexn; simpl; [done|].
  apply IH; [by apply inv_step|by apply inv_exn_step].
Qed.

Lemma inv_exn_reachable (zeros : F) n tr : inv_exn (exec tr (init zeros n)).
Proof. apply inv_exn_exec; [apply inv_init|apply inv_exn_init]. Qed.

Lemma main_step_worker i w (s : state) : main (step_worker i w s) = main s.
Proof. unfold step_worker. by repeat case_match. Qed.

(** X5.  On every run, a thread that stands at [task_done] finds an
    unfinished task, so the call does not raise [ValueError], and a
    thread that stands at [release] holds the lock, so the call does not
    raise [RuntimeError]. *)
Theorem task_done_and_release_never_raise (zeros : F) n tr :
  let s := exec tr (init zeros n) in
  (main s = M_task_done -> exists q, Queue.task_done (frames s) = Queue.Done tt q) /\
  (main s = M_release -> lock s = Some Main) /\
  (forall i w, workers s !! i = Some w ->
     (pc w = W_task_done -> exists q, Queue.task_done (frames s) = Queue.Done tt q) /\
     (forall k, pc w = W_release k -> lock s = Some (Worker i))).
Proof.
  intros s. pose proof (inv_reachable detectFacesAndEyes dowork zeros n tr) as Hinv.
  pose proof (inv_exn_reachable zeros n tr) as [Hun _ _]. fold s in Hinv, Hun.
  assert (Htd : (0 < pending s)%nat ->
                exists q, Queue.task_done (frames s) = Queue.Done tt q).
  { intros Hp. unfold Queue.task_done.
    destruct (Queue.unfinished_tasks (frames s)); [lia|eauto]. }
  split; [|split].
  - intros Hm. apply Htd. unfold pending.
    rewrite (main_holds s Hinv) by (by rewrite Hm). rewrite Hm. lia.
  - intros Hm. apply (main_holds s Hinv). by rewrite Hm.
  - intros i w Hi. split.
    + intros Hpc. apply Htd. unfold pending.
      rewrite (worker_holds s i w Hinv Hi) by (by rewrite Hpc). rewrite Hi, Hpc. lia.
    + intros k Hpc. apply (worker_holds s i w Hinv Hi). by rewrite Hpc.
Qed.

(** X6.  While a thread holds the lock, the only statement whose
    exception propagates is [dowork]: the main script is never ended by
    an exception between [lock.acquire()] and [lock.release()], and a
    worker that reaches its [finally] clause with an exception pending
    carries an exception that [dowork] raised on some frame, never
    [queue.Empty]. *)
Theorem locked_sections_raise_only_in_dowork (zeros : F) n tr :
  let s := exec tr (init zeros n) in
  (forall e locked, main s = M_raised e locked -> locked = false) /\
  (forall i w e, workers s !! i = Some w -> pc w = W_release (Reraise e) ->
     lock s = Some (Worker i) /\ e <> Empty /\ exists f, dowork f = inl e).
Proof.
  intros s. pose proof (inv_exn_reachable zeros n tr) as [_ Hw Hm]. fold s in Hw, Hm.
  pose proof (inv_reachable detectFacesAndEyes dowork zeros n tr) as Hinv. fold s in Hinv.
  split; [exact Hm|]. intros i w e Hi Hpc. split.
  - apply (worker_holds s i w Hinv Hi). by rewrite Hpc.
  - eapply Hw; [exact Hi|by right].
Qed.
End ExceptionFacts.

(** ** Frames through the queue *)
Section HistoryFacts.
Context {F P : Type}.
Variable detectFacesAndEyes : F -> F.
Variable dowork : F -> exn + (option P * F).

Local Abbreviation state := (@state F P).
Local Abbreviation step := (step detectFacesAndEyes dowork).
Local Abbreviation exec := (exec detectFacesAndEyes dowork).
Local Abbreviation history := (history detectFacesAndEyes dowork).

Lemma history_app observe tr1 tr2 (s : state) :
  history observe (tr1 ++ tr2) s
  = history observe tr1 s ++ history observe tr2 (exec tr1 s).
Proof.
  revert s. induction tr1 as [|ev tr1 IH]; intros s; simpl; [done|].
  by rewrite IH, app_assoc.
Qed.

(** One statement moves at most one frame, at the right end in, at the
    left end out. *)
Lemma queue_step ev (s : state) :
  Queue.queue (frames s) ++ put_by ev s
  = taken_by ev s ++ Queue.queue (frames (step ev s)).
Proof.
  destruct ev as [b|r|[|i]]; simpl.
  - unfold put_by, taken_by, step_main. rewrite app_nil_r.
    destruct (main s); by destruct b.
  - unfold put_by, taken_by, step_main. rewrite app_nil_r.
    destruct (main s); by destruct r.
  - unfold put_by, taken_by, step_main.
    destruct (main s) eqn:Hm; simpl; rewrite ?app_nil_r; try done.
    + by destruct (lock s).
    + by destruct (Queue.full (frames s)).
    + unfold Queue.get. destruct (Queue.queue (frames s)) eqn:Hq; simpl; by rewrite ?Hq.
    + unfold Queue.task_done. by destruct (Queue.unfinished_tasks (frames s)).
    + unfold Queue.put. destruct (Queue.full (frames s)); simpl; by rewrite ?app_nil_r.
    + by destruct (lock s).
    + destruct (workers s !! _); [|done]. by destruct (finished _).
  - unfold put_by, taken_by. rewrite app_nil_r.
    destruct (workers s !! i) as [w|] eqn:Hi; [|done].
    unfold step_worker. destruct (pc w) eqn:Hpc; simpl; try done.
    + by destruct (thread_stopper s).
    + by destruct (lock s).
    + unfold Queue.get_nowait.
      destruct (Queue.queue (frames s)) eqn:Hq; simpl; by rewrite ?Hq.
    + by destruct (dowork _) as [?|[? ?]].
    + unfold Queue.task_done. by destruct (Queue.unfinished_tasks (frames s)).
    + by destruct (lock s).
Qed.

Lemma queue_history tr (s : state) :
  Queue.queue (frames s) ++ history put_by tr s
  = history taken_by tr s ++ Queue.queue (frames (exec tr s)).
Proof.
  revert s. induction tr as [|ev tr IH]; intros s; simpl.
  - by rewrite app_nil_r.
  - rewrite app_assoc, queue_step, <- !app_assoc. f_equal. apply IH.
Qed.

(** X7.  The queue is first in, first out over a whole run, whoever takes
    the frames: the frames put by the main thread, in the order of the
    puts, are the frames taken by [get] and [get_nowait], in the order
    they were taken, followed by what the queue holds at the end. *)
Theorem queue_is_fifo_across_threads (zeros : F) n tr :
  let s0 := init zeros n in
  history put_by tr s0
  = history taken_by tr s0 ++ Queue.queue (frames (exec tr s0)).
Proof. intros s0. by rewrite <- queue_history. Qed.

Lemma held_step ev (s : state) :
  put_by ev s ++ held detectFacesAndEyes (step ev s)
  `sublist_of` held detectFacesAndEyes s ++ map detectFacesAndEyes (captured_by ev s).
Proof.
  destruct ev as [b|r|[|i]]; simpl.
  - unfold put_by, captured_by, held, step_main.
    destruct (main s) eqn:Hm; destruct b; simpl; rewrite ?Hm; simpl; by try apply sublist_nil_l.
  - unfold put_by, captured_by, held, step_main.
    destruct (main s) eqn:Hm; destruct r; simpl; rewrite ?Hm; simpl; by try apply sublist_nil_l.
  - unfold put_by, captured_by, held, step_main.
    destruct (main s) eqn:Hm; simpl; rewrite ?Hm; simpl; try done.
    + by destruct (lock s); simpl; rewrite ?Hm.
    + destruct (Queue.full (frames s)); simpl; [apply sublist_nil_l|done].
    + destruct (Queue.get (frames s)); simpl; by rewrite ?Hm.
    + destruct (Queue.task_done (frames s)); simpl; by rewrite ?Hm.
    + destruct (Queue.put f (frames s)); simpl; rewrite ?Hm; try done; apply sublist_nil_l.
    + by destruct (lock s); simpl; rewrite ?Hm.
    + destruct (workers s !! _); [|done]. by destruct (finished _); simpl; rewrite ?Hm.
  - unfold put_by, captured_by, held.
    destruct (workers s !! i) as [w|] eqn:Hi.
    + rewrite (main_step_worker dowork). destruct (main s); simpl; by rewrite ?app_nil_r.
    + destruct (main s); simpl; by rewrite ?app_nil_r.
Qed.

Lemma puts_from_held tr (s : state) :
  history put_by tr s
  `sublist_of` held detectFacesAndEyes s
               ++ map detectFacesAndEyes (history captured_by tr s).
Proof.
  revert s. induction tr as [|ev tr IH]; intros s; simpl; [apply sublist_nil_l|].
  rewrite map_app, app_assoc.
  etrans; [apply sublist_app; [reflexivity|apply IH]|].
  rewrite app_assoc. apply sublist_app; [apply held_step|reflexivity].
Qed.

(** X8.  From the start of the cell: the frames the threads took from the
    queue, followed by the frames still in it, are captured frames after
    [detectFacesAndEyes], each at most once and in the order of capture. *)
Theorem frames_taken_once_in_capture_order (zeros : F) n tr :
  let s0 := init zeros n in
  history taken_by tr s0 ++ Queue.queue (frames (exec tr s0))
  `sublist_of` map detectFacesAndEyes (history captured_by tr s0).
Proof.
  intros s0. rewrite <- queue_history. simpl.
  apply (puts_from_held tr s0).
Qed.
End HistoryFacts.

(** ** The end of the cell: set the event, join the threads *)
Section ShutdownFacts.
Context {F P : Type}.
Variable detectFacesAndEyes : F -> F.
Variable dowork : F -> exn + (option P * F).

Local Abbreviation state := (@state F P).
Local Abbreviation step := (step detectFacesAndEyes dowork).
Local Abbreviation exec := (exec detectFacesAndEyes dowork).
Local Abbreviation step_main := (step_main detectFacesAndEyes).
Local Abbreviation step_worker := (step_worker dowork).

Lemma exec_app tr1 tr2 (s : state) : exec (tr1 ++ tr2) s = exec tr2 (exec tr1 s).
Proof. unfold exec. by rewrite fold_left_app. Qed.

Lemma workers_step_main ev (s : state) : workers (step_main ev s) = workers s.
Proof.
  unfold step_main.
  destruct (main s); destruct ev as [[|]|[e0|f0]|[|i0]]; try done; by repeat case_match.
Qed.

Lemma length_workers_step ev (s : state) :
  length (workers (step ev s)) = length (workers s).
Proof.
  destruct ev as [b|r|[|i]]; simpl; try by rewrite workers_step_main.
  destruct (workers s !! i) as [w|]; [|done].
  unfold step_worker. repeat case_match; simpl; by rewrite ?length_insert.
Qed.

Lemma length_workers_exec tr (s : state) :
  length (workers (exec tr s)) = length (workers s).
Proof.
  revert s. induction tr as [|ev tr IH]; intros s; simpl; [done|].
  by rewrite IH, length_workers_step.
Qed.

Lemma stopper_step_worker i w (s : state) :
  thread_stopper (step_worker i w s) = thread_stopper s.
Proof. unfold step_worker. by repeat case_match. Qed.

(** The work left, as a sum over the list of workers. *)
Lemma effort_insert (ws : list (@worker F P)) i w w' :
  ws !! i = Some w ->
  (foldr (fun w acc => rank (pc w) + acc) O (<[i := w']> ws) + rank (pc w)
   = foldr (fun w acc => rank (pc w) + acc) O ws + rank (pc w'))%nat.
Proof.
  revert i. induction ws as [|w0 ws IH]; intros [|i] Hi; simpl in *; try done.
  - injection Hi as ->. lia.
  - specialize (IH i Hi). lia.
Qed.

Lemma effort_zero (ws : list (@worker F P)) :
  foldr (fun w acc => rank (pc w) + acc)%nat O ws = O <->
  forall i w, ws !! i = Some w -> finished w = true.
Proof.
  induction ws as [|w0 ws IH]; simpl.
  - split; [by intros _ i w|done].
  - split.
    + intros H [|i] w Hi; simpl in Hi.
      * injection Hi as <-. unfold finished. destruct (pc w0); simpl in H; done || lia.
      * apply (proj1 IH) with i; [lia|done].
    + intros H. pose proof (H O w0 eq_refl) as H0.
      rewrite (proj2 IH); [|intros i w Hi; by apply (H (S i))].
      unfold finished in H0. by destruct (pc w0).
Qed.

Lemma effort_bound (ws : list (@worker F P)) :
  (foldr (fun w acc => rank (pc w) + acc) O ws <= 8 * length ws)%nat.
Proof.
  induction ws as [|w0 ws IH]; simpl; [lia|].
  assert (rank (pc w0) <= 8)%nat by (destruct (pc w0); simpl; lia). lia.
Qed.

(** One statement of a worker once the event is set: it gets closer to
    the end of [run], or it waits for the lock, or [run] is over. *)
Lemma worker_tick_progress i w (s : state) :
  stopped s -> workers s !! i = Some w ->
  (effort (step_worker i w s) < effort s)%nat \/
  (step_worker i w s = s /\
   (finished w = true \/ (pc w = W_acquire /\ lock s <> None))).
Proof.
  intros (Hinv & Hstop & Hm) Hi.
  pose proof (fun w' => effort_insert (workers s) i w w' Hi) as Heff.
  unfold step_worker, effort.
  destruct (pc w) eqn:Hpc.
  all: repeat case_match; simpl.
  all: try (right; split; [done|]; unfold finished; rewrite Hpc; by auto).
  all: try congruence.
  all: try (right; split; [done|]; right; split; [done|congruence]).
  all: try (exfalso; match goal with
            | H : Queue.get_nowait _ = Queue.Blocks |- _ =>
                unfold Queue.get_nowait in H; by destruct (Queue.queue _)
            | H : Queue.task_done _ = Queue.Blocks |- _ =>
                unfold Queue.task_done in H; by destruct (Queue.unfinished_tasks _)
            end).
  all: left.
  all: match goal with
       | |- context [<[_ := ?w']> (workers _)] => specialize (Heff w')
       end; simpl in Heff; rewrite ?Hpc in Heff; simpl in Heff; try lia.
  all: destruct a; simpl in Heff; lia.
Qed.

Lemma stopped_step_worker i (s : state) :
  stopped s -> stopped (step (Tick (Worker i)) s).
Proof.
  intros (Hinv & Hstop & Hm). split; [by apply inv_step|].
  simpl. destruct (workers s !! i) as [w|]; [|done].
  by rewrite stopper_step_worker, (main_step_worker dowork).
Qed.

Lemma ticks_progress (l : list nat) (s : state) :
  stopped s ->
  let s' := exec (map (fun i => Tick (Worker i)) l) s in
  stopped s' /\
  ((effort s' < effort s)%nat \/
   (s' = s /\ forall i w, i ∈ l -> workers s !! i = Some w ->
              finished w = true \/ (pc w = W_acquire /\ lock s <> None))).
Proof.
  revert s. induction l as [|i l IH]; intros s Hs; simpl.
  - split; [done|]. right. split; [done|]. intros i w Hi. by apply elem_of_nil in Hi.
  - pose proof (stopped_step_worker i s Hs) as Hs1.
    destruct (IH _ Hs1) as [Hs' Hprog]. split; [exact Hs'|].
    simpl in Hprog, Hs1.
    destruct (workers s !! i) as [w|] eqn:Hi.
    + destruct (worker_tick_progress i w s Hs Hi) as [Hlt|[Heq Hw]].
      * left. destruct Hprog as [Hlt'|[-> _]]; lia.
      * rewrite Heq in *. destruct Hprog as [Hlt'|[Heq' Hall]]; [by left|].
        right. split; [done|]. intros j wj [->|Hj]%elem_of_cons Hwj.
        -- rewrite Hi in Hwj. by injection Hwj as <-.
        -- by eapply Hall.
    + destruct Hprog as [Hlt'|[Heq' Hall]]; [by left|].
      right. split; [done|]. intros j wj [->|Hj]%elem_of_cons Hwj.
      * by rewrite Hi in Hwj.
      * by eapply Hall.
Qed.

(** A round in which nobody moves is a round after the last: a worker
    that waits, waits for a worker that can move. *)
Lemma round_progress (s : state) :
  stopped s ->
  let s' := exec (round (length (workers s))) s in
  stopped s' /\ ((effort s' < effort s)%nat \/ (s' = s /\ effort s = O)).
Proof.
  intros Hs. destruct (ticks_progress (seq 0 (length (workers s))) s Hs) as [Hs' Hprog].
  split; [exact Hs'|]. destruct Hprog as [Hlt|[Heq Hall]]; [by left|].
  right. split; [exact Heq|]. apply effort_zero. intros i w Hi.
  assert (Hin : forall j wj, workers s !! j = Some wj ->
                finished wj = true \/ (pc wj = W_acquire /\ lock s <> None)).
  { intros j wj Hj. apply (Hall j wj); [|done].
    apply elem_of_seq. apply lookup_lt_Some in Hj. lia. }
  destruct (Hin i w Hi) as [Hf|[Hpc Hl]]; [done|]. exfalso.
  destruct Hs as (Hinv & Hstop & Hm).
  destruct (lock s) as [[|j]|] eqn:Hlock; [| |done].
  - apply (inv_lock _ Hinv) in Hlock. simpl in Hlock. by rewrite Hm in Hlock.
  - apply (inv_lock _ Hinv) in Hlock. simpl in Hlock.
    destruct (workers s !! j) as [wj|] eqn:Hj; [|done].
    destruct (Hin j wj Hj) as [Hf|[Hpcj _]].
    + unfold finished in Hf. by destruct (pc wj).
    + by rewrite Hpcj in Hlock.
Qed.

Lemma rounds_finish k (s : state) :
  stopped s -> (effort s <= k)%nat ->
  let s' := exec (rounds k (length (workers s))) s in
  stopped s' /\ effort s' = O.
Proof.
  revert s. induction k as [|k IH]; intros s Hs Hk; simpl.
  - split; [done|lia].
  - rewrite exec_app. destruct (round_progress s Hs) as [Hs1 Hprog].
    set (s1 := exec (round (length (workers s))) s) in *.
    assert (Hlen : length (workers s1) = length (workers s))
      by apply length_workers_exec.
    rewrite <- Hlen. apply IH; [done|].
    destruct Hprog as [Hlt|[Heq H0]]; [lia|]. rewrite Heq. lia.
Qed.

(** Every [join] returns at once when every thread is over. *)
Lemma joins_return d i (s : state) :
  main s = M_join i -> (i + d = length (workers s))%nat ->
  (forall j w, workers s !! j = Some w -> finished w = true) ->
  let s' := exec (replicate (S d) (Tick Main)) s in
  main s' = M_end /\ workers s' = workers s /\ lock s' = lock s /\
  thread_stopper s' = thread_stopper s.
Proof.
  revert i s. induction d as [|d IH]; intros i s Hm Hlen Hall.
  - simpl. unfold step_main. rewrite Hm.
    rewrite (proj2 (lookup_ge_None (workers s) i)) by lia. done.
  - change (replicate (S (S d)) (Tick Main))
      with ([Tick Main] ++ replicate (S d) (@Tick F Main)).
    rewrite exec_app.
    assert (H1 : exec [Tick Main] s = set_main (M_join (S i)) s).
    { simpl. unfold step_main. rewrite Hm.
      destruct (lookup_lt_is_Some_2 (workers s) i) as [w Hw]; [lia|].
      rewrite Hw. by rewrite (Hall i w Hw). }
    rewrite H1.
    apply (IH (S i) (set_main (M_join (S i)) s)); simpl; [done|lia|exact Hall].
Qed.

(** X9.  When the acquisition loop has ended by the clock and
    the script stands before [thread_stopper.set()], the rest of the
    cell runs to its end with the threads taken in turn: every [run]
    is over, every [join] has returned, nobody holds the lock. *)
Theorem shutdown_joins_every_worker (zeros : F) n tr
    (Hset : main (exec tr (init zeros n)) = M_set) :
  let s' := exec (shutdown n) (exec tr (init zeros n)) in
  main s' = M_end /\ thread_stopper s' = true /\ lock s' = None /\
  length (workers s') = n /\
  forall i w, workers s' !! i = Some w -> finished w = true.
Proof.
  cbv zeta. set (s := exec tr (init zeros n)) in *.
  pose proof (inv_reachable detectFacesAndEyes dowork zeros n tr) as Hinv. fold s in Hinv.
  assert (Hn : length (workers s) = n).
  { unfold s. rewrite length_workers_exec. simpl. apply length_replicate. }
  unfold shutdown.
  change (Tick Main :: ?l) with ([@Tick F Main] ++ l).
  rewrite !exec_app.
  set (s1 := exec [Tick Main] s).
  assert (Hs1 : stopped s1).
  { split; [by apply inv_exec|]. unfold s1. simpl. unfold step_main. by rewrite Hset. }
  assert (Hn1 : length (workers s1) = n) by (unfold s1; by rewrite length_workers_exec).
  destruct (rounds_finish (8 * n) s1 Hs1) as [Hs2 H0].
  { rewrite <- Hn1. apply effort_bound. }
  rewrite Hn1 in Hs2, H0.
  set (s2 := exec (rounds (8 * n) n) s1) in *.
  assert (Hn2 : length (workers s2) = n) by (unfold s2; by rewrite length_workers_exec).
  destruct Hs2 as (Hinv2 & Hstop2 & Hm2).
  assert (Hall : forall j w, workers s2 !! j = Some w -> finished w = true)
    by (by apply effort_zero).
  destruct (joins_return n O s2 Hm2) as (Hend & Hw & Hl & Hst); [lia|exact Hall|].
  split; [exact Hend|]. split; [congruence|]. split; [|split].
  - rewrite Hl. destruct (lock s2) as [[|j]|] eqn:Hlock; [| |done].
    + apply (inv_lock _ Hinv2) in Hlock. simpl in Hlock. by rewrite Hm2 in Hlock.
    + apply (inv_lock _ Hinv2) in Hlock. simpl in Hlock.
      destruct (workers s2 !! j) as [wj|] eqn:Hj; [|done].
      apply Hall in Hj. unfold finished in Hj. by destruct (pc wj).
  - by rewrite Hw.
  - rewrite Hw. exact Hall.
Qed.
End ShutdownFacts.

(** ** One turn of a worker's loop *)
Section WorkerLoopFacts.
Context {F P : Type}.
Variable detectFacesAndEyes : F -> F.
Variable dowork : F -> exn + (option P * F).

Local Abbreviation state := (@state F P).
Local Abbreviation step := (step detectFacesAndEyes dowork).
Local Abbreviation exec := (exec detectFacesAndEyes dowork).
Local Abbreviation step_worker := (step_worker dowork).

Lemma exec_cons ev tr (s : state) : exec (ev :: tr) s = exec tr (step ev s).
Proof. done. Qed.

(** A statement of worker [i], on a state given by its parts. *)
Lemma tick_worker fr lk st mn (ws : list (@worker F P)) sh i w :
  ws !! i = Some w ->
  step (Tick (Worker i)) (mk_state fr lk st mn ws sh)
  = step_worker i w (mk_state fr lk st mn ws sh).
Proof. intros Hi. simpl. by rewrite Hi. Qed.

Lemma tick_worker_insert fr lk st mn (ws : list (@worker F P)) sh i w :
  (i < length ws)%nat ->
  step (Tick (Worker i)) (mk_state fr lk st mn (<[i := w]> ws) sh)
  = step_worker i w (mk_state fr lk st mn (<[i := w]> ws) sh).
Proof. intros Hi. apply tick_worker. by apply list_lookup_insert_eq. Qed.

Ltac norm :=
  try unfold step_worker at 1;
  cbn [pc thread_stopper frames lock main workers shown position processed];
  unfold set_worker, set_pc, set_lock, set_frames;
  cbn [pc thread_stopper frames lock main workers shown position processed];
  rewrite ?list_insert_insert_eq.
Ltac tick := rewrite exec_cons, tick_worker_insert by done; norm.

(** X16.  A turn of the loop that finds the queue empty: the worker takes
    the lock, [get_nowait] raises [queue.Empty], the lock is released and
    the loop starts over; nothing is displayed and nothing else
    changes. *)
Theorem empty_queue_turn_displays_nothing (s : state) i w :
  workers s !! i = Some w ->
  pc w = W_while ->
  thread_stopper s = false ->
  lock s = None ->
  Queue.queue (frames s) = [] ->
  exec (replicate 4 (Tick (Worker i))) s = s.
Proof.
  destruct s as [fr lk st mn ws sh]. destruct w as [c pos out].
  cbn [pc thread_stopper lock frames workers].
  intros Hi -> -> -> Hq.
  pose proof (lookup_lt_Some _ _ _ Hi) as Hlt.
  change (replicate 4 ?x) with [x; x; x; x].
  rewrite exec_cons, (tick_worker _ _ _ _ _ _ _ _ Hi). norm.
  tick. tick.
  unfold Queue.get_nowait. rewrite Hq. unfold handler. cbn [exn_eqb].
  unfold set_worker, set_pc, set_lock, set_frames;
  cbn [pc thread_stopper frames lock main workers shown position processed];
  rewrite ?list_insert_insert_eq.
  tick.
  by rewrite list_insert_id.
Qed.

(** X17.  A turn of the loop that finds a frame: the worker takes the
    oldest frame out under the lock, analyses it, marks the task done,
    releases the lock and only then hands the output to the display; it
    keeps the position and the output that [dowork] returned. *)
Theorem frame_turn_processes_oldest_frame (s : state) i w f rest u pos out :
  workers s !! i = Some w ->
  pc w = W_while ->
  thread_stopper s = false ->
  lock s = None ->
  Queue.queue (frames s) = f :: rest ->
  Queue.unfinished_tasks (frames s) = S u ->
  dowork f = inr (pos, out) ->
  exec (replicate 8 (Tick (Worker i))) s
  = mk_state (Queue.mk (Queue.maxsize (frames s)) rest u) None false (main s)
             (<[i := mk_worker W_while pos out]> (workers s)) (shown s ++ [out]).
Proof.
  destruct s as [[mx qu un] lk st mn ws sh]. destruct w as [c pos0 out0].
  cbn [pc thread_stopper lock frames workers main shown
       Queue.queue Queue.unfinished_tasks Queue.maxsize].
  intros Hi -> -> -> -> -> Hwork.
  pose proof (lookup_lt_Some _ _ _ Hi) as Hlt.
  change (replicate 8 ?x) with [x; x; x; x; x; x; x; x].
  rewrite exec_cons, (tick_worker _ _ _ _ _ _ _ _ Hi). norm.
  tick. tick.
  cbn [Queue.get_nowait Queue.queue Queue.maxsize Queue.unfinished_tasks]. norm.
  tick. rewrite Hwork. norm.
  tick. cbn [Queue.task_done Queue.queue Queue.maxsize Queue.unfinished_tasks]. norm.
  tick. tick. tick.
  done.
Qed.

(** X18.  A turn of the loop in which [dowork] raises: the [finally]
    clause releases the lock and the exception ends the thread; the frame
    is out of the queue, [task_done] is not called for it, and nothing is
    displayed. *)
Theorem failing_turn_releases_the_lock (s : state) i w f rest e :
  workers s !! i = Some w ->
  pc w = W_while ->
  thread_stopper s = false ->
  lock s = None ->
  Queue.queue (frames s) = f :: rest ->
  dowork f = inl e ->
  exn_eqb e Empty = false ->
  exec (replicate 5 (Tick (Worker i))) s
  = mk_state (Queue.mk (Queue.maxsize (frames s)) rest
                       (Queue.unfinished_tasks (frames s)))
             None false (main s)
             (<[i := mk_worker (W_died e) (position w) (processed w)]> (workers s))
             (shown s).
Proof.
  destruct s as [[mx qu un] lk st mn ws sh]. destruct w as [c pos0 out0].
  cbn [pc thread_stopper lock frames workers main shown position processed
       Queue.queue Queue.unfinished_tasks Queue.maxsize].
  intros Hi -> -> -> -> Hwork He.
  pose proof (lookup_lt_Some _ _ _ Hi) as Hlt.
  change (replicate 5 ?x) with [x; x; x; x; x].
  rewrite exec_cons, (tick_worker _ _ _ _ _ _ _ _ Hi). norm.
  tick. tick.
  cbn [Queue.get_nowait Queue.queue Queue.maxsize Queue.unfinished_tasks]. norm.
  tick. rewrite Hwork. norm.
  unfold handler. rewrite He. tick.
  done.
Qed.
End WorkerLoopFacts.

(** ** The samples handed to KMeans *)
Section SampleFacts.

(** [verticals] and [horizontals] side by side: the row and the column of
    every cell of the grid. *)
Lemma positions_grid :
  zip_with (zip_with (fun y z => y ++ z)) verticals horizontals
  = map (fun r => map (fun c => [r; c]) (arange 0 80)) (arange 0 60).
Proof. vm_compute. reflexivity. Qed.

Lemma positions_shape :
  has_shape 60 80 verticals = true /\ has_shape 60 80 horizontals = true.
Proof. split; vm_compute; reflexivity. Qed.

Lemma lookup_arange n i :
  (i < n)%nat -> arange 0 (Z.of_nat n) !! i = Some (Z.of_nat i).
Proof.
  intros Hi. unfold arange. rewrite list_lookup_fmap, Z.sub_0_r, Nat2Z.id.
  by rewrite lookup_seq_lt.
Qed.

Lemma length_concat_uniform {A} w (rows : list (list A)) :
  Forall (fun row => length row = w) rows ->
  length (concat rows) = (length rows * w)%nat.
Proof.
  induction 1 as [|row rows Hrow _ IH]; simpl; [done|].
  rewrite length_app, IH. lia.
Qed.

Lemma lookup_concat_uniform {A} w (rows : list (list A)) r c :
  Forall (fun row => length row = w) rows -> (c < w)%nat ->
  concat rows !! (r * w + c)%nat = rows !! r ≫= fun row => row !! c.
Proof.
  intros Hrows Hc. revert r. induction Hrows as [|row rows Hrow _ IH]; intros r.
  - by rewrite !lookup_nil.
  - destruct r as [|r]; simpl.
    + rewrite lookup_app_l by lia. done.
    + rewrite lookup_app_r by lia. rewrite <- IH. f_equal. lia.
Qed.

Lemma chunks_concat {A} k (cells : list (list A)) :
  Forall (fun cell => length cell = k) cells ->
  chunks (length cells) k (concat cells) = cells.
Proof.
  induction 1 as [|cell cells Hcell _ IH]; simpl; [done|].
  rewrite take_app_length' by done. rewrite drop_app_length' by done.
  by rewrite IH.
Qed.

(** A shape that fits [verticals] is 60 x 80. *)
Lemma shape_of_verticals h w : has_shape h w verticals = true -> h = 60%nat /\ w = 80%nat.
Proof.
  intros [Hh Hw]%has_shape_spec. split; [by rewrite <- Hh|].
  assert (Hrow : exists row, verticals !! 0%nat = Some row /\ length row = 80%nat)
    by (eexists; split; vm_compute; reflexivity).
  destruct Hrow as (row & Hrow & Hlen).
  rewrite Forall_lookup in Hw. rewrite <- (Hw _ _ Hrow). done.
Qed.

Lemma to_array_shape h w (small : frame) :
  has_shape h w (to_array small) = has_shape h w small.
Proof.
  unfold has_shape, to_array. rewrite length_map. f_equal.
  induction small as [|row small IH]; simpl; [done|]. by rewrite length_map, IH.
Qed.

Lemma lookup_zip_with2 {A B C} (f : A -> B -> C) a b r c :
  zip_with (fun ra rb => zip_with f ra rb) a b !! r ≫= (fun row => row !! c)
  = x ← (a !! r ≫= fun row => row !! c);
    y ← (b !! r ≫= fun row => row !! c);
    Some (f x y).
Proof.
  rewrite lookup_zip_with.
  destruct (a !! r) as [ra|]; [|done]. destruct (b !! r) as [rb|]; simpl.
  - rewrite lookup_zip_with. by destruct (ra !! c).
  - by destruct (ra !! c).
Qed.

Lemma zip_with_shape {A B C} (f : A -> B -> C) h w a b :
  has_shape h w a = true -> has_shape h w b = true ->
  has_shape h w (zip_with (fun ra rb => zip_with f ra rb) a b) = true.
Proof.
  intros [Ha Hra]%has_shape_spec [Hb Hrb]%has_shape_spec. apply has_shape_spec. split.
  - rewrite length_zip_with. lia.
  - apply Forall_lookup. intros r row. rewrite lookup_zip_with.
    destruct (a !! r) as [ra|] eqn:Har; [|done].
    destruct (b !! r) as [rb|] eqn:Hbr; [|done]. simpl. intros [= <-].
    rewrite Forall_lookup in Hra. rewrite Forall_lookup in Hrb.
    rewrite length_zip_with, (Hra _ _ Har), (Hrb _ _ Hbr). lia.
Qed.

Lemma to_array_lookup (small : frame) r c :
  to_array small !! r ≫= (fun row => row !! c) = channels <$> pixel_at small r c.
Proof.
  unfold to_array, pixel_at. rewrite list_lookup_fmap.
  destruct (small !! r) as [row|]; [|done]. simpl. by rewrite list_lookup_fmap.
Qed.

Lemma positions_lookup r c :
  (r < 60)%nat -> (c < 80)%nat ->
  map (fun r => map (fun c => [r; c]) (arange 0 80)) (arange 0 60) !! r
    ≫= (fun row => row !! c)
  = Some [Z.of_nat r; Z.of_nat c].
Proof.
  intros Hr Hc.
  pose proof (lookup_arange 60 r Hr) as Har. change (Z.of_nat 60) with 60 in Har.
  pose proof (lookup_arange 80 c Hc) as Hac. change (Z.of_nat 80) with 80 in Hac.
  rewrite list_lookup_fmap, Har. cbn [fmap option_fmap option_map mbind option_bind].
  by rewrite list_lookup_fmap, Hac.
Qed.

(** X10.  The downsized image must be 60 x 80, or the concatenation with
    [verticals] and [horizontals] raises [ValueError]; and then
    [reshaped] has 4800 rows, and its row [r * 80 + c] is the colour of
    pixel [(r, c)] followed by [r] and [c]. *)
Theorem samples_are_colour_row_column (small : frame) :
  match reshaped small with
  | inr samples =>
      has_shape 60 80 small = true /\ length samples = 4800%nat /\
      forall r c p, pixel_at small r c = Some p ->
        samples !! (r * 80 + c)%nat = Some (channels p ++ [Z.of_nat r; Z.of_nat c])
  | inl e => has_shape 60 80 small = false /\ e = ValueError
  end.
Proof.
  unfold reshaped, concatenate_axis2.
  set (h := length (to_array small)).
  set (w := match to_array small with [] => O | row :: _ => length row end).
  destruct (has_shape h w (to_array small) && has_shape h w verticals
            && has_shape h w horizontals) eqn:Hcond.
  - apply andb_true_iff in Hcond as [[Hs Hv]%andb_true_iff _].
    apply shape_of_verticals in Hv as [-> ->]. rewrite to_array_shape in Hs.
    rewrite positions_grid.
    set (X := zip_with _ (to_array small) _).
    pose proof Hs as [Hlen Hrows]%has_shape_spec.
    assert (HX : forall r c p, pixel_at small r c = Some p ->
               X !! r ≫= (fun row => row !! c)
               = Some (channels p ++ [Z.of_nat r; Z.of_nat c])).
    { intros r c p Hp.
      assert (Hr' : (r < 60)%nat).
      { unfold pixel_at in Hp. destruct (small !! r) eqn:Hr; [|done].
        apply lookup_lt_Some in Hr. lia. }
      assert (Hc' : (c < 80)%nat).
      { unfold pixel_at in Hp. destruct (small !! r) as [row|] eqn:Hr; [|done].
        simpl in Hp. apply lookup_lt_Some in Hp. rewrite Forall_lookup in Hrows.
        by rewrite (Hrows _ _ Hr) in Hp. }
      unfold X. etrans; [apply lookup_zip_with2|].
      rewrite to_array_lookup, Hp, (positions_lookup r c Hr' Hc'). by destruct p as [[? ?] ?]. }
    assert (HXshape : has_shape 60 80 X = true).
    { apply zip_with_shape; [by rewrite to_array_shape|vm_compute; reflexivity]. }
    apply has_shape_spec in HXshape as [HXlen HXrows].
    assert (HXcells : Forall (Forall (fun cell => length cell = 5%nat)) X).
    { apply Forall_lookup. intros r row Hr. apply Forall_lookup. intros c cell Hc.
      assert (Hr' : (r < 60)%nat) by (apply lookup_lt_Some in Hr; lia).
      assert (Hc' : (c < 80)%nat).
      { apply lookup_lt_Some in Hc. rewrite Forall_lookup in HXrows.
        by rewrite (HXrows _ _ Hr) in Hc. }
      destruct (lookup_lt_is_Some_2 small r) as [srow Hsr]; [lia|].
      destruct (lookup_lt_is_Some_2 srow c) as [p Hp].
      { rewrite Forall_lookup in Hrows. by rewrite (Hrows _ _ Hsr). }
      specialize (HX r c p). unfold pixel_at in HX. rewrite Hsr in HX. simpl in HX.
      specialize (HX Hp). rewrite Hr in HX. simpl in HX. rewrite Hc in HX.
      injection HX as ->. by destruct p as [[? ?] ?]. }
    assert (Hcells : Forall (fun cell => length cell = 5%nat) (concat X)).
    { apply Forall_concat. exact HXcells. }
    assert (Hn : length (concat X) = 4800%nat).
    { rewrite (length_concat_uniform 80) by done. by rewrite HXlen. }
    rewrite reshape_defined.
    2:{ rewrite (length_concat_uniform 5) by done. by rewrite Hn. }
    pose proof (chunks_concat 5 (concat X) Hcells) as Hch. rewrite Hn in Hch.
    change (60 * 80)%nat with 4800%nat. rewrite Hch.
    split; [done|]. split; [done|]. intros r c p Hp.
    rewrite <- (HX r c p Hp). apply lookup_concat_uniform; [done|].
    unfold pixel_at in Hp. destruct (small !! r) as [row|] eqn:Hr; [|done].
    simpl in Hp. apply lookup_lt_Some in Hp. rewrite Forall_lookup in Hrows.
    by rewrite (Hrows _ _ Hr) in Hp.
  - split; [|done]. destruct (has_shape 60 80 small) eqn:Hs; [|done].
    assert (h = 60%nat /\ w = 80%nat) as [-> ->].
    { pose proof Hs as [Hlen Hrows]%has_shape_spec. unfold h, w, to_array.
      rewrite length_map. split; [done|].
      destruct small as [|row small']; [done|]. simpl. rewrite length_map.
      by apply Forall_inv in Hrows. }
    rewrite to_array_shape, Hs in Hcond.
    destruct positions_shape as [Hv Hh]. by rewrite Hv, Hh in Hcond.
Qed.
End SampleFacts.

(** ** The selected label, whatever the centres hold *)
Section LabelFacts.
Implicit Types (kmeans : KMeans) (target_color : pixel).

Lemma argmin_from_bound mp idx i (x : list spec_float) :
  argmin_from mp idx i x = idx \/
  i <= argmin_from mp idx i x < i + Z.of_nat (length x).
Proof.
  revert mp idx i. induction x as [|v x IH]; intros mp idx i; simpl; [by left|].
  destruct (Float64.leb mp v).
  - destruct (IH mp idx (i + 1)) as [->|H]; [by left|right; lia].
  - destruct (Float64.is_nan v); [right; lia|].
    destruct (IH v i (i + 1)) as [->|H]; right; lia.
Qed.

Lemma argmin_bound (x : list spec_float) k :
  argmin x = inr k -> 0 <= k < Z.of_nat (length x).
Proof.
  destruct x as [|v x]; [done|]. simpl. intros [= <-].
  destruct (Float64.is_nan v); [lia|].
  destruct (argmin_from_bound v 0 1 x) as [->|H]; lia.
Qed.

(** X11.  [closest.argmin()] is the index of one of the centres, also when
    distances are infinite or not numbers; on a fit of six centres of
    five coordinates it is a label in 0 .. 5 and never raises. *)
Theorem closest_label_is_a_cluster_index kmeans target_color :
  match closest_label kmeans target_color with
  | inr label => 0 <= label < Z.of_nat (length (cluster_centers_ kmeans))
  | inl e =>
      e = ValueError /\
      (cluster_centers_ kmeans = [] \/
       exists row, row ∈ cluster_centers_ kmeans /\ (length row < 3)%nat)
  end.
Proof.
  unfold closest_label, closest, diff.
  destruct (forallb _ (rgb_centers kmeans)) eqn:Hrows.
  - destruct (argmin _) as [e|label] eqn:Ha.
    + destruct (cluster_centers_ kmeans) as [|c cs] eqn:Hc.
      * unfold rgb_centers in Ha. rewrite Hc in Ha. simpl in Ha.
        injection Ha as <-. split; [done|by left].
      * unfold rgb_centers in Ha. rewrite Hc in Ha. done.
    + apply argmin_bound in Ha. unfold rgb_centers in Ha.
      by rewrite !length_map in Ha.
  - split; [done|]. right.
    apply not_true_iff_false in Hrows. rewrite forallb_forall in Hrows.
    destruct (decide (Forall (fun row => (3 <= length row)%nat) (cluster_centers_ kmeans)))
      as [Hall|Hex].
    + exfalso. apply Hrows. intros row [c [<- Hc]]%in_map_iff.
      apply list_elem_of_In in Hc. rewrite Forall_forall in Hall.
      specialize (Hall c Hc). apply Nat.eqb_eq. rewrite length_take. lia.
    + apply not_Forall_Exists in Hex; [|intros row; apply _].
      apply Exists_exists in Hex as (row & Hin & Hlt). exists row. split; [done|]. simpl in Hlt. lia.
Qed.
End LabelFacts.

(** ** The box and the pixels of the selected cluster *)
Section BoxFacts.
Implicit Types (kmeans : KMeans) (mask : list (list bool)).

Lemma np_sum_b2z_nonzero (row : list bool) :
  np_sum (map Z.b2z row) <> 0 <-> exists c, row !! c = Some true.
Proof.
  induction row as [|b row IH]; simpl.
  - split; [done|]. intros [c Hc]. by rewrite lookup_nil in Hc.
  - pose proof (np_sum_b2z_bounds row) as Hb. destruct b; simpl.
    + split; [intros _; by exists 0%nat|lia].
    + rewrite IH. split; intros [c Hc]; [by exists (S c)|].
      destruct c as [|c]; [done|]. by exists c.
Qed.

Lemma row_count_spec mask r v :
  sum_axis1 mask !! r = Some v ->
  exists row, mask !! r = Some row /\ 0 <= v <= Z.of_nat (length row) /\
    (v <> 0 <-> exists c, row !! c = Some true).
Proof.
  unfold sum_axis1. rewrite list_lookup_fmap.
  destruct (mask !! r) as [row|]; [|done]. simpl. intros [= <-].
  exists row. split; [done|]. split; [apply np_sum_b2z_bounds|apply np_sum_b2z_nonzero].
Qed.

Lemma column_count_spec w (rows : list (list bool)) c v :
  Forall (fun row => length row = w) rows ->
  foldr (fun row acc => zip_with Z.add (map Z.b2z row) acc) (replicate w 0) rows !! c
    = Some v ->
  0 <= v <= Z.of_nat (length rows) /\
  (v <> 0 <-> exists r row, rows !! r = Some row /\ row !! c = Some true).
Proof.
  intros Hrows. revert v. induction Hrows as [|row rows Hrow _ IH]; intros v; simpl.
  - intros [-> _]%lookup_replicate. split; [lia|].
    split; [done|]. intros (r & row & Hr & _). by rewrite lookup_nil in Hr.
  - intros (x & y & -> & Hx & Hy)%lookup_zip_with_Some.
    rewrite list_lookup_fmap in Hx. destruct (row !! c) as [b|] eqn:Hb; [|done].
    injection Hx as <-. destruct (IH y Hy) as [Hy0 Hiff].
    split; [destruct b; simpl; lia|]. split.
    + intros Hne. destruct b.
      * exists 0%nat, row. done.
      * simpl in Hne. destruct (proj1 Hiff) as (r & row' & Hr & Hc); [lia|].
        exists (S r), row'. done.
    + intros (r & row' & Hr & Hc). destruct r as [|r]; simpl in Hr.
      * injection Hr as <-. rewrite Hb in Hc. injection Hc as ->. simpl. lia.
      * assert (y <> 0) by (apply Hiff; eauto). destruct b; simpl; lia.
Qed.

Lemma sum_axis0_spec mask c v :
  has_shape 60 80 mask = true ->
  sum_axis0 mask !! c = Some v ->
  0 <= v <= 60 /\
  (v <> 0 <-> exists r row, mask !! r = Some row /\ row !! c = Some true).
Proof.
  intros [Hlen Hrows]%has_shape_spec. unfold sum_axis0.
  destruct mask as [|row mask]; [done|].
  pose proof (Forall_inv Hrows) as Hrow. simpl in Hrow. rewrite Hrow.
  intros Hv. destruct (column_count_spec 80 (row :: mask) c v Hrows Hv) as [Hb Hiff].
  rewrite Hlen in Hb. split; [lia|done].
Qed.

(** The mask, cell by cell, in terms of [labels_]. *)
Lemma labels_lookup kmeans label mask r c :
  labels kmeans label = inr mask -> (c < 80)%nat ->
  mask !! r ≫= (fun row => row !! c)
  = (fun l => l =? label) <$> labels_ kmeans !! (r * 80 + c)%nat.
Proof.
  unfold labels. destruct (reshape 60 80 (labels_ kmeans)) as [e|grid] eqn:Hg; [done|].
  intros [= <-] Hc. apply reshape_inr in Hg as (_ & [_ Hrows]%has_shape_spec & <-).
  rewrite (lookup_concat_uniform 80) by done. rewrite list_lookup_fmap.
  destruct (grid !! r) as [row|]; [|done]. simpl. by rewrite list_lookup_fmap.
Qed.

Lemma find_contour_inr sv sh c :
  find_contour sv sh = inr c ->
  exists top bottom left right,
    c = mk_contour (top * 4) (bottom * 4) (left * 4) (right * 4) /\
    top ∈ nonzero sv /\ bottom ∈ nonzero sv /\
    (forall k, k ∈ nonzero sv -> top <= k <= bottom) /\
    left ∈ nonzero sh /\ right ∈ nonzero sh /\
    (forall k, k ∈ nonzero sh -> left <= k <= right).
Proof.
  unfold find_contour.
  destruct (nonzero sv) as [|v0 vs] eqn:Hv; [done|].
  destruct (nonzero sh) as [|h0 hs] eqn:Hh; [done|].
  simpl. intros [= <-].
  destruct (foldr_min_spec v0 vs) as [H1 H2]. destruct (foldr_max_spec v0 vs) as [H3 H4].
  destruct (foldr_min_spec h0 hs) as [H5 H6]. destruct (foldr_max_spec h0 hs) as [H7 H8].
  eexists _, _, _, _. split; [reflexivity|]. split_and!; try done.
  - intros k Hk. split; [by apply H2|by apply H4].
  - intros k Hk. split; [by apply H6|by apply H8].
Qed.

(** When [find_contour] returns, the mask exists. *)
Lemma contour_mask kmeans label c :
  find_contour (row_counts kmeans label) (column_counts kmeans label) = inr c ->
  exists mask, labels kmeans label = inr mask.
Proof.
  unfold row_counts, column_counts.
  destruct (labels kmeans label) as [e|mask]; [done|eauto].
Qed.

(** X12.  The box is the bounding box, times 4, of the grid cells that carry
    the selected label: every such cell lies inside it, and each of its
    four sides holds one. *)
Theorem box_is_bounding_box_of_cluster kmeans label c :
  find_contour (row_counts kmeans label) (column_counts kmeans label) = inr c ->
  (forall r col, (col < 80)%nat ->
     labels_ kmeans !! (r * 80 + col)%nat = Some label ->
     min_vertical c <= 4 * Z.of_nat r <= max_vertical c /\
     min_horizontal c <= 4 * Z.of_nat col <= max_horizontal c) /\
  (exists col, (col < 80)%nat /\
     labels_ kmeans !! (Z.to_nat (min_vertical c / 4) * 80 + col)%nat = Some label) /\
  (exists col, (col < 80)%nat /\
     labels_ kmeans !! (Z.to_nat (max_vertical c / 4) * 80 + col)%nat = Some label) /\
  (exists r, labels_ kmeans !! (r * 80 + Z.to_nat (min_horizontal c / 4))%nat = Some label) /\
  (exists r, labels_ kmeans !! (r * 80 + Z.to_nat (max_horizontal c / 4))%nat = Some label).
Proof.
  intros Hc. destruct (contour_mask _ _ _ Hc) as [mask Hmask].
  unfold row_counts, column_counts in Hc. rewrite Hmask in Hc.
  pose proof (labels_inr _ _ _ Hmask) as (Hlen & Hshape & _).
  pose proof Hshape as [Hrows_n Hrows]%has_shape_spec.
  destruct (sum_axis0_shape 60 80 mask ltac:(lia) Hshape) as [Hlen0 _].
  apply find_contour_inr in Hc
    as (top & bottom & left & right & -> & Ht & Hb & Hv & Hl & Hr & Hh).
  simpl. rewrite !Z.div_mul by lia.
  assert (Hcell : forall r col, (col < 80)%nat ->
            (labels_ kmeans !! (r * 80 + col)%nat = Some label <->
             exists row, mask !! r = Some row /\ row !! col = Some true)).
  { intros r col Hcol. pose proof (labels_lookup kmeans label mask r col Hmask Hcol) as Hlk.
    split.
    - intros Hl'. rewrite Hl' in Hlk. simpl in Hlk. rewrite Z.eqb_refl in Hlk.
      destruct (mask !! r) as [row|]; [|done]. eauto.
    - intros (row & Hrow & Hcell). rewrite Hrow in Hlk. simpl in Hlk. rewrite Hcell in Hlk.
      destruct (labels_ kmeans !! (r * 80 + col)%nat) as [l|]; [|done].
      simpl in Hlk. injection Hlk as Hlk. symmetry in Hlk. by apply Z.eqb_eq in Hlk as ->. }
  assert (Hrow_of : forall k, k ∈ nonzero (sum_axis1 mask) ->
            exists col, (col < 80)%nat /\
              labels_ kmeans !! (Z.to_nat k * 80 + col)%nat = Some label).
  { intros k (Hk & v & Hlv & Hne)%elem_of_nonzero.
    apply row_count_spec in Hlv as (row & Hrow & _ & Hiff).
    destruct (proj1 Hiff Hne) as [col Hcol]. exists col.
    assert (Hcol' : (col < 80)%nat).
    { apply lookup_lt_Some in Hcol. rewrite Forall_lookup in Hrows.
      by rewrite (Hrows _ _ Hrow) in Hcol. }
    split; [done|]. apply Hcell; eauto. }
  assert (Hcol_of : forall k, k ∈ nonzero (sum_axis0 mask) ->
            exists r, labels_ kmeans !! (r * 80 + Z.to_nat k)%nat = Some label).
  { intros k (Hk & v & Hlv & Hne)%elem_of_nonzero.
    assert (Hk' : (Z.to_nat k < 80)%nat) by (apply lookup_lt_Some in Hlv; lia).
    apply sum_axis0_spec in Hlv as [_ Hiff]; [|done].
    destruct (proj1 Hiff Hne) as (r & row & Hrow & Hcol). exists r.
    apply Hcell; eauto. }
  split; [|split_and!; auto].
  intros r col Hcol (row & Hrow & Htrue)%Hcell; [|done].
  assert (Hrin : Z.of_nat r ∈ nonzero (sum_axis1 mask)).
  { apply elem_of_nonzero. split; [lia|]. rewrite Nat2Z.id.
    destruct (lookup_lt_is_Some_2 (sum_axis1 mask) r) as [v Hlv].
    { rewrite length_sum_axis1. by apply lookup_lt_Some in Hrow. }
    exists v. split; [done|].
    destruct (row_count_spec _ _ _ Hlv) as (row' & Hrow' & _ & Hiff).
    rewrite Hrow in Hrow'. injection Hrow' as <-. apply Hiff. eauto. }
  assert (Hcin : Z.of_nat col ∈ nonzero (sum_axis0 mask)).
  { apply elem_of_nonzero. split; [lia|]. rewrite Nat2Z.id.
    destruct (lookup_lt_is_Some_2 (sum_axis0 mask) col) as [v Hlv]; [lia|].
    exists v. split; [done|].
    destruct (sum_axis0_spec _ _ _ Hshape Hlv) as [_ Hiff]. apply Hiff. eauto. }
  apply Hv in Hrin. apply Hh in Hcin. lia.
Qed.

(** A sum of entries between 0 and [B] that vanish outside the indices
    [lo .. hi]. *)
Lemma bounded_sum B lo hi (x : list Z) i :
  0 <= B ->
  (forall j v, x !! j = Some v ->
     0 <= v <= B /\ (v <> 0 -> lo <= i + Z.of_nat j <= hi)) ->
  np_sum x <= B * Z.max 0 (Z.min (hi + 1) (i + Z.of_nat (length x)) - Z.max lo i).
Proof.
  intros HB. revert i. induction x as [|v x IH]; intros i Hx; simpl np_sum.
  - nia.
  - destruct (Hx 0%nat v eq_refl) as [Hv Hin].
    assert (Hrest : np_sum x
              <= B * Z.max 0 (Z.min (hi + 1) (i + 1 + Z.of_nat (length x)) - Z.max lo (i + 1))).
    { apply IH. intros j u Hj. destruct (Hx (S j) u Hj) as [Hu Hin']. split; [done|lia]. }
    rewrite length_cons, Nat2Z.inj_succ.
    destruct (decide (v = 0)) as [->|Hne].
    + assert (Z.max 0 (Z.min (hi + 1) (i + 1 + Z.of_nat (length x)) - Z.max lo (i + 1))
              <= Z.max 0 (Z.min (hi + 1) (i + Z.succ (Z.of_nat (length x))) - Z.max lo i))
        by lia.
      nia.
    + specialize (Hin Hne).
      assert (Z.max 0 (Z.min (hi + 1) (i + Z.succ (Z.of_nat (length x))) - Z.max lo i)
              = 1 + Z.max 0 (Z.min (hi + 1) (i + 1 + Z.of_nat (length x)) - Z.max lo (i + 1)))
        as -> by lia.
      nia.
Qed.

(** X13.  A box that is reported spans at least five rows and six columns of
    the grid: 336 pixels do not fit in less. *)
Theorem reported_box_is_never_thin kmeans label c :
  find_contour (row_counts kmeans label) (column_counts kmeans label) = inr c ->
  336 < count_label kmeans label ->
  16 <= max_vertical c - min_vertical c /\
  20 <= max_horizontal c - min_horizontal c.
Proof.
  intros Hc Hcount. destruct (contour_mask _ _ _ Hc) as [mask Hmask].
  unfold row_counts, column_counts in Hc. rewrite Hmask in Hc.
  pose proof (labels_inr _ _ _ Hmask) as (Hlen & Hshape & Hsum).
  pose proof Hshape as [Hrows_n Hrows]%has_shape_spec.
  destruct (sum_axis0_shape 60 80 mask ltac:(lia) Hshape) as [Hlen0 Hsum0].
  apply find_contour_inr in Hc
    as (top & bottom & left & right & -> & Ht & Hb & Hv & Hl & Hr & Hh).
  simpl.
  assert (H0t : 0 <= top) by (by apply elem_of_nonzero in Ht as [? _]).
  assert (H0l : 0 <= left) by (by apply elem_of_nonzero in Hl as [? _]).
  pose proof (Hv _ Ht) as Htb. pose proof (Hh _ Hl) as Hlr.
  assert (Hrows_sum : np_sum (sum_axis1 mask) <= 80 * (bottom - top + 1)).
  { etrans; [apply (bounded_sum 80 top bottom _ 0); [lia|]|].
    - intros j v Hj. destruct (row_count_spec _ _ _ Hj) as (row & Hrow & Hb' & _).
      rewrite Forall_lookup in Hrows. rewrite (Hrows _ _ Hrow) in Hb'. split; [lia|].
      intros Hne. apply (Hv (Z.of_nat j)). apply elem_of_nonzero. split; [lia|].
      exists v. by rewrite Nat2Z.id.
    - rewrite length_sum_axis1, Hrows_n. lia. }
  assert (Hcols_sum : np_sum (sum_axis0 mask) <= 60 * (right - left + 1)).
  { etrans; [apply (bounded_sum 60 left right _ 0); [lia|]|].
    - intros j v Hj. destruct (sum_axis0_spec _ _ _ Hshape Hj) as [Hb' _].
      split; [lia|].
      intros Hne. apply (Hh (Z.of_nat j)). apply elem_of_nonzero. split; [lia|].
      exists v. by rewrite Nat2Z.id.
    - rewrite Hlen0. lia. }
  lia.
Qed.
End BoxFacts.

(** ** Frames of another size *)
Section FrameSizeFacts.
Implicit Types (a : frame) (v : pixel).

Lemma setitem_column_run r0 r1 c v a h w :
  has_shape h w a = true ->
  match setitem_column r0 r1 c v a with
  | inr a' => (0 < h)%nat /\ (c < w)%nat /\ has_shape h w a' = true
  | inl e => e = IndexError /\ (h = 0%nat \/ (w <= c)%nat)
  end.
Proof.
  intros Hs. destruct (setitem_column r0 r1 c v a) as [e|a'] eqn:Hrun.
  - unfold setitem_column in Hrun. destruct (Nat.ltb_spec c (width a)) as [|Hge]; [done|].
    injection Hrun as <-. split; [done|].
    destruct h as [|h]; [by left|]. right.
    unfold width in Hge. by rewrite (width_has_shape (S h) w a) in Hge by (lia || done).
  - pose proof (setitem_column_shape _ _ _ _ _ _ _ _ Hrun Hs) as Hs'.
    unfold setitem_column in Hrun. destruct (Nat.ltb_spec c (width a)) as [Hlt|]; [|done].
    destruct h as [|h].
    + apply has_shape_spec in Hs as [Hl _]. destruct a; [simpl in Hlt; lia|done].
    + unfold width in Hlt. rewrite (width_has_shape (S h) w a) in Hlt by (lia || done).
      split; [lia|done].
Qed.

Lemma setitem_row_run r c0 c1 v a h w :
  has_shape h w a = true ->
  match setitem_row r c0 c1 v a with
  | inr a' => (r < h)%nat /\ has_shape h w a' = true
  | inl e => e = IndexError /\ (h <= r)%nat
  end.
Proof.
  intros Hs. destruct (setitem_row r c0 c1 v a) as [e|a'] eqn:Hrun.
  - unfold setitem_row, height in Hrun.
    apply has_shape_spec in Hs as [Hl _]. rewrite Hl in Hrun.
    destruct (Nat.ltb_spec r h); [done|]. by injection Hrun as <-.
  - pose proof (setitem_row_shape _ _ _ _ _ _ _ _ Hrun Hs) as Hs'.
    unfold setitem_row, height in Hrun.
    apply has_shape_spec in Hs as [Hl _]. rewrite Hl in Hrun.
    by destruct (Nat.ltb_spec r h).
Qed.

Lemma rectangle_run c border a h w :
  has_shape h w a = true ->
  0 <= min_vertical c <= max_vertical c ->
  0 <= min_horizontal c <= max_horizontal c ->
  match rectangle c border a with
  | inr a' =>
      max_vertical c < Z.of_nat h /\ max_horizontal c < Z.of_nat w /\
      has_shape h w a' = true
  | inl e =>
      e = IndexError /\ (Z.of_nat h <= max_vertical c \/ Z.of_nat w <= max_horizontal c)
  end.
Proof.
  intros Hs Hv Hh. unfold rectangle, and_then.
  set (top := Z.to_nat (min_vertical c)). set (bottom := Z.to_nat (max_vertical c)).
  set (left := Z.to_nat (min_horizontal c)). set (right := Z.to_nat (max_horizontal c)).
  pose proof (setitem_column_run top (bottom + 1) left border a h w Hs) as H1.
  destruct (setitem_column top (bottom + 1) left border a) as [e1|a1].
  { destruct H1 as [-> H1]. split; [done|lia]. }
  destruct H1 as (Hh0 & Hleft & Hs1).
  pose proof (setitem_column_run top (bottom + 1) right border a1 h w Hs1) as H2.
  destruct (setitem_column top (bottom + 1) right border a1) as [e2|a2].
  { destruct H2 as [-> H2]. split; [done|lia]. }
  destruct H2 as (_ & Hright & Hs2).
  pose proof (setitem_row_run top left (right + 1) border a2 h w Hs2) as H3.
  destruct (setitem_row top left (right + 1) border a2) as [e3|a3].
  { destruct H3 as [-> H3]. split; [done|lia]. }
  destruct H3 as (Htop & Hs3).
  pose proof (setitem_row_run bottom left (right + 1) border a3 h w Hs3) as H4.
  destruct (setitem_row bottom left (right + 1) border a3) as [e4|a4].
  { destruct H4 as [-> H4]. split; [done|lia]. }
  destruct H4 as (Hbottom & Hs4).
  split_and!; (done || lia).
Qed.

(** X14.  The four slice assignments on an array of any size: they go
    through when the bottom and the right edge of the box are inside the
    array, and raise [IndexError] otherwise; the slices are clipped, the
    single indices are not. *)
Theorem rectangle_raises_iff_box_exceeds_array c border a h w :
  has_shape h w a = true ->
  0 <= min_vertical c <= max_vertical c ->
  0 <= min_horizontal c <= max_horizontal c ->
  if (max_vertical c <? Z.of_nat h) && (max_horizontal c <? Z.of_nat w)
  then exists a', rectangle c border a = inr a' /\ has_shape h w a' = true
  else rectangle c border a = inl IndexError.
Proof.
  intros Hs Hv Hh. pose proof (rectangle_run c border a h w Hs Hv Hh) as Hrun.
  destruct (rectangle c border a) as [e|a'].
  - destruct Hrun as [-> Hout]. case_match; [|done].
    apply andb_true_iff in H as [?%Z.ltb_lt ?%Z.ltb_lt]. lia.
  - destruct Hrun as (H1 & H2 & Hs').
    rewrite (proj2 (Z.ltb_lt _ _) H1), (proj2 (Z.ltb_lt _ _) H2). simpl. eauto.
Qed.
End FrameSizeFacts.

Section DoworkFrameSize.
Variable Image_resize : frame -> nat -> nat -> frame.
Variable KMeans_fit : list (list Z) -> KMeans.

(** X15.  [dowork] scales the box by 4 whatever the size of its argument.
    On a non-empty array of any shape and a well-formed fit with a
    detection, it returns the centre and an output of that shape when
    the bottom and the right edge of the box are inside the array, and
    the drawing raises [IndexError] when they are not. *)
Theorem dowork_raises_iff_box_exceeds_frame
    (h : gmap nat frame) array (img : frame) hh ww kmeans target border label c :
  h !! array = Some img ->
  (0 < hh)%nat -> (0 < ww)%nat ->
  has_shape hh ww img = true ->
  fit_of Image_resize KMeans_fit img = inr kmeans ->
  well_formed_fit kmeans = true ->
  closest_label kmeans target = inr label ->
  find_contour (row_counts kmeans label) (column_counts kmeans label) = inr c ->
  336 < count_label kmeans label ->
  if (max_vertical c <? Z.of_nat hh) && (max_horizontal c <? Z.of_nat ww)
  then exists drawn,
         has_shape hh ww drawn = true /\
         dowork Image_resize KMeans_fit target border array h
           = inr ((Some (center_position c), fresh (dom h)), <[fresh (dom h) := drawn]> h)
  else dowork Image_resize KMeans_fit target border array h = inl IndexError.
Proof.
  intros Harr _ _ Hshape Hfit _ Hlabel Hc Hcount.
  destruct (contour_mask _ _ _ Hc) as [mask Hmask].
  rewrite (dowork_run _ _ h array img kmeans label mask target border) by done.
  rewrite (below_threshold_336 _ _ _ Hmask).
  destruct (Z.leb_spec (count_label kmeans label) 336) as [|_]; [lia|].
  unfold row_counts, column_counts in Hc. rewrite Hmask in Hc. rewrite Hc.
  pose proof (find_contour_inr _ _ _ Hc)
    as (top & bottom & left & right & Heq & Ht & Hb & Hv & Hl & Hr & Hh).
  assert (H0t : 0 <= top) by (by apply elem_of_nonzero in Ht as [? _]).
  assert (H0l : 0 <= left) by (by apply elem_of_nonzero in Hl as [? _]).
  pose proof (Hv _ Ht) as Htb. pose proof (Hh _ Hl) as Hlr.
  pose proof (rectangle_run c border img hh ww Hshape) as Hrect.
  rewrite Heq in Hrect. simpl in Hrect. rewrite <- Heq in Hrect.
  specialize (Hrect ltac:(lia) ltac:(lia)). rewrite Heq. simpl. rewrite <- Heq.
  destruct (rectangle c border img) as [e|drawn].
  - destruct Hrect as [-> Hout]. case_match; [|done].
    apply andb_true_iff in H as [?%Z.ltb_lt ?%Z.ltb_lt]. lia.
  - destruct Hrect as (H1 & H2 & Hs').
    rewrite (proj2 (Z.ltb_lt _ _) H1), (proj2 (Z.ltb_lt _ _) H2). simpl. eauto.
Qed.
End DoworkFrameSize.

(** ** The further theorems at a concrete input *)

Lemma two_pushes_on_full_queue_witness :
  exists q',
    acquisition_pushes [11; 12] ten_frames = Some q' /\
    Queue.queue q' = tail (Queue.queue ten_frames) ++ [12] /\
    Queue.qsize q' = Queue.qsize ten_frames.
Proof.
  apply (two_pushes_on_full_queue ten_frames 11 12).
  - reflexivity.
  - vm_compute. lia.
  - vm_compute. lia.
Defined.

(** The clock runs out while worker 0 is inside [dowork] and holds the
    lock. *)
Lemma shutdown_joins_every_worker_witness :
  let s' := demo_exec (shutdown 3) (demo_exec (trace_to_dowork ++ [TimeCheck false]) demo_init) in
  main s' = M_end /\ thread_stopper s' = true /\ lock s' = None /\
  length (workers s') = 3%nat /\
  forall i w, workers s' !! i = Some w -> finished w = true.
Proof.
  apply (shutdown_joins_every_worker (fun f : Z => f) demo_dowork 0 3
           (trace_to_dowork ++ [TimeCheck false])).
  vm_compute. reflexivity.
Defined.

Lemma box_is_bounding_box_of_cluster_witness :
  (forall r col, (col < 80)%nat ->
     labels_ (bands red) !! (r * 80 + col)%nat = Some 0 ->
     0 <= 4 * Z.of_nat r <= 36 /\ 0 <= 4 * Z.of_nat col <= 316) /\
  (exists col, (col < 80)%nat /\
     labels_ (bands red) !! (Z.to_nat (0 / 4) * 80 + col)%nat = Some 0) /\
  (exists col, (col < 80)%nat /\
     labels_ (bands red) !! (Z.to_nat (36 / 4) * 80 + col)%nat = Some 0) /\
  (exists r, labels_ (bands red) !! (r * 80 + Z.to_nat (0 / 4))%nat = Some 0) /\
  (exists r, labels_ (bands red) !! (r * 80 + Z.to_nat (316 / 4))%nat = Some 0).
Proof.
  apply (box_is_bounding_box_of_cluster (bands red) 0 (mk_contour 0 36 0 316)).
  vm_compute. reflexivity.
Defined.

Lemma reported_box_is_never_thin_witness :
  16 <= 36 - 0 /\ 20 <= 316 - 0.
Proof.
  apply (reported_box_is_never_thin (bands red) 0 (mk_contour 0 36 0 316)).
  - vm_compute. reflexivity.
  - vm_compute. reflexivity.
Defined.

(** A box that reaches column 316, on an array of 120 x 160. *)
Lemma rectangle_raises_iff_box_exceeds_array_witness :
  rectangle (mk_contour 0 36 0 316) red (replicate 120 (replicate 160 red))
  = inl IndexError.
Proof.
  apply (rectangle_raises_iff_box_exceeds_array (mk_contour 0 36 0 316) red
           (replicate 120 (replicate 160 red)) 120 160).
  - vm_compute. reflexivity.
  - simpl. lia.
  - simpl. lia.
Defined.

Lemma dowork_raises_iff_box_exceeds_frame_witness :
  dowork every_nth (fun _ => bands red) red red 7%nat
         {[ 7%nat := replicate 120 (replicate 160 red) ]}
  = inl IndexError.
Proof.
  apply (dowork_raises_iff_box_exceeds_frame every_nth (fun _ => bands red)
           {[ 7%nat := replicate 120 (replicate 160 red) ]} 7%nat
           (replicate 120 (replicate 160 red)) 120 160 (bands red) red red 0
           (mk_contour 0 36 0 316)).
  - vm_compute. reflexivity.
  - lia.
  - lia.
  - vm_compute. reflexivity.
  - vm_compute. reflexivity.
  - vm_compute. reflexivity.
  - vm_compute. reflexivity.
  - vm_compute. reflexivity.
  - vm_compute. reflexivity.
Defined.

(** The first frame of a run goes through the block. *)
Lemma main_block_is_acquisition_push_witness :
  let s := demo_exec [TimeCheck true; Capture (inr 42); Tick Main] demo_init in
  let s' := demo_exec [Tick Main; Tick Main; Tick Main; Tick Main; Tick Main] s in
  frames s' = Queue.mk 10 [42] 1 /\ main s' = M_while /\ lock s' = None /\
  workers s' = workers s.
Proof.
  apply (main_block_is_acquisition_push (fun f : Z => f) demo_dowork
           (demo_exec [TimeCheck true; Capture (inr 42); Tick Main] demo_init)
           42 (Queue.mk 10 [42] 1)).
  - vm_compute. reflexivity.
  - vm_compute. reflexivity.
  - vm_compute. reflexivity.
Defined.

(** Worker 1 finds the queue empty at the start of the run. *)
Lemma empty_queue_turn_displays_nothing_witness :
  demo_exec (replicate 4 (Tick (Worker 1))) demo_init = demo_init.
Proof.
  apply (empty_queue_turn_displays_nothing (fun f : Z => f) demo_dowork demo_init 1%nat
           (mk_worker W_while None 0)); reflexivity.
Defined.

(** One frame is queued, then worker 2 takes its turn. *)
Lemma frame_turn_processes_oldest_frame_witness :
  let s := demo_exec [TimeCheck true; Capture (inr 42);
                      Tick Main; Tick Main; Tick Main; Tick Main; Tick Main] demo_init in
  demo_exec (replicate 8 (Tick (Worker 2))) s
  = mk_state (Queue.mk (Queue.maxsize (frames s)) [] 0) None false (main s)
             (<[2%nat := mk_worker W_while None 42]> (workers s)) (shown s ++ [42]).
Proof.
  apply (frame_turn_processes_oldest_frame (fun f : Z => f) demo_dowork
           (demo_exec [TimeCheck true; Capture (inr 42);
                       Tick Main; Tick Main; Tick Main; Tick Main; Tick Main] demo_init)
           2%nat (mk_worker W_while None 0) 42 [] 0%nat None 42); reflexivity.
Defined.

(** The same run with an analysis that raises. *)
Lemma failing_turn_releases_the_lock_witness :
  let failing := fun _ : Z => @inl exn (option Z * Z) ValueError in
  let s := exec (fun f : Z => f) failing
                [TimeCheck true; Capture (inr 42);
                 Tick Main; Tick Main; Tick Main; Tick Main; Tick Main] demo_init in
  exec (fun f : Z => f) failing (replicate 5 (Tick (Worker 2))) s
  = mk_state (Queue.mk (Queue.maxsize (frames s)) [] (Queue.unfinished_tasks (frames s)))
             None false (main s)
             (<[2%nat := mk_worker (W_died ValueError) None 0]> (workers s))
             (shown s).
Proof.
  intros failing s.
  apply (failing_turn_releases_the_lock (fun f : Z => f) failing s 2%nat
           (mk_worker W_while None 0) 42 [] ValueError); reflexivity.
Defined.
